(** * annotated-s4: the S4 kernel pipeline of [s4/s4.py]

    A shallow embedding of the numerical core of [s4.py]: the bilinear
    discretisation, the recurrence and the naive kernel, the generating
    functions and the roots-of-unity inverse transform, the HiPPO
    initialisers, the DPLR closed form, and the [setup] and [__call__] of
    the two layers; followed by the properties established about them.

    Numbers are read in exact arithmetic: a float is a real number of the
    Standard Library, a complex float is a pair of reals.  Arrays carry
    their shape, and every operation that numpy/JAX rejects on a shape or
    argument error returns [Raise].  The library routines the source
    calls ([inv], [eig], [ifft], [convolve]) are read from their
    documented contracts.  The sample points of [convFromGen] are read as
    the roots of unity; where a property depends on the points the
    floating-point library computes, they are an argument
    ([convFromGen_at], [S4Layer_setup]). *)

From Stdlib Require Import Reals Lra Lia List Arith PeanoNat Bool ZArith.
From Stdlib Require Import Ring Field Classical_Prop ClassicalEpsilon.
Import ListNotations.

Open Scope R_scope.

(** ** Python exceptions and fallible results *)

Inductive exn : Type :=
| ShapeError        (* operands of incompatible shapes *)
| ZeroDivisionError (* division of a Python number by zero *)
| ValueError.       (* argument rejected by a library routine *)

Inductive result (T : Type) : Type :=
| Ok (x : T)
| Raise (e : exn).

Arguments Ok {T} x.
Arguments Raise {T} e.

Definition bind {T U : Type} (m : result T) (k : T -> result U) : result U :=
  match m with
  | Ok x => k x
  | Raise e => Raise e
  end.

Notation "x <- m ;; k" := (bind m (fun x => k))
  (at level 61, m at next level, right associativity).

(** A list comprehension whose body may raise: the first error wins. *)
Fixpoint mapM {T U : Type} (f : T -> result U) (l : list T) : result (list U) :=
  match l with
  | [] => Ok []
  | x :: tl => y <- f x ;; ys <- mapM f tl ;; Ok (y :: ys)
  end.

(** ** Complex numbers *)

Record complex : Type := mkC { re : R; im : R }.

Declare Scope C_scope.
Delimit Scope C_scope with C.
Bind Scope C_scope with complex.

Definition RtoC (x : R) : complex := mkC x 0.
Definition C0 : complex := RtoC 0.
Definition C1 : complex := RtoC 1.
Definition Ci : complex := mkC 0 1.

Definition Cadd (a b : complex) : complex := mkC (re a + re b) (im a + im b).
Definition Copp (a : complex) : complex := mkC (- re a) (- im a).
Definition Csub (a b : complex) : complex := mkC (re a - re b) (im a - im b).
Definition Cmul (a b : complex) : complex :=
  mkC (re a * re b - im a * im b) (re a * im b + im a * re b).
Definition Cnorm2 (a : complex) : R := re a * re a + im a * im a.
Definition Cinv (a : complex) : complex :=
  mkC (re a / Cnorm2 a) (- im a / Cnorm2 a).
Definition Cdiv (a b : complex) : complex := Cmul a (Cinv b).
Definition Cconj (a : complex) : complex := mkC (re a) (- im a).

Fixpoint Cpow (z : complex) (n : nat) : complex :=
  match n with
  | O => C1
  | S k => Cmul z (Cpow z k)
  end.

(** [exp] of a complex argument. *)
Definition Cexp (z : complex) : complex :=
  mkC (exp (re z) * cos (im z)) (exp (re z) * sin (im z)).

Infix "+" := Cadd : C_scope.
Infix "-" := Csub : C_scope.
Infix "*" := Cmul : C_scope.
Infix "/" := Cdiv : C_scope.
Notation "- x" := (Copp x) : C_scope.
Notation "/ x" := (Cinv x) : C_scope.

(** ** Array element types

    numpy arrays are of float or complex dtype; the operations shared by
    both are collected in a class. *)

Class Scalar (T : Type) : Type := {
  s0 : T;
  s1 : T;
  sadd : T -> T -> T;
  smul : T -> T -> T;
  ssub : T -> T -> T;
  sopp : T -> T
}.

#[export] Instance R_scalar : Scalar R :=
  {| s0 := 0; s1 := 1; sadd := Rplus; smul := Rmult; ssub := Rminus; sopp := Ropp |}.

#[export] Instance C_scalar : Scalar complex :=
  {| s0 := C0; s1 := C1; sadd := Cadd; smul := Cmul; ssub := Csub; sopp := Copp |}.

(** ** Arrays

    A one-dimensional array is a list; its shape is its length.  A
    two-dimensional array records its shape next to its rows, so that an
    array with no row still has a column count. *)

Record matrix (T : Type) : Type := Mat {
  nrows : nat;
  ncols : nat;
  rows : list (list T)
}.

Arguments Mat {T} nrows ncols rows.
Arguments nrows {T} m.
Arguments ncols {T} m.
Arguments rows {T} m.

Definition wf {T : Type} (m : matrix T) : Prop :=
  length (rows m) = nrows m /\ Forall (fun r => length r = ncols m) (rows m).

(** [m] is an array of shape [(r, c)]. *)
Definition has_shape {T : Type} (m : matrix T) (r c : nat) : Prop :=
  wf m /\ nrows m = r /\ ncols m = c.

(** numpy broadcasting of one axis: equal extents, or one of them is 1. *)
Definition bdim (a b : nat) : result nat :=
  if (a =? b)%nat then Ok a
  else if (a =? 1)%nat then Ok b
  else if (b =? 1)%nat then Ok a
  else Raise ShapeError.

(** Index into an axis of extent [a] that may have been stretched. *)
Definition bidx (a i : nat) : nat := if (a =? 1)%nat then 0%nat else i.

Section ArrayOps.
Context {T : Type} `{Scalar T}.

(** [np.sum] of a one-dimensional array. *)
Definition vsum (l : list T) : T := fold_right sadd s0 l.

(** The sum of [f 0], ..., [f (n-1)]. *)
Definition bigsum (n : nat) (f : nat -> T) : T := vsum (map f (seq 0 n)).

Definition vget (v : list T) (i : nat) : T := nth i v s0.

Definition get (m : matrix T) (i j : nat) : T := nth j (nth i (rows m) []) s0.

(** The array of shape [(n,)] whose entry [i] is [f i]. *)
Definition tab1 (n : nat) (f : nat -> T) : list T := map f (seq 0 n).

(** The array of shape [(r, c)] whose entry [(i, j)] is [f i j]. *)
Definition tab2 (r c : nat) (f : nat -> nat -> T) : matrix T :=
  Mat r c (map (fun i => map (fun j => f i j) (seq 0 c)) (seq 0 r)).

(** Elementwise binary operation on one-dimensional arrays. *)
Definition vbroadcast (f : T -> T -> T) (u v : list T) : result (list T) :=
  n <- bdim (length u) (length v) ;;
  Ok (tab1 n (fun i => f (vget u (bidx (length u) i)) (vget v (bidx (length v) i)))).

(** Elementwise binary operation on two-dimensional arrays. *)
Definition mbroadcast (f : T -> T -> T) (a b : matrix T) : result (matrix T) :=
  r <- bdim (nrows a) (nrows b) ;;
  c <- bdim (ncols a) (ncols b) ;;
  Ok (tab2 r c (fun i j =>
        f (get a (bidx (nrows a) i) (bidx (ncols a) j))
          (get b (bidx (nrows b) i) (bidx (ncols b) j)))).

(** Elementwise operation on two arrays of one shape. *)
Definition mzip (f : T -> T -> T) (a b : matrix T) : matrix T :=
  tab2 (nrows a) (ncols a) (fun i j => f (get a i j) (get b i j)).

(** An operation between an array and a Python or 0-d scalar. *)
Definition mmap (f : T -> T) (a : matrix T) : matrix T :=
  Mat (nrows a) (ncols a) (map (map f) (rows a)).

(** [np.eye(n)]. *)
Definition eye (n : nat) : matrix T :=
  tab2 n n (fun i j => if (i =? j)%nat then s1 else s0).

(** The matrix product, for arrays whose inner extents agree. *)
Definition mat_mul (a b : matrix T) : matrix T :=
  tab2 (nrows a) (ncols b)
    (fun i j => bigsum (ncols a) (fun k => smul (get a i k) (get b k j))).

(** [a @ b] on two-dimensional arrays. *)
Definition matmul (a b : matrix T) : result (matrix T) :=
  if (ncols a =? nrows b)%nat then Ok (mat_mul a b) else Raise ShapeError.

Fixpoint mat_pow (a : matrix T) (n : nat) : matrix T :=
  match n with
  | O => eye (nrows a)
  | S k => mat_mul a (mat_pow a k)
  end.

(** [jax.numpy.linalg.matrix_power]: defined on square arrays only. *)
Definition matrix_power (a : matrix T) (n : nat) : result (matrix T) :=
  if (nrows a =? ncols a)%nat then Ok (mat_pow a n) else Raise ValueError.

(** [m.reshape()]: the only entry of an array of size one. *)
Definition reshape0 (m : matrix T) : result T :=
  if (nrows m * ncols m =? 1)%nat then Ok (get m 0 0) else Raise ShapeError.

(** [m.ravel()]: the entries in row-major order. *)
Definition ravel (m : matrix T) : list T := concat (rows m).

(** [np.tril(m, k)]: the entries above the [k]-th diagonal are zeroed. *)
Definition tril (m : matrix T) (k : Z) : matrix T :=
  tab2 (nrows m) (ncols m)
    (fun i j => if (Z.of_nat j <=? Z.of_nat i + k)%Z then get m i j else s0).

(** [np.diag(v)] for a one-dimensional [v]. *)
Definition diag (v : list T) : matrix T :=
  tab2 (length v) (length v) (fun i j => if (i =? j)%nat then vget v i else s0).

(** [u[:, np.newaxis] * v[np.newaxis, :]]. *)
Definition outer (u v : list T) : matrix T :=
  tab2 (length u) (length v) (fun i j => smul (vget u i) (vget v j)).

(** [m[:, j]]. *)
Definition column (m : matrix T) (j : nat) : list T :=
  tab1 (nrows m) (fun i => get m i j).

(** [m @ v] for a two-dimensional [m] and a one-dimensional [v]. *)
Definition matvec (m : matrix T) (v : list T) : result (list T) :=
  if (ncols m =? length v)%nat
  then Ok (tab1 (nrows m) (fun i =>
             bigsum (ncols m) (fun j => smul (get m i j) (vget v j))))
  else Raise ShapeError.

End ArrayOps.

(** A real array promoted to complex dtype. *)
Definition mcomplex (m : matrix R) : matrix complex :=
  Mat (nrows m) (ncols m) (map (map RtoC) (rows m)).

(** [m.conj().T]. *)
Definition conjT (m : matrix complex) : matrix complex :=
  tab2 (ncols m) (nrows m) (fun i j => Cconj (get m j i)).

(** ** Library routines, from their documentation *)

(** [m] is the two-sided inverse of [x]. *)
Definition is_inverse (x m : matrix complex) : Prop :=
  wf m /\ nrows m = nrows x /\ ncols m = nrows x /\
  mat_mul m x = eye (nrows x) /\ mat_mul x m = eye (nrows x).

(** What [jax.numpy.linalg.inv] hands back for a square [x]: an array of
    the shape of [x], which is the inverse of [x] when [x] has one.  JAX
    performs no singularity check: on a singular [x] it still returns an
    array (of non-finite entries), about which nothing is said here. *)
Definition inv_result (x m : matrix complex) : Prop :=
  wf m /\ nrows m = nrows x /\ ncols m = ncols x /\
  forall m', is_inverse x m' -> m = m'.

(** [jax.numpy.linalg.inv]: rejects arrays that are not square. *)
Definition inv (x : matrix complex) : result (matrix complex) :=
  if (nrows x =? ncols x)%nat
  then Ok (epsilon (inhabits x) (inv_result x))
  else Raise ValueError.

(** [v] is an eigenvector of the real matrix [s] for the eigenvalue [lam]. *)
Definition eigenpair (s : matrix R) (lam : complex) (v : list complex) : Prop :=
  length v = nrows s /\
  (exists i, (i < nrows s)%nat /\ vget v i <> C0) /\
  forall i, (i < nrows s)%nat ->
    bigsum (ncols s) (fun j => (RtoC (get s i j) * vget v j)%C) = (lam * vget v i)%C.

(** The contract of [jax.numpy.linalg.eig]: eigenvalues [w] and an array
    [v] whose column [i] is an eigenvector for [w[i]]. *)
Definition eig_result (s : matrix R) (wv : list complex * matrix complex) : Prop :=
  length (fst wv) = nrows s /\
  wf (snd wv) /\ nrows (snd wv) = nrows s /\ ncols (snd wv) = nrows s /\
  forall i, (i < nrows s)%nat -> eigenpair s (vget (fst wv) i) (column (snd wv) i).

(** [eig_cpu = jax.jit(eig, backend="cpu")]: some eigendecomposition. *)
Definition eig_cpu (s : matrix R) : list complex * matrix complex :=
  epsilon (inhabits ([], Mat 0 0 [])) (eig_result s).

(** [np.fft.ifft(a, n)]: [out[m] = (1/n) * sum_k a[k] * exp(2 pi i m k / n)];
    the input is cropped or zero-padded to [n] entries, and [n < 1] is
    rejected. *)
Definition ifft (a : list complex) (n : nat) : result (list complex) :=
  if (n =? 0)%nat then Raise ValueError
  else Ok (tab1 n (fun m =>
         (RtoC (/ INR n) *
          bigsum n (fun k =>
            (vget a k * Cexp (mkC 0 (2 * PI * INR m * INR k / INR n)))%C))%C)).

(** [jax.scipy.signal.convolve(u, k, mode="full")] on one-dimensional
    arrays: [out[n] = sum_m u[m] * k[n - m]], of length
    [len(u) + len(k) - 1]; empty arrays are rejected. *)
Definition convolve (u k : list R) : result (list R) :=
  if ((length u =? 0) || (length k =? 0))%nat then Raise ValueError
  else Ok (tab1 (length u + length k - 1) (fun n =>
         bigsum (length u) (fun m =>
           if (m <=? n)%nat then vget u m * vget k (n - m) else 0))).

(** ** Part 1: state-space models *)

(** The matrices [I - (step/2) A] and [I + (step/2) A] of the transform. *)
Definition bilinear_minus (A : matrix complex) (step : R) : matrix complex :=
  mzip Csub (eye (nrows A)) (mmap (fun a => (RtoC (step / 2) * a)%C) A).

Definition bilinear_plus (A : matrix complex) (step : R) : matrix complex :=
  mzip Cadd (eye (nrows A)) (mmap (fun a => (RtoC (step / 2) * a)%C) A).

(** [m * step], entry by entry. *)
Definition mscale (m : matrix complex) (step : R) : matrix complex :=
  mmap (fun b => (b * RtoC step)%C) m.

(** [discretize(A, B, C, step)]: the bilinear transform. *)
Definition discretize (A B C : matrix complex) (step : R)
  : result (matrix complex * matrix complex * matrix complex) :=
  let I := eye (nrows A) in
  X <- mbroadcast Csub I (mmap (fun a => (RtoC (step / 2) * a)%C) A) ;;
  BL <- inv X ;;
  Y <- mbroadcast Cadd I (mmap (fun a => (RtoC (step / 2) * a)%C) A) ;;
  Abar <- matmul BL Y ;;
  Bbar <- matmul (mscale BL step) B ;;
  Ok (Abar, Bbar, C).

(** The body of [discretize], line by line. *)

(** A line of the body of [discretize] that has run to completion. *)
Inductive discretize_line : Type :=
| line93   (* I = np.eye(A.shape[0]) *)
| line94   (* BL = inv((I - (step / 2.0) * A)) *)
| line95   (* Abar = BL @ (I + (step / 2.0) * A) *)
| line96.  (* Bbar = (BL * step) @ B *)

(** A run of the body: the lines completed, in program order, and the
    outcome of the call. *)
Definition run (T : Type) : Type := (list discretize_line * result T)%type.

(** The line [l] computes [m]; when it completes, the run goes on with [k]. *)
Definition run_line {T U : Type} (l : discretize_line) (m : result T)
    (k : T -> run U) : run U :=
  match m with
  | Ok x => (l :: fst (k x), snd (k x))
  | Raise e => ([], Raise e)
  end.

(** [discretize(A, B, C, step)], with the lines it completes. *)
Definition discretize_run (A B C : matrix complex) (step : R)
  : run (matrix complex * matrix complex * matrix complex) :=
  run_line line93 (Ok (eye (nrows A))) (fun I =>
  run_line line94
    (X <- mbroadcast Csub I (mmap (fun a => (RtoC (step / 2) * a)%C) A) ;; inv X)
    (fun BL =>
  run_line line95
    (Y <- mbroadcast Cadd I (mmap (fun a => (RtoC (step / 2) * a)%C) A) ;;
     matmul BL Y)
    (fun Abar =>
  run_line line96 (matmul (mscale BL step) B) (fun Bbar =>
  ([], Ok (Abar, Bbar, C)))))).

(** An error raised at entry: before any line of the body completes. *)
Definition raised_at_entry {T : Type} (r : run T) : Prop :=
  exists e, r = ([], Raise e).

(** [K_conv(A, B, C, L)]: the kernel by explicit matrix powers. *)
Definition K_conv (A B C : matrix complex) (L : nat) : result (list complex) :=
  mapM (fun l =>
          P <- matrix_power A l ;;
          CP <- matmul C P ;;
          CPB <- matmul CP B ;;
          reshape0 CPB)
       (seq 0 L).

(** [nonCircularConvolution(u, K)]. *)
Definition nonCircularConvolution (u K : list R) : result (list R) :=
  full <- convolve u K ;;
  Ok (firstn (length u) full).

(** [make_HiPPO(N)]; the loops run over [n, k = 1 .. N]. *)
Definition make_HiPPO (N : nat) : matrix R :=
  Mat N N
    (map (fun n =>
       map (fun k =>
              if (k <? n)%nat
              then sqrt (INR (2 * n + 1)) * sqrt (INR (2 * k + 1))
              else if (n =? k)%nat then INR (n + 1) else 0)
           (seq 1 N))
       (seq 1 N)).

(** The [__call__] of [NaiveSSMLayer] and of [S4Layer], for one channel:
    [K] is the kernel built by [setup], [D] the parameter of shape [(1,)]. *)
Definition S4Layer_call (K D u : list R) : result (list R) :=
  conv <- nonCircularConvolution u K ;;
  Du <- vbroadcast Rmult D u ;;
  vbroadcast Rplus conv Du.

(** The transition matrix that [NaiveSSMInit(N)] hands to the layer. *)
Definition NaiveSSMInit (N : nat) : matrix R := make_HiPPO N.

(** ** Part 2: generating functions *)

(** The function returned by [K_gen_simple], for the kernel [K]. *)
Definition gen_simple (K : list complex) (L : nat) (z : complex) : result complex :=
  Kz <- vbroadcast Cmul K (map (Cpow z) (seq 0 L)) ;;
  Ok (vsum Kz).

(** [K_gen_simple], applied to the triple [(A, B, C)] and [L]. *)
Definition K_gen_simple (A B C : matrix complex) (L : nat)
  : result (complex -> result complex) :=
  K <- K_conv A B C L ;;
  Ok (gen_simple K L).

(** The sample points [r = np.exp((2j * np.pi / L) * np.arange(L))]. *)
Definition roots_of_unity (L : nat) : list complex :=
  map (fun k => Cexp (mkC 0 (2 * PI / INR L) * RtoC (INR k))%C) (seq 0 L).

(** The index array [order] of [convFromGen]. *)
Definition kernel_order (L : nat) : list nat :=
  map (fun i => if (i =? 0)%nat then i else (L - i)%nat) (seq 0 L).

(** [convFromGen(gen, L)]; [2j * np.pi / L] divides Python numbers. *)
Definition convFromGen (gen : complex -> result complex) (L : nat) : result (list R) :=
  if (L =? 0)%nat then Raise ZeroDivisionError
  else
    let r := roots_of_unity L in
    atRoots <- mapM gen r ;;
    out <- ifft atRoots L ;;
    out <- (if (length out =? L)%nat then Ok out else Raise ShapeError) ;;
    let order := kernel_order L in
    Ok (map (fun j => re (vget out j)) order).

(** Lines 388 to 393 of [convFromGen], on the array [r] of sample points
    that line 387 has computed.  In floating point [r] is not the array
    of the roots of unity: the entry computed for [exp(i pi)] is not
    [-1]. *)
Definition convFromGen_at (r : list complex) (gen : complex -> result complex)
    (L : nat) : result (list R) :=
  atRoots <- mapM gen r ;;
  out <- ifft atRoots L ;;
  out <- (if (length out =? L)%nat then Ok out else Raise ShapeError) ;;
  let order := kernel_order L in
  Ok (map (fun j => re (vget out j)) order).

(** The point [exp(2 pi i n / L)] of the unit circle. *)
Definition unit_root (L n : nat) : complex :=
  mkC (cos (2 * PI * INR n / INR L)) (sin (2 * PI * INR n / INR L)).

(** [cauchy_dot(v, omega, lambd)]; the signature [(c),(),(c)->()] makes
    [np.vectorize] reject operands of different lengths. *)
Definition cauchy_dot (v : list complex) (omega : complex) (lambd : list complex)
  : result complex :=
  if (length v =? length lambd)%nat
  then Ok (vsum (map (fun vl => (fst vl / (omega - snd vl))%C) (combine v lambd)))
  else Raise ShapeError.

(** [K_gen_DPLR(Lambda, p, q, B, Ct, step)]; [step] is a Python float.
    The divisions on arrays are those of the field of complex numbers:
    at an argument where the source divides by zero ([1 + o = 0],
    [g = Lambda_i] or [1 + k11 = 0]) it carries [inf] or [nan] on, which
    no number of this model stands for, and the value computed here has
    no meaning for the source. *)
Definition K_gen_DPLR (Lambda p q : list complex) (B : matrix complex)
    (Ct : list complex) (step : R) (o : complex) : result complex :=
  let aterm0 := map Cconj Ct in
  let aterm1 := map Cconj q in
  let bterm0 := ravel B in
  let bterm1 := p in
  if Req_dec_T step 0 then Raise ZeroDivisionError
  else
    let g := (RtoC (2 / step) * ((C1 - o) / (C1 + o)))%C in
    let c := (RtoC 2 / (C1 + o))%C in
    let k := fun a => cauchy_dot a g Lambda in
    ab00 <- vbroadcast Cmul aterm0 bterm0 ;;
    k00 <- k ab00 ;;
    ab01 <- vbroadcast Cmul aterm0 bterm1 ;;
    k01 <- k ab01 ;;
    ab10 <- vbroadcast Cmul aterm1 bterm0 ;;
    k10 <- k ab10 ;;
    ab11 <- vbroadcast Cmul aterm1 bterm1 ;;
    k11 <- k ab11 ;;
    Ok (c * (k00 - k01 * (C1 / (C1 + k11)) * k10))%C.

(** ** Step 3: HiPPO as diagonal plus low rank *)

(** The locals of [make_DPLR_HiPPO(N)]; all matrices are [N] by [N]. *)
Definition DPLR_p (N : nat) : list R :=
  map (fun n => sqrt (INR (2 * n) + 1.0)) (seq 1 N).

Definition DPLR_pq (N : nat) : matrix R := outer (DPLR_p N) (DPLR_p N).

Definition DPLR_hippo (N : nat) : matrix R :=
  mzip Rminus (mmap Ropp (tril (DPLR_pq N) (-1)))
              (diag (map (fun n => INR (n + 1)) (seq 1 N))).

Definition DPLR_S (N : nat) : matrix R :=
  mzip Rplus (DPLR_hippo N)
    (mzip Rplus (mmap (Rmult 0.5) (DPLR_pq N)) (mmap (Rmult 0.5) (eye N))).

(** [make_DPLR_HiPPO(N)], returning [(hippo, diag, 0.5 * p, q, v)]. *)
Definition make_DPLR_HiPPO (N : nat)
  : matrix R * list complex * list R * list R * matrix complex :=
  let p := DPLR_p N in
  let q := p in
  let hippo := DPLR_hippo N in
  let S := DPLR_S N in
  let '(diag, v) := eig_cpu S in
  let diag := map (fun d => (d - RtoC 0.5)%C) diag in
  (hippo, diag, map (Rmult 0.5) p, q, v).

(** The components of the tuple. *)
Definition DPLR_hippo_of (t : matrix R * list complex * list R * list R * matrix complex)
  : matrix R := let '(hippo, _, _, _, _) := t in hippo.

Definition DPLR_Lambda_of (t : matrix R * list complex * list R * list R * matrix complex)
  : list complex := let '(_, Lambda, _, _, _) := t in Lambda.

(** ** Part 3: the layers *)

(** [np.diag(Lambda) - p[:, np.newaxis] @ q[:, np.newaxis].conj().T], the
    transition matrix that [S4LayerInit] hands to [S4Layer]. *)
Definition DPLR_matrix (Lambda p q : list complex) : matrix complex :=
  mzip Csub (diag Lambda) (outer p (map Cconj q)).

(** [S4LayerInit(N)]: the arguments [(A, p, q, Lambda)] it binds. *)
Definition S4LayerInit (N : nat)
  : result (matrix complex * list complex * list complex * list complex) :=
  let '(_, Lambda, p, q, V) := make_DPLR_HiPPO N in
  let Vc := conjT V in
  p <- matvec Vc (map RtoC p) ;;
  q <- matvec Vc (map Cconj (map RtoC q)) ;;
  Ok (DPLR_matrix Lambda p q, p, q, Lambda).

(** The kernel computed by [NaiveSSMLayer.setup], for a transition matrix
    [A] of either dtype and the parameters [B] of shape [(N, 1)] and [C]
    of shape [(1, N)]. *)
Definition NaiveSSMLayer_setup (A : matrix complex) (l_max : nat) (B C : matrix R)
  : result (list complex) :=
  if (l_max =? 0)%nat then Raise ZeroDivisionError
  else
    ssm <- discretize A (mcomplex B) (mcomplex C) (1.0 / INR l_max) ;;
    let '(Abar, Bbar, Cbar) := ssm in
    K_conv Abar Bbar Cbar l_max.

(** The kernel computed by [S4Layer.setup], for the same parameters.
    The closed form of [K_gen_DPLR] divides by [1 + z], and [-1] is a
    root of unity for every even [l_max]: what the source returns there
    depends on the sample points as the library computes them, so the
    array [r] of line 387 of [convFromGen] is an argument. *)
Definition S4Layer_setup (r : list complex) (A : matrix complex)
    (p q Lambda : list complex) (N l_max : nat) (B C : matrix R)
  : result (list R) :=
  if (l_max =? 0)%nat then Raise ZeroDivisionError
  else
    let step := 1.0 / INR l_max in
    let I := eye N in
    ssm <- discretize A (mcomplex B) (mcomplex C) step ;;
    let '(Abar, _, Cbar) := ssm in
    AL <- matrix_power Abar l_max ;;
    D <- mbroadcast Csub I AL ;;
    Ct <- matvec (conjT D) (ravel Cbar) ;;
    let K_gen := K_gen_DPLR Lambda p q (mcomplex B) Ct step in
    convFromGen_at r K_gen l_max.

(** The entry [K[l] = Cbar Abar^l Bbar] of the naive kernel. *)
Definition kernel_entry (Abar Bbar Cbar : matrix complex) (l : nat) : complex :=
  get (mat_mul (mat_mul Cbar (mat_pow Abar l)) Bbar) 0 0.

(** [np.isclose(a, b, rtol=1e-2, atol=1e-4)] on complex scalars. *)
Definition Cabs (z : complex) : R := sqrt (Cnorm2 z).

Definition isclose (a b : complex) : Prop :=
  Cabs (a - b)%C <= 1e-4 + 1e-2 * Cabs b.

(** The value [C (I - A^L) (I - A z)^-1 B] of the generating function of
    the discrete system [(A, B, C)], at a point [z] where [I - A z] has
    the inverse [Rz]. *)
Definition gen_inverse_value (A B C Rz : matrix complex) (L : nat) : complex :=
  get (mat_mul (mat_mul C (mzip Csub (eye (nrows A)) (mat_pow A L)))
         (mat_mul Rz B)) 0 0.

(** How far the generating function at a computed sample point is from
    the truncated generating function [sum_l K[l] w^l] of the kernel at
    the root of unity [w] that the point stands for. *)
Definition sampling_error (A B C Rz : matrix complex) (L : nat) (w : complex) : R :=
  Cabs (gen_inverse_value A B C Rz L
        - bigsum L (fun l => kernel_entry A B C l * Cpow w l))%C.

(** ** The closed form of the DPLR generating function *)

(** The change of variable [g(z) = (2/step) (1 - z)/(1 + z)] and the
    factor [c(z) = 2/(1 + z)]. *)
Definition bilinear_g (step : R) (z : complex) : complex :=
  (RtoC (2 / step) * ((C1 - z) / (C1 + z)))%C.

Definition bilinear_c (z : complex) : complex := (RtoC 2 / (C1 + z))%C.

(** The Cauchy dot product [k(u, v) = sum_i u_i v_i / (g - Lambda_i)]. *)
Definition cauchy_k (Lambda : list complex) (g : complex) (u v : list complex)
  : complex :=
  bigsum (length Lambda) (fun i => ((vget u i * vget v i) / (g - vget Lambda i))%C).

(** [c (k(a0,b0) - k(a0,b1) (1 + k(a1,b1))^-1 k(a1,b0))]. *)
Definition woodbury (Lambda : list complex) (g c : complex)
    (a0 a1 b0 b1 : list complex) : complex :=
  (c * (cauchy_k Lambda g a0 b0
        - cauchy_k Lambda g a0 b1
          * / (C1 + cauchy_k Lambda g a1 b1)
          * cauchy_k Lambda g a1 b0))%C.

(** The solution [w] of [(g I - A) w = b] for [A = diag Lambda - p q*],
    by the Sherman-Morrison formula. *)
Definition sm_solution (Lambda p q b : list complex) (g : complex) (i : nat)
  : complex :=
  let k10 := cauchy_k Lambda g (map Cconj q) b in
  let k11 := cauchy_k Lambda g (map Cconj q) p in
  ((vget b i - vget p i * (k10 * / (C1 + k11))) / (g - vget Lambda i))%C.

(** A point at which the closed form divides by no zero. *)
Definition regular_point (Lambda p q : list complex) (step : R) (z : complex) : Prop :=
  (C1 + z)%C <> C0 /\
  (forall i, (i < length Lambda)%nat -> bilinear_g step z <> vget Lambda i) /\
  (C1 + cauchy_k Lambda (bilinear_g step z) (map Cconj q) p)%C <> C0.

(** ** Sample operands *)

(** A stable one-state system, and the inverse of its [I - (step/2) A]
    at [step = 1]. *)
Definition ex_A : matrix complex := Mat 1 1 [[RtoC (-2)]].
Definition ex_B : matrix complex := Mat 1 1 [[RtoC 3]].
Definition ex_C : matrix complex := Mat 1 1 [[RtoC 5]].
Definition ex_M : matrix complex := Mat 1 1 [[RtoC (1 / 2)]].

(** [A = [[2]]] makes [I - (step/2) A] the zero matrix at [step = 1]. *)
Definition ex_A_singular : matrix complex := Mat 1 1 [[RtoC 2]].

(** An input projection with one row too many for [ex_A]. *)
Definition ex_B_tall : matrix complex := Mat 2 1 [[RtoC 3]; [RtoC 4]].

(** A DPLR description with a purely imaginary [Ct] entry. *)
Definition ex_Lambda : list complex := [RtoC (-1)].
Definition ex_p : list complex := [C0].
Definition ex_q : list complex := [C0].
Definition ex_Bcol : matrix complex := Mat 1 1 [[C1]].
Definition ex_Ct : list complex := [Ci].

(** An eigendecomposition of [DPLR_S 2 = [[0, c], [-c, 0]]]: the
    eigenvalues [i c] and [-i c], for the eigenvectors [(1, i)] and [(1, -i)]. *)
Definition ex_eig_w : list complex :=
  [mkC 0 (get (DPLR_S 2) 0 1); mkC 0 (- get (DPLR_S 2) 0 1)].

Definition ex_eig_V : matrix complex := Mat 2 2 [[C1; C1]; [Ci; Copp Ci]].

(** A stable one-state oscillator: [Lambda = [-1 + i]], no low-rank part,
    and [B = C = [[1]]]; at [l_max = 1] the step is [1] and
    [I - (step/2) A = [[3/2 - i/2]]] has the inverse [[[3/5 + i/5]]]. *)
Definition osc_Lambda : list complex := [mkC (-1) 1].
Definition osc_A : matrix complex := DPLR_matrix osc_Lambda ex_p ex_q.
Definition osc_B : matrix R := Mat 1 1 [[1]].
Definition osc_C : matrix R := Mat 1 1 [[1]].
Definition osc_M : matrix complex := Mat 1 1 [[mkC (3 / 5) (1 / 5)]].

(** For the oscillator [Abar = [[1/5 + 2i/5]]], and [I - Abar] has the
    inverse [[[1 + i/2]]]. *)
Definition osc_Rz : matrix complex := Mat 1 1 [[mkC 1 (1 / 2)]].


(** ** Part 1: the recurrent mode *)

Section Recurrence.
Context {T : Type} `{Scalar T}.

(** [stepSSM(A, B, C)]: the step function of the recurrence, on a state
    [x_t] of shape [(N,)] and an input [u_t] of shape [(1,)]. *)
Definition stepSSM (A B C : matrix T) (x_t u_t : list T)
  : result (list T * list T) :=
  Ax <- matvec A x_t ;;
  Bu <- matvec B u_t ;;
  x_t <- vbroadcast sadd Ax Bu ;;
  y_t <- matvec C x_t ;;
  Ok (x_t, y_t).

(** [jax.lax.scan(f, init, xs)[1]]: [f] is applied along the leading axis
    of [xs], threading the carry, which has to keep the shape of [init];
    the outputs are stacked. *)
Fixpoint scan (f : list T -> list T -> result (list T * list T))
    (init : list T) (xs : list (list T)) : result (list (list T)) :=
  match xs with
  | [] => Ok []
  | x :: tl =>
      cy <- f init x ;;
      if (length (fst cy) =? length init)%nat
      then ys <- scan f (fst cy) tl ;; Ok (snd cy :: ys)
      else Raise ShapeError
  end.

(** [scanSSM(step_fn, u, init)], for [u] of shape [(L, 1)]; the assertion
    on the second extent of [u] is reported as a shape error. *)
Definition scanSSM (step_fn : list T -> list T -> result (list T * list T))
    (u : matrix T) (init : list T) : result (list (list T)) :=
  if (ncols u =? 1)%nat then scan step_fn init (rows u) else Raise ShapeError.

(** [np.zeros((n,))]. *)
Definition zeros (n : nat) : list T := repeat s0 n.

(** [u[:, np.newaxis]], of shape [(len(u), 1)]. *)
Definition newaxis (u : list T) : matrix T :=
  Mat (length u) 1 (map (fun x => [x]) u).

End Recurrence.

(** [runSSM(ssm, u)], for a system and an input of float dtype: the initial
    state [np.zeros] is a float array and [jax.lax.scan] wants the carry to
    keep its dtype.  As in the layers, float arrays are computed with
    through their embedding in the complex numbers; [re] reads the float
    result back. *)
Definition runSSM (A B C : matrix R) (u : list R) : result (list (list R)) :=
  if (length u =? 0)%nat then Raise ZeroDivisionError
  else
    let step := 1.0 / INR (length u) in
    ssm <- discretize (mcomplex A) (mcomplex B) (mcomplex C) step ;;
    let '(Abar, Bbar, Cbar) := ssm in
    ys <- scanSSM (stepSSM Abar Bbar Cbar) (newaxis (map RtoC u))
            (zeros (nrows Abar)) ;;
    Ok (map (map re) ys).

(** [example_mass(k, b, m)]; the arguments are Python numbers. *)
Definition example_mass (k b m : R) : result (matrix R * matrix R * matrix R) :=
  if Req_dec_T m 0 then Raise ZeroDivisionError
  else
    let A := Mat 2 2 [[0; 1]; [- k / m; - b / m]] in
    let B := Mat 2 1 [[0]; [1.0 / m]] in
    let C := Mat 1 2 [[0; 1]] in
    Ok (A, B, C).

(** [example_both(ssm, u)], returning [(rec, conv)]. *)
Definition example_both (A B C : matrix R) (u : list R)
  : result (list (list R) * list R) :=
  let L := length u in
  if (L =? 0)%nat then Raise ZeroDivisionError
  else
    let step := 1.0 / INR L in
    ssm <- discretize (mcomplex A) (mcomplex B) (mcomplex C) step ;;
    let '(Abar, Bbar, Cbar) := ssm in
    rec <- scanSSM (stepSSM Abar Bbar Cbar) (newaxis (map RtoC u))
             (zeros (nrows Abar)) ;;
    K <- K_conv Abar Bbar Cbar L ;;
    conv <- nonCircularConvolution u (map re K) ;;
    Ok (map (map re) rec, conv).

(** ** Step 1: the generating function by inversion *)

(** [K_gen_inverse(A, B, C, L)]. *)
Definition K_gen_inverse (A B C : matrix complex) (L : nat)
  : result (complex -> result complex) :=
  let I := eye (nrows A) in
  A_L <- matrix_power A L ;;
  D <- mbroadcast Csub I A_L ;;
  C2 <- matmul C D ;;
  Ok (fun z =>
        X <- mbroadcast Csub I (mmap (fun a => (a * z)%C) A) ;;
        Xi <- inv X ;;
        P <- matmul C2 Xi ;;
        Q <- matmul P B ;;
        reshape0 Q).

(** ** Step 3: the initialiser, from the output of [eig_cpu] *)

(** The tuple that [make_DPLR_HiPPO(N)] builds from the pair [(diag, v)]
    handed back by [eig_cpu]. *)
Definition make_DPLR_HiPPO_of (N : nat) (wv : list complex * matrix complex)
  : matrix R * list complex * list R * list R * matrix complex :=
  let p := DPLR_p N in
  let q := p in
  let hippo := DPLR_hippo N in
  let '(diag, v) := wv in
  let diag := map (fun d => (d - RtoC 0.5)%C) diag in
  (hippo, diag, map (Rmult 0.5) p, q, v).

(** What [S4LayerInit] computes from the tuple of [make_DPLR_HiPPO]. *)
Definition S4LayerInit_of
    (t : matrix R * list complex * list R * list R * matrix complex)
  : result (matrix complex * list complex * list complex * list complex) :=
  let '(_, Lambda, p, q, V) := t in
  let Vc := conjT V in
  p <- matvec Vc (map RtoC p) ;;
  q <- matvec Vc (map Cconj (map RtoC q)) ;;
  Ok (DPLR_matrix Lambda p q, p, q, Lambda).

(** ** Notions used to state the further properties *)

(** The matrix [I - A * z] inverted by the function of [K_gen_inverse]. *)
Definition resolvent_minus (A : matrix complex) (z : complex) : matrix complex :=
  mzip Csub (eye (nrows A)) (mmap (fun a => (a * z)%C) A).

(** The entries of [m] have no imaginary part. *)
Definition real_entries (m : matrix complex) : Prop :=
  forall i j, (i < nrows m)%nat -> (j < ncols m)%nat -> im (get m i j) = 0.

(** The image [(1 + (step/2) lam) / (1 - (step/2) lam)] of an eigenvalue
    under the bilinear transform. *)
Definition bilinear_eigenvalue (step : R) (lam : complex) : complex :=
  ((C1 + RtoC (step / 2) * lam) / (C1 - RtoC (step / 2) * lam))%C.

(** ** Further sample operands *)

(** The matrices of [example_mass(k, b, m)], and the inverse of
    [I - (step/2) A] for its [A]. *)
Definition mass_A (k b m : R) : matrix R := Mat 2 2 [[0; 1]; [- k / m; - b / m]].
Definition mass_B (m : R) : matrix R := Mat 2 1 [[0]; [1.0 / m]].
Definition mass_C : matrix R := Mat 1 2 [[0; 1]].

Definition mass_det (k b m step : R) : R :=
  1 + step / 2 * (b / m) + step / 2 * (step / 2) * (k / m).

Definition mass_inverse (k b m step : R) : matrix complex :=
  Mat 2 2
    [[RtoC ((1 + step / 2 * (b / m)) / mass_det k b m step);
      RtoC (step / 2 / mass_det k b m step)];
     [RtoC (- (step / 2 * (k / m)) / mass_det k b m step);
      RtoC (1 / mass_det k b m step)]].

(** The input [u = np.arange(10)] of the call of [example_both] at module
    level. *)
Definition ex_u : list R := map INR (seq 0 10).

(** A transition matrix with two rows and three columns. *)
Definition ex_A_wide : matrix complex :=
  Mat 2 3 [[RtoC 1; RtoC 2; RtoC 3]; [RtoC 4; RtoC 5; RtoC 6]].

(** A unitary eigendecomposition of [DPLR_S 2]: the eigenvectors of
    [ex_eig_V], scaled to norm one. *)
Definition ex_unitary_V : matrix complex :=
  Mat 2 2 [[RtoC (/ sqrt 2); RtoC (/ sqrt 2)];
           [mkC 0 (/ sqrt 2); mkC 0 (- / sqrt 2)]].


(** A two-state system with a low-rank part, at [l_max = 2]:
    [A = diag(-1 + i, -2) - p q*] with [p = (1/2, 1)] and
    [q = (1/2, 1/2)], and [B = (1, 1)^T], [C = (1, 1)].  The step is
    [1/2]; [samp_M] is the inverse of [I - (step/2) A], [samp_Abar] and
    [samp_Bbar] the discretised matrices.  The sample points are [1] and
    a point next to [-1], as a float [exp(i pi)] is; [samp_Rz] gives the
    inverses of [I - Abar z] at the two points. *)
Definition samp_Lambda : list complex := [mkC (-1) 1; RtoC (-2)].
Definition samp_p : list complex := [RtoC (1 / 2); C1].
Definition samp_q : list complex := [RtoC (1 / 2); RtoC (1 / 2)].
Definition samp_B : matrix R := Mat 2 1 [[1]; [1]].
Definition samp_C : matrix R := Mat 1 2 [[1; 1]].
Definition samp_M : matrix complex :=
  Mat 2 2 [[mkC (3536 / 4793) (676 / 4793); mkC (- (136 / 4793)) (- (26 / 4793))];
           [mkC (- (272 / 4793)) (- (52 / 4793)); mkC (2960 / 4793) (2 / 4793)]].
Definition samp_Abar : matrix complex :=
  Mat 2 2 [[mkC (2279 / 4793) (1352 / 4793); mkC (- (272 / 4793)) (- (52 / 4793))];
           [mkC (- (544 / 4793)) (- (104 / 4793)); mkC (1127 / 4793) (4 / 4793)]].
Definition samp_Bbar : matrix complex :=
  Mat 2 1 [[mkC (1700 / 4793) (325 / 4793)]; [mkC (1344 / 4793) (- (25 / 4793))]].
Definition samp_r : list complex := [C1; mkC (-1) (- (1 / 10000000))].

(** The inverse of a two-by-two matrix, by the adjugate. *)
Definition inv2x2 (m : matrix complex) : matrix complex :=
  let d := (get m 0 0 * get m 1 1 - get m 0 1 * get m 1 0)%C in
  Mat 2 2 [[(get m 1 1 / d)%C; (Copp (get m 0 1) / d)%C];
           [(Copp (get m 1 0) / d)%C; (get m 0 0 / d)%C]].

Definition samp_Rz (k : nat) : matrix complex :=
  inv2x2 (resolvent_minus samp_Abar (vget samp_r k)).

(** * Properties *)

(** ** Complex arithmetic *)

Lemma complex_eq (a b : complex) : re a = re b -> im a = im b -> a = b.
Proof. destruct a, b; simpl; intros -> ->; reflexivity. Qed.

Lemma Cnorm2_pos (a : complex) : a <> C0 -> 0 < Cnorm2 a.
Proof.
  intros Ha. unfold Cnorm2.
  destruct (Req_dec_T (re a) 0) as [Hr|Hr]; destruct (Req_dec_T (im a) 0) as [Hi|Hi];
    try nra.
  exfalso. apply Ha. apply complex_eq; assumption.
Qed.

Lemma complex_ring : ring_theory C0 C1 Cadd Cmul Csub Copp eq.
Proof.
  constructor; intros; apply complex_eq; simpl; ring.
Qed.

Lemma complex_field : field_theory C0 C1 Cadd Cmul Csub Copp Cdiv Cinv eq.
Proof.
  constructor.
  - exact complex_ring.
  - intros H. apply (f_equal re) in H. simpl in H. lra.
  - reflexivity.
  - intros p Hp. pose proof (Cnorm2_pos p Hp) as Hn.
    apply complex_eq; simpl; fold (Cnorm2 p); unfold Cnorm2 in *; field; lra.
Qed.

Add Field complex_field_reg : complex_field.

Lemma complex_eq_dec (a b : complex) : {a = b} + {a <> b}.
Proof.
  destruct (Req_dec_T (re a) (re b)) as [Hr|Hr].
  - destruct (Req_dec_T (im a) (im b)) as [Hi|Hi].
    + left. apply complex_eq; assumption.
    + right. intros ->. apply Hi. reflexivity.
  - right. intros ->. apply Hr. reflexivity.
Qed.

Lemma Cmul_integral (a b : complex) :
  (a * b)%C = C0 -> a = C0 \/ b = C0.
Proof.
  intros H. destruct (complex_eq_dec a C0) as [Ha|Ha]; [left; assumption|right].
  assert (Hb : b = (/ a * (a * b))%C) by (field; assumption).
  rewrite Hb, H. ring.
Qed.

(** ** The element types are commutative rings *)

Class ScalarLaws (T : Type) `{Scalar T} : Prop :=
  scalar_ring : ring_theory s0 s1 sadd smul ssub sopp eq.

#[export] Instance R_laws : ScalarLaws R := RTheory.

#[export] Instance C_laws : ScalarLaws complex := complex_ring.

(** ** Sums, tables and matrix algebra *)

Section ArrayFacts.
Context {T : Type} `{ScalarLaws T}.

Add Ring scalar_ring_reg : scalar_ring.

Lemma bigsum_0 (f : nat -> T) : bigsum 0 f = s0.
Proof. reflexivity. Qed.

Lemma vsum_app (l1 l2 : list T) : vsum (l1 ++ l2) = sadd (vsum l1) (vsum l2).
Proof.
  induction l1 as [|x l1 IH]; simpl.
  - ring.
  - rewrite IH. ring.
Qed.

Lemma bigsum_S (n : nat) (f : nat -> T) :
  bigsum (S n) f = sadd (bigsum n f) (f n).
Proof.
  unfold bigsum. rewrite seq_S, map_app, vsum_app. simpl. ring.
Qed.

Lemma bigsum_S_l (n : nat) (f : nat -> T) :
  bigsum (S n) f = sadd (f 0%nat) (bigsum n (fun i => f (S i))).
Proof.
  unfold bigsum. simpl. rewrite <- seq_shift, map_map. reflexivity.
Qed.

Lemma bigsum_ext (n : nat) (f g : nat -> T) :
  (forall i, (i < n)%nat -> f i = g i) -> bigsum n f = bigsum n g.
Proof.
  induction n as [|n IH]; intros Hfg.
  - reflexivity.
  - rewrite !bigsum_S, IH by (intros; apply Hfg; lia).
    rewrite Hfg by lia. reflexivity.
Qed.

Lemma bigsum_zero (n : nat) (f : nat -> T) :
  (forall i, (i < n)%nat -> f i = s0) -> bigsum n f = s0.
Proof.
  induction n as [|n IH]; intros Hf.
  - reflexivity.
  - rewrite bigsum_S, IH, Hf by (intros; try apply Hf; lia). ring.
Qed.

Lemma bigsum_add (n : nat) (f g : nat -> T) :
  bigsum n (fun i => sadd (f i) (g i)) = sadd (bigsum n f) (bigsum n g).
Proof.
  induction n as [|n IH].
  - rewrite !bigsum_0. ring.
  - rewrite !bigsum_S, IH. ring.
Qed.

Lemma bigsum_scal_l (n : nat) (c : T) (f : nat -> T) :
  bigsum n (fun i => smul c (f i)) = smul c (bigsum n f).
Proof.
  induction n as [|n IH].
  - rewrite !bigsum_0. ring.
  - rewrite !bigsum_S, IH. ring.
Qed.

Lemma bigsum_scal_r (n : nat) (c : T) (f : nat -> T) :
  bigsum n (fun i => smul (f i) c) = smul (bigsum n f) c.
Proof.
  induction n as [|n IH].
  - rewrite !bigsum_0. ring.
  - rewrite !bigsum_S, IH. ring.
Qed.

Lemma bigsum_swap (n m : nat) (f : nat -> nat -> T) :
  bigsum n (fun i => bigsum m (fun j => f i j)) =
  bigsum m (fun j => bigsum n (fun i => f i j)).
Proof.
  induction n as [|n IH].
  - rewrite bigsum_0. symmetry. apply bigsum_zero. intros; apply bigsum_0.
  - rewrite bigsum_S, IH, <- bigsum_add.
    apply bigsum_ext. intros j _. rewrite bigsum_S. reflexivity.
Qed.

(** A sum with a single non-zero term. *)
Lemma bigsum_single (n k : nat) (f : nat -> T) :
  (k < n)%nat -> (forall i, (i < n)%nat -> i <> k -> f i = s0) ->
  bigsum n f = f k.
Proof.
  induction n as [|n IH]; intros Hk Hf; [lia|].
  rewrite bigsum_S.
  destruct (Nat.eq_dec k n) as [->|Hne].
  - rewrite bigsum_zero by (intros; apply Hf; lia). ring.
  - rewrite IH by (try lia; intros; apply Hf; lia).
    rewrite (Hf n) by lia. ring.
Qed.

(** Reading the terms in the opposite order. *)
Lemma bigsum_rev (n : nat) (f : nat -> T) :
  bigsum n f = bigsum n (fun i => f (n - 1 - i)%nat).
Proof.
  induction n as [|n IH].
  - reflexivity.
  - rewrite bigsum_S, bigsum_S_l, IH.
    replace (S n - 1 - 0)%nat with n by lia.
    rewrite (bigsum_ext n (fun i => f (S n - 1 - S i)%nat) (fun i => f (n - 1 - i)%nat))
      by (intros; f_equal; lia).
    ring.
Qed.

Lemma tab1_length (n : nat) (f : nat -> T) : length (tab1 n f) = n.
Proof. unfold tab1. rewrite length_map, length_seq. reflexivity. Qed.

Lemma vget_tab1 (n : nat) (f : nat -> T) (i : nat) :
  (i < n)%nat -> vget (tab1 n f) i = f i.
Proof.
  intros Hi. unfold vget, tab1.
  rewrite (nth_indep _ s0 (f 0%nat)) by (rewrite length_map, length_seq; lia).
  rewrite (map_nth f), seq_nth by lia. reflexivity.
Qed.

Lemma tab1_ext (n : nat) (f g : nat -> T) :
  (forall i, (i < n)%nat -> f i = g i) -> tab1 n f = tab1 n g.
Proof.
  intros Hfg. unfold tab1. apply map_ext_in. intros i Hi.
  apply in_seq in Hi. apply Hfg. lia.
Qed.

Lemma tab1_vget (v : list T) : tab1 (length v) (vget v) = v.
Proof.
  unfold tab1, vget. apply nth_ext with (d := s0) (d' := s0).
  - rewrite length_map, length_seq. reflexivity.
  - intros i Hi. rewrite length_map, length_seq in Hi.
    rewrite (nth_indep _ s0 (nth 0 v s0)) by (rewrite length_map, length_seq; lia).
    rewrite (map_nth (fun i => nth i v s0)), seq_nth by lia. reflexivity.
Qed.

Lemma get_tab2 (r c : nat) (f : nat -> nat -> T) (i j : nat) :
  (i < r)%nat -> (j < c)%nat -> get (tab2 r c f) i j = f i j.
Proof.
  intros Hi Hj. unfold get, tab2. simpl.
  rewrite (nth_indep _ [] (map (fun j => f 0%nat j) (seq 0 c)))
    by (rewrite length_map, length_seq; lia).
  rewrite (map_nth (fun i => map (fun j => f i j) (seq 0 c))), seq_nth by lia.
  simpl. apply (vget_tab1 c (f i) j Hj).
Qed.

Lemma tab2_ext (r c : nat) (f g : nat -> nat -> T) :
  (forall i j, (i < r)%nat -> (j < c)%nat -> f i j = g i j) ->
  tab2 r c f = tab2 r c g.
Proof.
  intros Hfg. unfold tab2. f_equal.
  apply map_ext_in. intros i Hi. apply in_seq in Hi.
  apply map_ext_in. intros j Hj. apply in_seq in Hj.
  apply Hfg; lia.
Qed.

Lemma wf_tab2 (r c : nat) (f : nat -> nat -> T) : wf (tab2 r c f).
Proof.
  unfold wf, tab2. simpl. split.
  - rewrite length_map, length_seq. reflexivity.
  - apply Forall_forall. intros row Hrow. apply in_map_iff in Hrow.
    destruct Hrow as [i [<- _]]. rewrite length_map, length_seq. reflexivity.
Qed.

(** A well-formed array is the table of its entries. *)
Lemma tab2_get (m : matrix T) :
  wf m -> tab2 (nrows m) (ncols m) (get m) = m.
Proof.
  destruct m as [r c rs]. unfold wf, tab2, get. simpl. intros [Hlen Hrows].
  f_equal. apply nth_ext with (d := []) (d' := []).
  - rewrite length_map, length_seq. symmetry. exact Hlen.
  - intros i Hi. rewrite length_map, length_seq in Hi.
    rewrite (nth_indep _ [] (map (fun j => nth j (nth 0 rs []) s0) (seq 0 c)))
      by (rewrite length_map, length_seq; lia).
    rewrite (map_nth (fun i => map (fun j => nth j (nth i rs []) s0) (seq 0 c))).
    rewrite seq_nth by lia. simpl.
    assert (Hl : length (nth i rs []) = c).
    { rewrite Forall_forall in Hrows. apply Hrows. apply nth_In. lia. }
    rewrite <- Hl. apply (tab1_vget (nth i rs [])).
Qed.

Lemma mat_ext (a b : matrix T) :
  wf a -> wf b -> nrows a = nrows b -> ncols a = ncols b ->
  (forall i j, (i < nrows a)%nat -> (j < ncols a)%nat -> get a i j = get b i j) ->
  a = b.
Proof.
  intros Ha Hb Hr Hc Hget.
  rewrite <- (tab2_get a Ha), <- (tab2_get b Hb), <- Hr, <- Hc.
  apply tab2_ext. exact Hget.
Qed.

Lemma wf_mmap (f : T -> T) (a : matrix T) : wf a -> wf (mmap f a).
Proof.
  unfold wf, mmap. simpl. intros [Hl Hr]. split.
  - rewrite length_map. exact Hl.
  - apply Forall_forall. intros row Hrow. apply in_map_iff in Hrow.
    destruct Hrow as [r0 [<- Hin]]. rewrite length_map.
    rewrite Forall_forall in Hr. apply Hr. exact Hin.
Qed.

Lemma get_mmap (f : T -> T) (a : matrix T) (i j : nat) :
  wf a -> (i < nrows a)%nat -> (j < ncols a)%nat ->
  get (mmap f a) i j = f (get a i j).
Proof.
  intros [Hl Hr] Hi Hj. unfold get, mmap. simpl.
  rewrite (nth_indep _ [] (map f [])) by (rewrite length_map; lia).
  rewrite (map_nth (map f)).
  assert (Hrow : length (nth i (rows a) []) = ncols a).
  { rewrite Forall_forall in Hr. apply Hr. apply nth_In. lia. }
  rewrite (nth_indep _ s0 (f s0)) by (rewrite length_map; lia).
  apply (map_nth f).
Qed.

Lemma get_eye (n i j : nat) :
  (i < n)%nat -> (j < n)%nat ->
  get (eye n) i j = if (i =? j)%nat then s1 else s0.
Proof. intros. unfold eye. rewrite get_tab2 by assumption. reflexivity. Qed.

Lemma get_mat_mul (a b : matrix T) (i j : nat) :
  (i < nrows a)%nat -> (j < ncols b)%nat ->
  get (mat_mul a b) i j = bigsum (ncols a) (fun k => smul (get a i k) (get b k j)).
Proof. intros. unfold mat_mul. rewrite get_tab2 by assumption. reflexivity. Qed.

Lemma mat_mul_eye_r (a : matrix T) :
  wf a -> mat_mul a (eye (ncols a)) = a.
Proof.
  intros Ha. rewrite <- (tab2_get a Ha) at 3. unfold mat_mul. simpl.
  apply tab2_ext. intros i j Hi Hj.
  rewrite (bigsum_single (ncols a) j).
  - rewrite get_eye, Nat.eqb_refl by assumption. ring.
  - assumption.
  - intros k Hk Hne. rewrite get_eye by assumption.
    destruct (Nat.eqb_spec k j); [contradiction|ring].
Qed.

Lemma mat_mul_eye_l (a : matrix T) :
  wf a -> mat_mul (eye (nrows a)) a = a.
Proof.
  intros Ha. rewrite <- (tab2_get a Ha) at 3. unfold mat_mul. simpl.
  apply tab2_ext. intros i j Hi Hj.
  rewrite (bigsum_single (nrows a) i).
  - rewrite get_eye, Nat.eqb_refl by assumption. ring.
  - assumption.
  - intros k Hk Hne. rewrite get_eye by assumption.
    destruct (Nat.eqb_spec i k); [congruence|ring].
Qed.

Lemma mat_mul_assoc (a b c : matrix T) :
  ncols a = nrows b -> ncols b = nrows c ->
  mat_mul (mat_mul a b) c = mat_mul a (mat_mul b c).
Proof.
  intros Hab Hbc. unfold mat_mul at 1 3. simpl.
  apply tab2_ext. intros i j Hi Hj.
  rewrite (bigsum_ext (ncols b) _
    (fun k => bigsum (ncols a) (fun l => smul (smul (get a i l) (get b l k)) (get c k j)))).
  2:{ intros k Hk. rewrite get_mat_mul by assumption.
      rewrite <- bigsum_scal_r. reflexivity. }
  rewrite bigsum_swap. apply bigsum_ext. intros l Hl.
  rewrite get_mat_mul by (try assumption; lia).
  rewrite <- bigsum_scal_l. apply bigsum_ext. intros k Hk. ring.
Qed.

(** Terms past index [l] that are zeroed do not count. *)
Lemma bigsum_trunc (n l : nat) (g : nat -> T) :
  (l < n)%nat ->
  bigsum n (fun m => if (m <=? l)%nat then g m else s0) = bigsum (S l) g.
Proof.
  induction n as [|n IH]; intros Hl; [lia|].
  rewrite bigsum_S.
  destruct (Nat.eq_dec l n) as [->|Hne].
  - rewrite Nat.leb_refl, (bigsum_S n g). f_equal.
    apply bigsum_ext. intros i Hi.
    destruct (Nat.leb_spec i n); [reflexivity|lia].
  - rewrite IH by lia.
    destruct (Nat.leb_spec n l); [lia|ring].
Qed.

Lemma firstn_tab1 (n m : nat) (f : nat -> T) :
  (n <= m)%nat -> firstn n (tab1 m f) = tab1 n f.
Proof.
  intros Hnm. unfold tab1. rewrite firstn_map. f_equal.
  replace m with (n + (m - n))%nat by lia.
  rewrite seq_app, firstn_app, length_seq, Nat.sub_diag. simpl.
  rewrite app_nil_r. pose proof (firstn_all (seq 0 n)) as Hall.
  rewrite length_seq in Hall. exact Hall.
Qed.

Lemma bigsum_sub (n : nat) (f g : nat -> T) :
  bigsum n (fun i => ssub (f i) (g i)) = ssub (bigsum n f) (bigsum n g).
Proof.
  induction n as [|n IH].
  - rewrite !bigsum_0. ring.
  - rewrite !bigsum_S, IH. ring.
Qed.

Lemma mmap_tab2 (f : T -> T) (r c : nat) (g : nat -> nat -> T) :
  mmap f (tab2 r c g) = tab2 r c (fun i j => f (g i j)).
Proof.
  unfold mmap, tab2. simpl. f_equal. rewrite map_map.
  apply map_ext. intros i. apply map_map.
Qed.

Lemma mat_mul_sub_r (a b c : matrix T) :
  ncols a = nrows b -> nrows b = nrows c -> ncols b = ncols c ->
  mat_mul a (mzip ssub b c) = mzip ssub (mat_mul a b) (mat_mul a c).
Proof.
  intros Hab Hr Hc. unfold mat_mul, mzip. simpl.
  apply tab2_ext. intros i j Hi Hj.
  rewrite !get_tab2 by (try assumption; lia).
  rewrite <- bigsum_sub. apply bigsum_ext. intros k Hk.
  rewrite get_tab2 by (try assumption; lia). ring.
Qed.

Lemma mat_mul_scal_r (s : T) (a b : matrix T) :
  wf b -> ncols a = nrows b ->
  mat_mul a (mmap (smul s) b) = mmap (smul s) (mat_mul a b).
Proof.
  intros Hb Hab. unfold mat_mul at 2. rewrite mmap_tab2.
  unfold mat_mul. simpl. apply tab2_ext. intros i j Hi Hj.
  rewrite <- bigsum_scal_l. apply bigsum_ext. intros k Hk.
  rewrite get_mmap by (try assumption; lia). ring.
Qed.

Lemma mat_mul_scal_swap (s : T) (m b : matrix T) :
  wf m -> wf b -> ncols m = nrows b ->
  mat_mul (mmap (fun x => smul x s) m) b = mat_mul m (mmap (smul s) b).
Proof.
  intros Hm Hb Hmb. unfold mat_mul. simpl. apply tab2_ext. intros i j Hi Hj.
  apply bigsum_ext. intros k Hk.
  rewrite !get_mmap by (try assumption; lia). ring.
Qed.

Lemma get_mzip (f : T -> T -> T) (a b : matrix T) (i j : nat) :
  (i < nrows a)%nat -> (j < ncols a)%nat ->
  get (mzip f a b) i j = f (get a i j) (get b i j).
Proof. intros Hi Hj. unfold mzip. rewrite get_tab2 by assumption. reflexivity. Qed.

Lemma mat_pow_shape (a : matrix T) (l : nat) :
  nrows a = ncols a ->
  wf (mat_pow a l) /\ nrows (mat_pow a l) = nrows a /\ ncols (mat_pow a l) = nrows a.
Proof.
  intros Hsq. induction l as [|l IH].
  - simpl. split; [apply wf_tab2|]. split; reflexivity.
  - simpl. split; [apply wf_tab2|]. split; [reflexivity|]. apply IH.
Qed.

Lemma mat_pow_comm (a : matrix T) (l : nat) :
  wf a -> nrows a = ncols a ->
  mat_mul (mat_pow a l) a = mat_mul a (mat_pow a l).
Proof.
  intros Ha Hsq. induction l as [|l IH].
  - simpl. rewrite (mat_mul_eye_l a Ha). rewrite Hsq. symmetry.
    apply mat_mul_eye_r. exact Ha.
  - simpl. destruct (mat_pow_shape a l Hsq) as (_ & Hr & Hc).
    rewrite mat_mul_assoc by congruence. rewrite IH. reflexivity.
Qed.

End ArrayFacts.

(** ** Shapes and broadcasting *)

Lemma bdim_same (n : nat) : bdim n n = Ok n.
Proof. unfold bdim. rewrite Nat.eqb_refl. reflexivity. Qed.

Lemma bidx_lt (n i : nat) : (i < n)%nat -> bidx n i = i.
Proof.
  intros Hi. unfold bidx. destruct (Nat.eqb_spec n 1); [lia|reflexivity].
Qed.

Lemma mbroadcast_same {T : Type} `{ScalarLaws T} (f : T -> T -> T) (a b : matrix T) :
  nrows a = nrows b -> ncols a = ncols b ->
  mbroadcast f a b = Ok (mzip f a b).
Proof.
  intros Hr Hc. unfold mbroadcast, mzip.
  rewrite <- Hr, <- Hc, !bdim_same. simpl. f_equal.
  apply tab2_ext. intros i j Hi Hj. rewrite !bidx_lt by assumption. reflexivity.
Qed.

Lemma vbroadcast_same {T : Type} `{ScalarLaws T} (f : T -> T -> T) (u v : list T) :
  length u = length v ->
  vbroadcast f u v = Ok (tab1 (length u) (fun i => f (vget u i) (vget v i))).
Proof.
  intros Hl. unfold vbroadcast. rewrite <- Hl, bdim_same. simpl. f_equal.
  apply tab1_ext. intros i Hi. rewrite !bidx_lt by assumption. reflexivity.
Qed.

(** ** The library inverse *)

Lemma is_inverse_unique (x m m' : matrix complex) :
  is_inverse x m -> is_inverse x m' -> m = m'.
Proof.
  intros (Hwf & Hr & Hc & Hl & Hrr) (Hwf' & Hr' & Hc' & Hl' & Hrr').
  assert (Hcx : ncols x = nrows x).
  { apply (f_equal ncols) in Hl. simpl in Hl. exact Hl. }
  rewrite <- (mat_mul_eye_r m Hwf), Hc, <- Hrr'.
  rewrite <- mat_mul_assoc by congruence.
  rewrite Hl, <- Hr'. apply mat_mul_eye_l. exact Hwf'.
Qed.

Lemma inv_result_exists (x : matrix complex) : exists m, inv_result x m.
Proof.
  destruct (classic (exists m, is_inverse x m)) as [[m Hm]|Hno].
  - exists m. destruct Hm as (Hwf & Hr & Hc & Hl & Hrr).
    assert (Hcx : ncols x = nrows x).
    { apply (f_equal ncols) in Hl. simpl in Hl. exact Hl. }
    refine (conj Hwf (conj Hr (conj _ _))); [congruence|].
    intros m' Hm'. apply (is_inverse_unique x); [|exact Hm'].
    exact (conj Hwf (conj Hr (conj Hc (conj Hl Hrr)))).
  - exists (tab2 (nrows x) (ncols x) (fun _ _ => C0)).
    refine (conj (wf_tab2 _ _ _) (conj eq_refl (conj eq_refl _))).
    intros m' Hm'. exfalso. apply Hno. exists m'. exact Hm'.
Qed.

(** On a square array the library returns an array of the same shape. *)
Lemma inv_square (x : matrix complex) :
  nrows x = ncols x ->
  exists m, inv x = Ok m /\ inv_result x m.
Proof.
  intros Hsq. unfold inv. rewrite Hsq, Nat.eqb_refl.
  eexists. split; [reflexivity|].
  apply epsilon_spec. apply inv_result_exists.
Qed.

(** On an invertible array the library returns the inverse. *)
Lemma inv_inverse (x m : matrix complex) :
  is_inverse x m -> inv x = Ok m.
Proof.
  intros Hm.
  assert (Hsq : nrows x = ncols x).
  { destruct Hm as (_ & _ & _ & Hl & _).
    apply (f_equal ncols) in Hl. simpl in Hl. congruence. }
  destruct (inv_square x Hsq) as [m0 [Hinv (_ & _ & _ & Huniq)]].
  rewrite Hinv. f_equal. apply Huniq. exact Hm.
Qed.

(** ** The discretizer *)

(** On a square [A] only the last product can raise. *)
Lemma discretize_steps (N : nat) (A B C : matrix complex) (step : R) :
  has_shape A N N ->
  exists BL,
    inv (bilinear_minus A step) = Ok BL /\
    inv_result (bilinear_minus A step) BL /\
    discretize A B C step =
      (Bbar <- matmul (mscale BL step) B ;;
       Ok (mat_mul BL (bilinear_plus A step), Bbar, C)).
Proof.
  intros (HwfA & HrA & HcA).
  assert (Hsq : nrows (bilinear_minus A step) = ncols (bilinear_minus A step))
    by reflexivity.
  destruct (inv_square _ Hsq) as [BL [Hinv Hres]].
  exists BL. split; [exact Hinv|]. split; [exact Hres|].
  unfold discretize.
  rewrite (mbroadcast_same Csub), (mbroadcast_same Cadd)
    by (simpl; congruence).
  fold (bilinear_minus A step). fold (bilinear_plus A step).
  simpl. rewrite Hinv. simpl.
  destruct Hres as (_ & _ & HcBL & _).
  unfold matmul at 1. rewrite HcBL. simpl. rewrite Nat.eqb_refl. reflexivity.
Qed.

(** The triple returned when [I - (step/2) A] has the inverse [M]. *)
Lemma discretize_value (N : nat) (A B C M : matrix complex) (step : R) :
  has_shape A N N -> nrows B = N ->
  is_inverse (bilinear_minus A step) M ->
  discretize A B C step =
    Ok (mat_mul M (bilinear_plus A step), mat_mul (mscale M step) B, C).
Proof.
  intros HA HrB HM.
  destruct (discretize_steps N A B C step HA) as [BL (Hinv & _ & Hd)].
  rewrite (inv_inverse _ _ HM) in Hinv. injection Hinv as <-.
  rewrite Hd. unfold matmul.
  destruct HM as (_ & _ & HcM & _). destruct HA as (_ & HrA & _).
  simpl. simpl in HcM. rewrite HcM, HrA, HrB, Nat.eqb_refl. reflexivity.
Qed.

(** C4: when [I - (step/2) A] has the inverse [M], [discretize] returns
    [(M (I + (step/2) A), (M * step) B, C)], with [C] untouched. *)
Theorem discretize_bilinear (N : nat) (A B C M : matrix complex) (step : R) :
  has_shape A N N -> has_shape B N 1 -> has_shape C 1 N ->
  is_inverse (bilinear_minus A step) M ->
  discretize A B C step =
    Ok (mat_mul M (bilinear_plus A step), mat_mul (mscale M step) B, C).
Proof.
  intros HA (_ & HrB & _) _ HM.
  exact (discretize_value N A B C M step HA HrB HM).
Qed.

(** The outcome of the run is that of [discretize]. *)
Lemma discretize_run_outcome (A B C : matrix complex) (step : R) :
  snd (discretize_run A B C step) = discretize A B C step.
Proof.
  unfold discretize_run, discretize, run_line. cbn [bind fst snd].
  destruct (mbroadcast Csub (eye (nrows A)) _) as [X|]; [|reflexivity]. cbn [bind].
  destruct (inv X) as [BL|]; [|reflexivity]. cbn [bind fst snd].
  destruct (mbroadcast Cadd (eye (nrows A)) _) as [Y|]; [|reflexivity]. cbn [bind].
  destruct (matmul BL Y) as [Abar|]; [|reflexivity]. cbn [bind fst snd].
  destruct (matmul (mscale BL step) B) as [Bbar|]; reflexivity.
Qed.

(** With a square [A] and a [B] of another number of rows, lines 93 to
    95 complete and the product of line 96 raises. *)
Lemma discretize_run_mismatch (N M : nat) (A B C : matrix complex) (step : R) :
  has_shape A N N -> has_shape B M 1 -> M <> N ->
  discretize_run A B C step = ([line93; line94; line95], Raise ShapeError).
Proof.
  intros (HwfA & HrA & HcA) (_ & HrB & _) Hne.
  assert (Hsq : nrows (bilinear_minus A step) = ncols (bilinear_minus A step))
    by reflexivity.
  destruct (inv_square _ Hsq) as [BL [Hinv Hres]].
  destruct Hres as (_ & _ & HcBL & _). simpl in HcBL.
  assert (E95 : matmul BL (bilinear_plus A step) = Ok (mat_mul BL (bilinear_plus A step))).
  { unfold matmul. rewrite HcBL. simpl. rewrite Nat.eqb_refl. reflexivity. }
  assert (E96 : matmul (mscale BL step) B = Raise ShapeError).
  { unfold matmul. simpl. rewrite HcBL, HrA, HrB.
    destruct (Nat.eqb_spec N M); [congruence|reflexivity]. }
  unfold discretize_run, run_line.
  rewrite (mbroadcast_same Csub), (mbroadcast_same Cadd) by (simpl; congruence).
  fold (bilinear_minus A step). fold (bilinear_plus A step).
  cbn [bind]. rewrite Hinv, E95, E96. reflexivity.
Qed.

(** C9, as the code has it: a square [A] of size [N] with a [B] of
    [M <> N] rows makes [discretize] raise a shape error, and no triple
    is returned; the error is not raised at entry: lines 93 to 95 (the
    identity, the inverse and [Abar]) complete first, and the product
    [(BL * step) @ B] of line 96 raises. *)
Theorem discretize_dimension_mismatch (N M : nat) (A B C : matrix complex) (step : R) :
  has_shape A N N -> has_shape B M 1 -> M <> N ->
  discretize_run A B C step = ([line93; line94; line95], Raise ShapeError) /\
  discretize A B C step = Raise ShapeError.
Proof.
  intros HA HB Hne.
  pose proof (discretize_run_mismatch N M A B C step HA HB Hne) as Hrun.
  split; [exact Hrun|].
  rewrite <- discretize_run_outcome, Hrun. reflexivity.
Qed.

(** C7, as the code has it: [discretize] makes no singularity check.  On
    operands of matching shapes it returns a triple built from whatever
    the library inversion hands back, also when [I - (step/2) A] has no
    inverse. *)
Theorem discretize_singular_unchecked (N : nat) (A B C : matrix complex) (step : R) :
  has_shape A N N -> has_shape B N 1 -> has_shape C 1 N ->
  (forall M, ~ is_inverse (bilinear_minus A step) M) ->
  exists BL,
    inv (bilinear_minus A step) = Ok BL /\
    discretize A B C step =
      Ok (mat_mul BL (bilinear_plus A step), mat_mul (mscale BL step) B, C).
Proof.
  intros HA HB HC _.
  destruct (discretize_steps N A B C step HA) as [BL (Hinv & Hres & Hd)].
  exists BL. split; [exact Hinv|].
  rewrite Hd. unfold matmul.
  destruct Hres as (_ & _ & HcBL & _). destruct HB as (_ & HrB & _).
  destruct HA as (_ & HrA & _).
  simpl. simpl in HcBL. rewrite HcBL, HrA, HrB, Nat.eqb_refl. reflexivity.
Qed.

Lemma has_shape_1x1 {T : Type} (a : T) : has_shape (Mat 1 1 [[a]]) 1 1.
Proof.
  split; [|split; reflexivity]. split; [reflexivity|]. repeat constructor.
Qed.

Lemma ex_M_inverse : is_inverse (bilinear_minus ex_A 1) ex_M.
Proof.
  split; [apply (has_shape_1x1 (RtoC (1 / 2)))|].
  split; [reflexivity|]. split; [reflexivity|].
  split; unfold mat_mul, eye, tab2, bigsum, get; simpl; repeat f_equal;
    apply complex_eq; simpl; lra.
Qed.

Lemma ex_A_singular_no_inverse (M : matrix complex) :
  ~ is_inverse (bilinear_minus ex_A_singular 1) M.
Proof.
  intros (_ & Hr & Hc & Hl & _). simpl in Hr, Hc.
  apply (f_equal (fun m => re (get m 0 0))) in Hl.
  rewrite get_mat_mul in Hl by (simpl; lia).
  rewrite Hc in Hl. unfold bigsum, eye, tab2, get in Hl. simpl in Hl. lra.
Qed.

Lemma discretize_bilinear_witness :
  discretize ex_A ex_B ex_C 1 =
    Ok (mat_mul ex_M (bilinear_plus ex_A 1), mat_mul (mscale ex_M 1) ex_B, ex_C).
Proof.
  apply (discretize_bilinear 1 ex_A ex_B ex_C ex_M 1).
  - apply has_shape_1x1.
  - apply has_shape_1x1.
  - apply has_shape_1x1.
  - exact ex_M_inverse.
Defined.

Lemma ex_B_tall_shape : has_shape ex_B_tall 2 1.
Proof. split; [|split; reflexivity]. split; [reflexivity|]. repeat constructor. Qed.

Lemma discretize_dimension_mismatch_witness :
  discretize_run ex_A ex_B_tall ex_C 1 = ([line93; line94; line95], Raise ShapeError) /\
  discretize ex_A ex_B_tall ex_C 1 = Raise ShapeError.
Proof.
  apply (discretize_dimension_mismatch 1 2 ex_A ex_B_tall ex_C 1).
  - apply has_shape_1x1.
  - exact ex_B_tall_shape.
  - discriminate.
Defined.

(** C9 as stated fails: with [A = [[-2]]] and a [B] of two rows the
    error is not raised at entry to [discretize]. *)
Lemma discretize_mismatch_not_at_entry :
  (has_shape ex_A 1 1 /\ has_shape ex_B_tall 2 1 /\ 2%nat <> 1%nat) /\
  ~ raised_at_entry (discretize_run ex_A ex_B_tall ex_C 1).
Proof.
  split.
  - split; [apply has_shape_1x1|]. split; [exact ex_B_tall_shape|discriminate].
  - rewrite (discretize_run_mismatch 1 2 ex_A ex_B_tall ex_C 1
               (has_shape_1x1 _) ex_B_tall_shape ltac:(discriminate)).
    intros [e He]. discriminate He.
Qed.

Lemma discretize_singular_unchecked_witness :
  exists BL,
    inv (bilinear_minus ex_A_singular 1) = Ok BL /\
    discretize ex_A_singular ex_B ex_C 1 =
      Ok (mat_mul BL (bilinear_plus ex_A_singular 1), mat_mul (mscale BL 1) ex_B, ex_C).
Proof.
  apply (discretize_singular_unchecked 1 ex_A_singular ex_B ex_C 1).
  - apply has_shape_1x1.
  - apply has_shape_1x1.
  - apply has_shape_1x1.
  - exact ex_A_singular_no_inverse.
Defined.

(** C7 as stated fails: [I - (1/2) [[2]]] has no inverse, and
    [discretize] returns a triple all the same. *)
Lemma discretize_singular_no_error :
  (forall M, ~ is_inverse (bilinear_minus ex_A_singular 1) M) /\
  (exists r, discretize ex_A_singular ex_B ex_C 1 = Ok r).
Proof.
  split; [exact ex_A_singular_no_inverse|].
  destruct (discretize_steps 1 ex_A_singular ex_B ex_C 1 (has_shape_1x1 _))
    as [BL (_ & Hres & Hd)].
  rewrite Hd. unfold matmul.
  destruct Hres as (_ & _ & HcBL & _). simpl in HcBL. simpl. rewrite HcBL.
  simpl. eexists. reflexivity.
Qed.

(** ** The sequence transformer *)

(** The output of the layer, entry by entry. *)
Lemma S4Layer_call_entries (K u : list R) (d : R) (L : nat) :
  length K = L -> length u = L -> (0 < L)%nat ->
  S4Layer_call K [d] u =
    Ok (tab1 L (fun l =>
          bigsum (S l) (fun t => vget K t * vget u (l - t)) + d * vget u l)).
Proof.
  intros HK Hu HL. unfold S4Layer_call, nonCircularConvolution, convolve.
  rewrite HK, Hu.
  destruct (Nat.eqb_spec L 0) as [?|_]; [lia|]. simpl.
  rewrite firstn_tab1 by lia.
  unfold vbroadcast at 1. simpl length. rewrite Hu.
  assert (Hb : bdim 1 L = Ok L).
  { unfold bdim. destruct (Nat.eqb_spec 1 L) as [<-|_]; reflexivity. }
  rewrite Hb. simpl.
  unfold vbroadcast. rewrite !tab1_length, bdim_same. simpl. f_equal.
  apply tab1_ext. intros l Hl.
  rewrite !bidx_lt by assumption.
  rewrite !vget_tab1 by assumption.
  transitivity (bigsum (S l) (fun m => vget u m * vget K (l - m)) + d * vget u l).
  { f_equal.
    - exact (bigsum_trunc L l (fun m => vget u m * vget K (l - m)) Hl).
    - rewrite (bidx_lt L l Hl). reflexivity. }
  f_equal. rewrite (bigsum_rev (S l) (fun m => vget u m * vget K (l - m))).
  apply bigsum_ext. intros t Ht.
  replace (S l - 1 - t)%nat with (l - t)%nat by lia.
  replace (l - (l - t))%nat with t by lia.
  apply Rmult_comm.
Qed.

(** C6: for a kernel and an input of one length [L >= 1] and a scalar [D],
    the layer returns [y] of length [L] with
    [y[0] = K[0] u[0] + D u[0]] and
    [y[l] = sum_{t=0}^{l} K[t] u[l-t] + D u[l]] for [0 < l < L]. *)
Theorem S4Layer_call_causal_convolution (K u : list R) (d : R) (L : nat) :
  length K = L -> length u = L -> (0 < L)%nat ->
  exists y,
    S4Layer_call K [d] u = Ok y /\
    length y = L /\
    vget y 0 = vget K 0 * vget u 0 + d * vget u 0 /\
    forall l, (0 < l < L)%nat ->
      vget y l = bigsum (S l) (fun t => vget K t * vget u (l - t)) + d * vget u l.
Proof.
  intros HK Hu HL.
  eexists. split; [apply (S4Layer_call_entries K u d L HK Hu HL)|].
  split; [apply tab1_length|]. split.
  - rewrite vget_tab1 by assumption. unfold bigsum. simpl. ring.
  - intros l [_ Hl]. rewrite vget_tab1 by assumption. reflexivity.
Qed.

Lemma S4Layer_call_causal_convolution_witness :
  exists y,
    S4Layer_call [1; 2] [5] [3; 4] = Ok y /\
    length y = 2%nat /\
    vget y 0 = vget [1; 2] 0 * vget [3; 4] 0 + 5 * vget [3; 4] 0 /\
    forall l, (0 < l < 2)%nat ->
      vget y l =
        bigsum (S l) (fun t => vget [1; 2] t * vget [3; 4] (l - t)) + 5 * vget [3; 4] l.
Proof.
  apply (S4Layer_call_causal_convolution [1; 2] [3; 4] 5 2).
  - reflexivity.
  - reflexivity.
  - lia.
Defined.

(** ** The HiPPO matrices *)

Lemma nth_map_seq {U : Type} (f : nat -> U) (s n i : nat) (d : U) :
  (i < n)%nat -> nth i (map f (seq s n)) d = f (s + i)%nat.
Proof.
  intros Hi. rewrite (nth_indep _ d (f 0%nat)) by (rewrite length_map, length_seq; lia).
  rewrite (map_nth f), seq_nth by lia. reflexivity.
Qed.

Lemma DPLR_p_length (N : nat) : length (DPLR_p N) = N.
Proof. unfold DPLR_p. rewrite length_map, length_seq. reflexivity. Qed.

Lemma vget_DPLR_p (N i : nat) :
  (i < N)%nat -> vget (DPLR_p N) i = sqrt (INR (2 * (1 + i)) + 1).
Proof.
  intros Hi. unfold vget, DPLR_p. rewrite nth_map_seq by assumption.
  f_equal. lra.
Qed.

Lemma get_DPLR_pq (N i j : nat) :
  (i < N)%nat -> (j < N)%nat ->
  get (DPLR_pq N) i j = vget (DPLR_p N) i * vget (DPLR_p N) j.
Proof.
  intros Hi Hj. unfold DPLR_pq, outer.
  rewrite get_tab2 by (rewrite DPLR_p_length; assumption). reflexivity.
Qed.

Lemma DPLR_hippo_shape (N : nat) : has_shape (DPLR_hippo N) N N.
Proof.
  unfold DPLR_hippo, mzip. split; [apply wf_tab2|].
  simpl. rewrite DPLR_p_length. split; reflexivity.
Qed.

Lemma get_DPLR_hippo (N i j : nat) :
  (i < N)%nat -> (j < N)%nat ->
  get (DPLR_hippo N) i j =
    - (if (j <? i)%nat then vget (DPLR_p N) i * vget (DPLR_p N) j else 0)
    - (if (i =? j)%nat then INR (1 + i + 1) else 0).
Proof.
  intros Hi Hj. unfold DPLR_hippo, mzip.
  rewrite get_tab2 by (simpl; rewrite DPLR_p_length; assumption).
  f_equal.
  - rewrite get_mmap by (try apply wf_tab2; simpl; rewrite DPLR_p_length; assumption).
    f_equal. unfold tril.
    rewrite get_tab2 by (simpl; rewrite DPLR_p_length; assumption).
    rewrite get_DPLR_pq by assumption.
    destruct (Z.leb_spec (Z.of_nat j) (Z.of_nat i + -1)); destruct (Nat.ltb_spec j i);
      try reflexivity; lia.
  - unfold diag.
    rewrite get_tab2 by (rewrite length_map, length_seq; assumption).
    destruct (i =? j)%nat; [|reflexivity].
    unfold vget. rewrite nth_map_seq by assumption. reflexivity.
Qed.

Lemma make_HiPPO_shape (N : nat) : has_shape (make_HiPPO N) N N.
Proof.
  unfold make_HiPPO. split; [|split; reflexivity]. split; simpl.
  - rewrite length_map, length_seq. reflexivity.
  - apply Forall_forall. intros row Hrow. apply in_map_iff in Hrow.
    destruct Hrow as [n [<- _]]. rewrite length_map, length_seq. reflexivity.
Qed.

Lemma get_make_HiPPO (N i j : nat) :
  (i < N)%nat -> (j < N)%nat ->
  get (make_HiPPO N) i j =
    if (j <? i)%nat
    then sqrt (INR (2 * (1 + i) + 1)) * sqrt (INR (2 * (1 + j) + 1))
    else if (i =? j)%nat then INR (1 + i + 1) else 0.
Proof.
  intros Hi Hj. unfold get, make_HiPPO. simpl rows.
  rewrite (nth_map_seq _ 1 N i) by assumption.
  rewrite (nth_map_seq _ 1 N j) by assumption.
  reflexivity.
Qed.

Lemma INR_odd (n : nat) : INR (2 * n + 1) = INR (2 * n) + 1.
Proof. rewrite plus_INR. simpl. reflexivity. Qed.

(** [make_HiPPO] is the negation of the [hippo] local of [make_DPLR_HiPPO]. *)
Lemma make_HiPPO_neg_hippo (N : nat) :
  make_HiPPO N = mmap Ropp (DPLR_hippo N).
Proof.
  destruct (make_HiPPO_shape N) as (Hwf & Hr & Hc).
  destruct (DPLR_hippo_shape N) as (Hwf' & Hr' & Hc').
  apply mat_ext; try assumption.
  - apply wf_mmap. exact Hwf'.
  - simpl. rewrite DPLR_p_length. reflexivity.
  - simpl. rewrite DPLR_p_length. reflexivity.
  - rewrite Hr, Hc. intros i j Hi Hj.
    rewrite get_mmap by (try assumption; lia).
    rewrite get_make_HiPPO, get_DPLR_hippo by assumption.
    rewrite !vget_DPLR_p by assumption. rewrite !INR_odd.
    destruct (j <? i)%nat eqn:Hji; destruct (i =? j)%nat eqn:Hij; try lra.
    apply Nat.ltb_lt in Hji. apply Nat.eqb_eq in Hij. lia.
Qed.

(** The first non-zero entry of a non-zero vector. *)
Lemma first_nonzero (v : list complex) (n : nat) :
  (exists i, (i < n)%nat /\ vget v i <> C0) ->
  exists i, (i < n)%nat /\ vget v i <> C0 /\ forall j, (j < i)%nat -> vget v j = C0.
Proof.
  induction n as [|n IH]; intros [i [Hi Hv]]; [lia|].
  destruct (classic (exists k, (k < n)%nat /\ vget v k <> C0)) as [Hex|Hno].
  - destruct (IH Hex) as [k (Hk & Hvk & Hmin)].
    exists k. split; [lia|]. split; assumption.
  - assert (Hin : i = n).
    { destruct (Nat.eq_dec i n) as [|Hne]; [assumption|].
      exfalso. apply Hno. exists i. split; [lia|assumption]. }
    subst i. exists n. split; [lia|]. split; [assumption|].
    intros j Hj. destruct (complex_eq_dec (vget v j) C0) as [|Hnz]; [assumption|].
    exfalso. apply Hno. exists j. split; assumption.
Qed.

(** The eigenvalues of [make_HiPPO(N)] are its diagonal entries [2 .. N+1]. *)
Lemma make_HiPPO_eigenvalue (N : nat) (lam : complex) (v : list complex) :
  eigenpair (make_HiPPO N) lam v ->
  exists i, (i < N)%nat /\ lam = RtoC (INR (1 + i + 1)).
Proof.
  intros (_ & Hnz & Heq). simpl in Hnz, Heq.
  destruct (first_nonzero v N Hnz) as [i (Hi & Hvi & Hmin)].
  exists i. split; [assumption|].
  specialize (Heq i Hi).
  rewrite (bigsum_single N i) in Heq.
  - rewrite get_make_HiPPO, Nat.ltb_irrefl, Nat.eqb_refl in Heq by assumption.
    assert (Hz : ((lam - RtoC (INR (1 + i + 1))) * vget v i)%C = C0).
    { replace ((lam - RtoC (INR (1 + i + 1))) * vget v i)%C
        with (lam * vget v i - RtoC (INR (1 + i + 1)) * vget v i)%C by ring.
      rewrite <- Heq. ring. }
    apply Cmul_integral in Hz. destruct Hz as [Hz|Hz]; [|contradiction].
    replace lam with ((lam - RtoC (INR (1 + i + 1))) + RtoC (INR (1 + i + 1)))%C by ring.
    rewrite Hz. ring.
  - assumption.
  - intros j Hj Hne. change (@s0 complex C_scalar) with C0.
    destruct (Nat.lt_ge_cases j i) as [Hlt|Hge].
    + rewrite (Hmin j Hlt). ring.
    + rewrite get_make_HiPPO by assumption.
      destruct (Nat.ltb_spec j i); [lia|].
      destruct (Nat.eqb_spec i j); [lia|].
      change (RtoC 0) with C0. ring.
Qed.

(** C10: [make_HiPPO(N)], the matrix [NaiveSSMInit(N)] passes on, is the
    negation of the [hippo] matrix of [make_DPLR_HiPPO(N)], and each of its
    eigenvalues has a positive real part. *)
Theorem make_HiPPO_negates_DPLR_hippo (N : nat) :
  (1 <= N)%nat ->
  make_HiPPO N = mmap Ropp (DPLR_hippo_of (make_DPLR_HiPPO N)) /\
  NaiveSSMInit N = mmap Ropp (DPLR_hippo_of (make_DPLR_HiPPO N)) /\
  forall lam v, eigenpair (NaiveSSMInit N) lam v -> 0 < re lam.
Proof.
  intros _.
  assert (Hh : DPLR_hippo_of (make_DPLR_HiPPO N) = DPLR_hippo N).
  { unfold make_DPLR_HiPPO. destruct (eig_cpu (DPLR_S N)). reflexivity. }
  rewrite Hh. unfold NaiveSSMInit.
  split; [apply make_HiPPO_neg_hippo|]. split; [apply make_HiPPO_neg_hippo|].
  intros lam v Hev.
  destruct (make_HiPPO_eigenvalue N lam v Hev) as [i [_ ->]].
  unfold RtoC, re. apply lt_0_INR. lia.
Qed.

Lemma make_HiPPO_negates_DPLR_hippo_witness :
  make_HiPPO 1 = mmap Ropp (DPLR_hippo_of (make_DPLR_HiPPO 1)) /\
  NaiveSSMInit 1 = mmap Ropp (DPLR_hippo_of (make_DPLR_HiPPO 1)) /\
  forall lam v, eigenpair (NaiveSSMInit 1) lam v -> 0 < re lam.
Proof.
  apply (make_HiPPO_negates_DPLR_hippo 1). lia.
Defined.

(** ** Real and complex sums *)

Ltac scalar_ops := cbn [s0 s1 sadd smul ssub sopp R_scalar C_scalar] in *.

Lemma re_bigsum (n : nat) (f : nat -> complex) :
  re (bigsum n f) = bigsum n (fun i => re (f i)).
Proof.
  induction n as [|n IH].
  - reflexivity.
  - rewrite !bigsum_S. scalar_ops. simpl. rewrite IH. reflexivity.
Qed.

Lemma im_bigsum (n : nat) (f : nat -> complex) :
  im (bigsum n f) = bigsum n (fun i => im (f i)).
Proof.
  induction n as [|n IH].
  - reflexivity.
  - rewrite !bigsum_S. scalar_ops. simpl. rewrite IH. reflexivity.
Qed.

Lemma bigsum_opp (n : nat) (f : nat -> R) :
  bigsum n (fun i => - f i) = - bigsum n f.
Proof.
  induction n as [|n IH].
  - rewrite !bigsum_0. scalar_ops. lra.
  - rewrite !bigsum_S, IH. scalar_ops. lra.
Qed.

Lemma bigsum_nonneg (n : nat) (f : nat -> R) :
  (forall i, (i < n)%nat -> 0 <= f i) -> 0 <= bigsum n f.
Proof.
  induction n as [|n IH]; intros Hf.
  - rewrite bigsum_0. scalar_ops. lra.
  - rewrite bigsum_S. scalar_ops.
    assert (0 <= bigsum n f) by (apply IH; intros; apply Hf; lia).
    assert (0 <= f n) by (apply Hf; lia). lra.
Qed.

Lemma bigsum_ge_term (n k : nat) (f : nat -> R) :
  (forall i, (i < n)%nat -> 0 <= f i) -> (k < n)%nat -> f k <= bigsum n f.
Proof.
  induction n as [|n IH]; intros Hf Hk; [lia|].
  rewrite bigsum_S. scalar_ops.
  assert (Hn : 0 <= f n) by (apply Hf; lia).
  assert (Hs : 0 <= bigsum n f) by (apply bigsum_nonneg; intros; apply Hf; lia).
  destruct (Nat.eq_dec k n) as [->|Hne].
  - lra.
  - assert (f k <= bigsum n f) by (apply IH; [intros; apply Hf|]; lia). lra.
Qed.

(** The quadratic form of a skew-symmetric matrix vanishes. *)
Lemma skew_form_zero (n : nat) (s : nat -> nat -> R) (x : nat -> R) :
  (forall i j, (i < n)%nat -> (j < n)%nat -> s i j = - s j i) ->
  bigsum n (fun i => x i * bigsum n (fun j => s i j * x j)) = 0.
Proof.
  intros Hskew.
  set (Q := bigsum n (fun i => bigsum n (fun j => x i * (s i j * x j)))).
  assert (H1 : bigsum n (fun i => x i * bigsum n (fun j => s i j * x j)) = Q).
  { apply bigsum_ext. intros i Hi.
    symmetry. exact (bigsum_scal_l n (x i) (fun j => s i j * x j)). }
  assert (H2 : Q = - Q).
  { unfold Q.
    transitivity (bigsum n (fun j => bigsum n (fun i => x i * (s i j * x j)))).
    { exact (bigsum_swap n n (fun i j => x i * (s i j * x j))). }
    rewrite <- (bigsum_opp n). apply bigsum_ext. intros i Hi. cbv beta.
    rewrite <- (bigsum_opp n). apply bigsum_ext. intros j Hj. cbv beta.
    rewrite (Hskew j i Hj Hi). ring. }
  rewrite H1. lra.
Qed.

(** ** The DPLR factorizer *)

Lemma DPLR_S_shape (N : nat) : has_shape (DPLR_S N) N N.
Proof.
  unfold DPLR_S, mzip. split; [apply wf_tab2|].
  simpl. rewrite DPLR_p_length. split; reflexivity.
Qed.

Lemma get_DPLR_S (N i j : nat) :
  (i < N)%nat -> (j < N)%nat ->
  get (DPLR_S N) i j =
    get (DPLR_hippo N) i j +
    (0.5 * (vget (DPLR_p N) i * vget (DPLR_p N) j) +
     0.5 * (if (i =? j)%nat then 1 else 0)).
Proof.
  intros Hi Hj. unfold DPLR_S, mzip.
  rewrite get_tab2 by (simpl; rewrite DPLR_p_length; assumption).
  f_equal.
  rewrite get_tab2 by (simpl; rewrite DPLR_p_length; assumption).
  rewrite !get_mmap
    by (try apply wf_tab2; simpl; rewrite ?DPLR_p_length; assumption).
  rewrite get_DPLR_pq, get_eye by assumption. reflexivity.
Qed.

Lemma DPLR_p_square (N i : nat) :
  (i < N)%nat -> vget (DPLR_p N) i * vget (DPLR_p N) i = 2 * INR i + 3.
Proof.
  intros Hi. rewrite vget_DPLR_p by assumption.
  rewrite sqrt_sqrt.
  - rewrite mult_INR, plus_INR. simpl. lra.
  - pose proof (pos_INR (2 * (1 + i))). lra.
Qed.

(** The matrix [S] handed to [eig_cpu] is skew-symmetric. *)
Lemma DPLR_S_skew (N i j : nat) :
  (i < N)%nat -> (j < N)%nat ->
  get (DPLR_S N) i j = - get (DPLR_S N) j i.
Proof.
  intros Hi Hj. rewrite !get_DPLR_S, !get_DPLR_hippo by assumption.
  destruct (Nat.lt_trichotomy i j) as [Hlt|[Heq|Hgt]].
  - destruct (Nat.ltb_spec j i); [lia|]. destruct (Nat.ltb_spec i j); [|lia].
    destruct (Nat.eqb_spec i j); [lia|]. destruct (Nat.eqb_spec j i); [lia|]. lra.
  - subst j. rewrite Nat.ltb_irrefl, Nat.eqb_refl.
    rewrite (DPLR_p_square N i Hi).
    rewrite !plus_INR. simpl. lra.
  - destruct (Nat.ltb_spec j i); [|lia]. destruct (Nat.ltb_spec i j); [lia|].
    destruct (Nat.eqb_spec i j); [lia|]. destruct (Nat.eqb_spec j i); [lia|]. lra.
Qed.

(** An eigenvalue of a real skew-symmetric matrix has no real part. *)
Lemma skew_eigenvalue_imaginary (s : matrix R) (n : nat) (lam : complex)
    (v : list complex) :
  nrows s = n -> ncols s = n ->
  (forall i j, (i < n)%nat -> (j < n)%nat -> get s i j = - get s j i) ->
  eigenpair s lam v -> re lam = 0.
Proof.
  intros Hr Hc Hskew (_ & [k [Hk Hvk]] & Heq).
  rewrite Hr in Hk, Heq. rewrite Hc in Heq.
  set (a := fun i => re (vget v i)). set (b := fun i => im (vget v i)).
  assert (Hre : forall i, (i < n)%nat ->
            bigsum n (fun j => get s i j * a j) = re lam * a i - im lam * b i).
  { intros i Hi. pose proof (f_equal re (Heq i Hi)) as E.
    rewrite re_bigsum in E. simpl in E. fold (a i) in E. fold (b i) in E.
    rewrite <- E. apply bigsum_ext. intros j _. unfold a. ring. }
  assert (Him : forall i, (i < n)%nat ->
            bigsum n (fun j => get s i j * b j) = re lam * b i + im lam * a i).
  { intros i Hi. pose proof (f_equal im (Heq i Hi)) as E.
    rewrite im_bigsum in E. simpl in E. fold (a i) in E. fold (b i) in E.
    rewrite <- E. apply bigsum_ext. intros j _. unfold a, b. ring. }
  pose proof (skew_form_zero n (get s) a Hskew) as Qa.
  pose proof (skew_form_zero n (get s) b Hskew) as Qb.
  rewrite (bigsum_ext n _ (fun i => a i * (re lam * a i - im lam * b i))) in Qa
    by (intros i Hi; rewrite (Hre i Hi); reflexivity).
  rewrite (bigsum_ext n _ (fun i => b i * (re lam * b i + im lam * a i))) in Qb
    by (intros i Hi; rewrite (Him i Hi); reflexivity).
  assert (Hsum : re lam * bigsum n (fun i => a i * a i + b i * b i) = 0).
  { transitivity (bigsum n (fun i => a i * (re lam * a i - im lam * b i))
                  + bigsum n (fun i => b i * (re lam * b i + im lam * a i))).
    - pose proof (bigsum_scal_l n (re lam) (fun i => a i * a i + b i * b i)) as E1.
      pose proof (bigsum_add n (fun i => a i * (re lam * a i - im lam * b i))
                               (fun i => b i * (re lam * b i + im lam * a i))) as E2.
      scalar_ops. rewrite <- E1, <- E2.
      apply bigsum_ext. intros i _. ring.
    - rewrite Qa, Qb. lra. }
  assert (Hpos : 0 < bigsum n (fun i => a i * a i + b i * b i)).
  { assert (Hk0 : 0 < a k * a k + b k * b k).
    { apply (Cnorm2_pos (vget v k) Hvk). }
    pose proof (bigsum_ge_term n k (fun i => a i * a i + b i * b i)) as Hge.
    cbv beta in Hge.
    assert (a k * a k + b k * b k <= bigsum n (fun i => a i * a i + b i * b i)).
    { apply Hge; [|assumption]. intros i _. nra. }
    lra. }
  nra.
Qed.

(** C5: every entry of the [Lambda] returned by [make_DPLR_HiPPO(N)] has
    a negative real part (it is [-1/2]), given that [eig_cpu] returned an
    eigendecomposition of the matrix [S] it was handed. *)
Theorem make_DPLR_HiPPO_Lambda_negative (N : nat) :
  (1 <= N)%nat ->
  eig_result (DPLR_S N) (eig_cpu (DPLR_S N)) ->
  Forall (fun l => re l < 0) (DPLR_Lambda_of (make_DPLR_HiPPO N)).
Proof.
  intros _ Heig. unfold make_DPLR_HiPPO.
  destruct (eig_cpu (DPLR_S N)) as [w V]. unfold DPLR_Lambda_of.
  destruct (DPLR_S_shape N) as (_ & HrS & HcS).
  destruct Heig as (Hlen & _ & _ & _ & Hpairs).
  cbn [fst snd] in Hlen, Hpairs. rewrite HrS in Hlen, Hpairs.
  apply Forall_forall. intros x Hx. apply in_map_iff in Hx.
  destruct Hx as [d [<- Hd]].
  destruct (In_nth w d C0 Hd) as [i [Hi Hnth]].
  rewrite Hlen in Hi.
  pose proof (skew_eigenvalue_imaginary (DPLR_S N) N (vget w i) (column V i)
                HrS HcS (DPLR_S_skew N) (Hpairs i Hi)) as Hre.
  unfold vget in Hre. change (@s0 complex C_scalar) with C0 in Hre.
  rewrite Hnth in Hre. simpl. lra.
Qed.

(** ** The DPLR generating function *)

Lemma vsum_combine (F : complex * complex -> complex) (v l : list complex) :
  length v = length l ->
  vsum (map F (combine v l)) = bigsum (length l) (fun i => F (vget v i, vget l i)).
Proof.
  revert l. induction v as [|x v IH]; intros [|y l] Hlen; try discriminate.
  - reflexivity.
  - simpl length. rewrite bigsum_S_l. simpl. f_equal.
    apply IH. simpl in Hlen. lia.
Qed.

(** A Cauchy dot product of the code, on operands of the length of [Lambda]. *)
Lemma cauchy_dot_product (Lambda u v : list complex) (g : complex) :
  length u = length Lambda -> length v = length Lambda ->
  (ab <- vbroadcast Cmul u v ;; cauchy_dot ab g Lambda) = Ok (cauchy_k Lambda g u v).
Proof.
  intros Hu Hv. rewrite vbroadcast_same by congruence. simpl.
  unfold cauchy_dot. rewrite tab1_length, Hu, Nat.eqb_refl.
  f_equal. rewrite vsum_combine by (rewrite tab1_length; reflexivity).
  unfold cauchy_k. apply bigsum_ext. intros i Hi. simpl.
  rewrite vget_tab1 by exact Hi. reflexivity.
Qed.

Lemma ravel_column_length (B : matrix complex) (N : nat) :
  has_shape B N 1 -> length (ravel B) = N.
Proof.
  intros ((Hlen & Hrows) & Hr & Hc). unfold ravel.
  rewrite <- Hr, <- Hlen. rewrite Hc in Hrows. clear Hlen Hr Hc.
  induction (rows B) as [|r rs IH]; [reflexivity|].
  simpl. rewrite length_app. inversion Hrows; subst.
  rewrite IH by assumption. lia.
Qed.

(** The value of the generating function, with its four dot products. *)
Lemma K_gen_DPLR_value (Lambda p q : list complex) (B : matrix complex)
    (Ct : list complex) (step : R) (z : complex) :
  length p = length Lambda -> length q = length Lambda ->
  has_shape B (length Lambda) 1 -> length Ct = length Lambda ->
  step <> 0 ->
  K_gen_DPLR Lambda p q B Ct step z =
    Ok (woodbury Lambda (bilinear_g step z) (bilinear_c z)
          (map Cconj Ct) (map Cconj q) (ravel B) p).
Proof.
  intros Hp Hq HB HCt Hstep. unfold K_gen_DPLR.
  destruct (Req_dec_T step 0) as [|_]; [contradiction|].
  fold (bilinear_g step z). fold (bilinear_c z).
  pose proof (ravel_column_length B _ HB) as HBl.
  assert (Ha0 : length (map Cconj Ct) = length Lambda) by (rewrite length_map; exact HCt).
  assert (Ha1 : length (map Cconj q) = length Lambda) by (rewrite length_map; exact Hq).
  pose proof (cauchy_dot_product Lambda _ _ (bilinear_g step z) Ha0 HBl) as E00.
  pose proof (cauchy_dot_product Lambda _ _ (bilinear_g step z) Ha0 Hp) as E01.
  pose proof (cauchy_dot_product Lambda _ _ (bilinear_g step z) Ha1 HBl) as E10.
  pose proof (cauchy_dot_product Lambda _ _ (bilinear_g step z) Ha1 Hp) as E11.
  destruct (vbroadcast Cmul (map Cconj Ct) (ravel B)) as [ab00|]; [|discriminate].
  simpl in E00 |- *. rewrite E00. simpl.
  destruct (vbroadcast Cmul (map Cconj Ct) p) as [ab01|]; [|discriminate].
  simpl in E01 |- *. rewrite E01. simpl.
  destruct (vbroadcast Cmul (map Cconj q) (ravel B)) as [ab10|]; [|discriminate].
  simpl in E10 |- *. rewrite E10. simpl.
  destruct (vbroadcast Cmul (map Cconj q) p) as [ab11|]; [|discriminate].
  simpl in E11 |- *. rewrite E11. simpl.
  f_equal. unfold woodbury, Cdiv. ring.
Qed.

(** C2, as the code has it: the generating function of [K_gen_DPLR] is
    [c(z) (k(conj Ct, B) - k(conj Ct, p) (1 + k(conj q, p))^-1 k(conj q, B))]:
    the argument [Ct] enters conjugated, as [q] does. *)
Theorem K_gen_DPLR_woodbury (N : nat) (Lambda p q : list complex)
    (B : matrix complex) (Ct : list complex) (step : R) (z : complex) :
  length Lambda = N -> length p = N -> length q = N ->
  has_shape B N 1 -> length Ct = N ->
  0 < step ->
  (C1 + z)%C <> C0 ->
  (forall i, (i < N)%nat -> bilinear_g step z <> vget Lambda i) ->
  K_gen_DPLR Lambda p q B Ct step z =
    Ok (woodbury Lambda (bilinear_g step z) (bilinear_c z)
          (map Cconj Ct) (map Cconj q) (ravel B) p).
Proof.
  intros HL Hp Hq HB HCt Hstep _ _. subst N.
  apply K_gen_DPLR_value; try assumption. lra.
Qed.

(** Evaluation of a closed complex expression over the sample operands. *)
Ltac eval_complex :=
  apply complex_eq;
  cbv [woodbury cauchy_k bilinear_g bilinear_c kernel_entry
       mat_mul mat_pow mscale mmap mcomplex mzip tab2 tab1 eye get
       bilinear_minus bilinear_plus DPLR_matrix diag outer
       bigsum vsum vget nth map seq length fold_right
       ravel concat rows nrows ncols app Nat.eqb
       ex_Lambda ex_p ex_q ex_Bcol ex_Ct osc_A osc_B osc_C osc_M osc_Lambda
       Cadd Csub Cmul Cdiv Cinv Copp Cconj Cnorm2 RtoC C0 C1 Ci re im INR
       s0 s1 sadd smul ssub sopp C_scalar R_scalar];
  (lra || (field; lra)).

Lemma ex_bilinear_g : bilinear_g 2 C0 = C1.
Proof. eval_complex. Qed.

Lemma ex_pole_free (i : nat) :
  (i < 1)%nat -> bilinear_g 2 C0 <> vget ex_Lambda i.
Proof.
  intros Hi. assert (i = 0%nat) as -> by lia.
  rewrite ex_bilinear_g. intros H. apply (f_equal re) in H. simpl in H. lra.
Qed.

Lemma ex_one_plus_z : (C1 + C0)%C <> C0.
Proof. intros H. apply (f_equal re) in H. simpl in H. lra. Qed.

Lemma K_gen_DPLR_woodbury_witness :
  K_gen_DPLR ex_Lambda ex_p ex_q ex_Bcol ex_Ct 2 C0 =
    Ok (woodbury ex_Lambda (bilinear_g 2 C0) (bilinear_c C0)
          (map Cconj ex_Ct) (map Cconj ex_q) (ravel ex_Bcol) ex_p).
Proof.
  apply (K_gen_DPLR_woodbury 1 ex_Lambda ex_p ex_q ex_Bcol ex_Ct 2 C0).
  - reflexivity.
  - reflexivity.
  - reflexivity.
  - apply has_shape_1x1.
  - reflexivity.
  - lra.
  - exact ex_one_plus_z.
  - exact ex_pole_free.
Defined.

(** C2 as stated fails: with [Lambda = [-1]], [p = q = [0]], [B = [[1]]],
    [Ct = [i]], [step = 2] and [z = 0] the code returns [-i], while the
    formula with [Ct] unconjugated gives [i]. *)
Lemma K_gen_DPLR_conjugates_Ct :
  (0 < 2 /\ (C1 + C0)%C <> C0 /\ bilinear_g 2 C0 <> vget ex_Lambda 0) /\
  K_gen_DPLR ex_Lambda ex_p ex_q ex_Bcol ex_Ct 2 C0 = Ok (Copp Ci) /\
  woodbury ex_Lambda (bilinear_g 2 C0) (bilinear_c C0)
    ex_Ct (map Cconj ex_q) (ravel ex_Bcol) ex_p = Ci /\
  Copp Ci <> Ci.
Proof.
  split; [|split; [|split]].
  - split; [lra|]. split; [exact ex_one_plus_z|]. apply ex_pole_free. lia.
  - rewrite K_gen_DPLR_value;
      try reflexivity; try apply has_shape_1x1; try lra.
    f_equal. eval_complex.
  - eval_complex.
  - intros H. apply (f_equal im) in H. simpl in H. lra.
Qed.

(** The sample eigendecomposition meets the contract of [eig_cpu]. *)
Lemma ex_eig_result : eig_result (DPLR_S 2) (ex_eig_w, ex_eig_V).
Proof.
  destruct (DPLR_S_shape 2) as (_ & HrS & HcS).
  pose proof (DPLR_S_skew 2 0 0 ltac:(lia) ltac:(lia)) as H00.
  pose proof (DPLR_S_skew 2 1 1 ltac:(lia) ltac:(lia)) as H11.
  pose proof (DPLR_S_skew 2 1 0 ltac:(lia) ltac:(lia)) as H10.
  unfold eig_result, eigenpair. cbn [fst snd]. rewrite HrS, HcS.
  unfold ex_eig_w. remember (get (DPLR_S 2)) as g eqn:Hg.
  split; [reflexivity|]. split.
  { split; [reflexivity|]. repeat constructor. }
  split; [reflexivity|]. split; [reflexivity|].
  intros i Hi. split; [reflexivity|]. split.
  - exists 0%nat. split; [lia|].
    destruct i as [|[|i]]; try lia;
      intros H; apply (f_equal re) in H; simpl in H; lra.
  - intros r Hr.
    destruct i as [|[|i]]; try lia; destruct r as [|[|r]]; try lia;
      apply complex_eq;
      cbv [bigsum vsum vget nth map seq fold_right column tab1 get rows nrows
           ex_eig_V Cadd Csub Cmul Copp RtoC C0 C1 Ci re im
           s0 s1 sadd smul ssub sopp C_scalar R_scalar];
      lra.
Qed.

Lemma make_DPLR_HiPPO_Lambda_negative_witness :
  Forall (fun l => re l < 0) (DPLR_Lambda_of (make_DPLR_HiPPO 2)).
Proof.
  apply (make_DPLR_HiPPO_Lambda_negative 2).
  - lia.
  - unfold eig_cpu. apply epsilon_spec.
    exists (ex_eig_w, ex_eig_V). exact ex_eig_result.
Defined.

(** ** Roots of unity *)

Lemma INR_pos_neq (L : nat) : (0 < L)%nat -> INR L <> 0.
Proof. intros HL. apply not_0_INR. lia. Qed.

Lemma unit_root_0 (L : nat) : unit_root L 0 = C1.
Proof.
  unfold unit_root. simpl INR.
  replace (2 * PI * 0 / INR L) with 0 by (unfold Rdiv; ring).
  rewrite cos_0, sin_0. reflexivity.
Qed.

Lemma unit_root_add (L a b : nat) :
  unit_root L (a + b) = (unit_root L a * unit_root L b)%C.
Proof.
  unfold unit_root. rewrite plus_INR.
  replace (2 * PI * (INR a + INR b) / INR L)
    with (2 * PI * INR a / INR L + 2 * PI * INR b / INR L) by (unfold Rdiv; ring).
  rewrite cos_plus, sin_plus. apply complex_eq; simpl; ring.
Qed.

Lemma unit_root_L (L : nat) : (0 < L)%nat -> unit_root L L = C1.
Proof.
  intros HL. unfold unit_root.
  replace (2 * PI * INR L / INR L) with (2 * PI)
    by (field; apply INR_pos_neq; exact HL).
  rewrite cos_2PI, sin_2PI. reflexivity.
Qed.

Lemma unit_root_pow (L k l : nat) :
  Cpow (unit_root L k) l = unit_root L (k * l).
Proof.
  induction l as [|l IH].
  - rewrite Nat.mul_0_r, unit_root_0. reflexivity.
  - simpl Cpow. rewrite IH, <- unit_root_add. f_equal. lia.
Qed.

Lemma unit_root_multiple (L q r : nat) :
  (0 < L)%nat -> unit_root L (q * L + r) = unit_root L r.
Proof.
  intros HL. rewrite unit_root_add, Nat.mul_comm, <- unit_root_pow.
  rewrite (unit_root_L L HL).
  assert (Hone : forall n, Cpow C1 n = C1).
  { induction n as [|n IHn]; [reflexivity|]. simpl. rewrite IHn. ring. }
  rewrite Hone. ring.
Qed.

Lemma unit_root_mod (L j : nat) :
  (0 < L)%nat -> unit_root L j = unit_root L (j mod L).
Proof.
  intros HL. rewrite (Nat.div_mod_eq j L) at 1.
  rewrite (Nat.mul_comm L). apply unit_root_multiple. exact HL.
Qed.

(** Strictly between [0] and [L] the point is not [1]. *)
Lemma unit_root_neq_1 (L j : nat) :
  (0 < j < L)%nat -> unit_root L j <> C1.
Proof.
  intros [Hj HjL] H.
  assert (HL : 0 < INR L) by (apply lt_0_INR; lia).
  assert (Hj' : 0 < INR j) by (apply lt_0_INR; lia).
  assert (HjL' : INR j < INR L) by (apply lt_INR; exact HjL).
  pose proof PI_RGT_0 as Hpi.
  set (x := 2 * PI * INR j / INR L) in *.
  assert (Hx0 : 0 < x).
  { unfold x. apply Rdiv_lt_0_compat; [|exact HL]. nra. }
  assert (Hx2 : x < 2 * PI).
  { unfold x. apply (Rmult_lt_reg_r (INR L)); [exact HL|].
    unfold Rdiv. rewrite Rmult_assoc, Rinv_l by lra. nra. }
  pose proof (f_equal re H) as Hc. pose proof (f_equal im H) as Hs.
  unfold unit_root in Hc, Hs. fold x in Hc, Hs. simpl in Hc, Hs.
  destruct (sin_eq_O_2PI_0 x) as [E|[E|E]]; try lra.
  rewrite E, cos_PI in Hc. lra.
Qed.

(** The geometric sum of an [L]-th root of unity other than [1]. *)
Lemma geometric_sum_zero (x : complex) (L : nat) :
  Cpow x L = C1 -> x <> C1 -> bigsum L (fun k => Cpow x k) = C0.
Proof.
  intros HxL Hx.
  assert (Hg : forall n, ((x - C1) * bigsum n (fun k => Cpow x k))%C = (Cpow x n - C1)%C).
  { induction n as [|n IHn].
    - rewrite bigsum_0. scalar_ops. simpl Cpow. ring.
    - rewrite bigsum_S. scalar_ops.
      replace ((x - C1) * (bigsum n (fun k => Cpow x k) + Cpow x n))%C
        with ((x - C1) * bigsum n (fun k => Cpow x k) + (x - C1) * Cpow x n)%C by ring.
      rewrite IHn. simpl Cpow. ring. }
  specialize (Hg L). rewrite HxL in Hg.
  replace (C1 - C1)%C with C0 in Hg by ring.
  apply Cmul_integral in Hg. destruct Hg as [Hg|Hg]; [|exact Hg].
  exfalso. apply Hx.
  replace x with ((x - C1) + C1)%C by ring. rewrite Hg. ring.
Qed.

Lemma bigsum_const_1 (L : nat) : bigsum L (fun _ => C1) = RtoC (INR L).
Proof.
  induction L as [|L IH].
  - reflexivity.
  - rewrite bigsum_S, IH. scalar_ops. rewrite S_INR.
    apply complex_eq; simpl; ring.
Qed.

(** Orthogonality of the sampled characters. *)
Lemma unit_root_sum (L j : nat) :
  (0 < L)%nat ->
  bigsum L (fun k => unit_root L (k * j)) =
    if (j mod L =? 0)%nat then RtoC (INR L) else C0.
Proof.
  intros HL.
  rewrite (bigsum_ext L _ (fun k => Cpow (unit_root L (j mod L)) k)).
  2:{ intros k _. rewrite Nat.mul_comm, <- unit_root_pow.
      rewrite (unit_root_mod L j HL). reflexivity. }
  destruct (Nat.eqb_spec (j mod L) 0) as [E|E].
  - rewrite E, unit_root_0.
    rewrite (bigsum_ext L _ (fun _ => C1)); [apply bigsum_const_1|].
    intros k _. induction k as [|k IHk]; [reflexivity|]. simpl. rewrite IHk. ring.
  - apply geometric_sum_zero.
    + rewrite unit_root_pow, <- (Nat.add_0_r (j mod L * L)).
      rewrite (unit_root_multiple L (j mod L) 0 HL). apply unit_root_0.
    + apply unit_root_neq_1. pose proof (Nat.mod_upper_bound j L). lia.
Qed.

(** ** The inverse transform over the roots of unity *)

Lemma Cexp_imaginary (t : R) : Cexp (mkC 0 t) = mkC (cos t) (sin t).
Proof.
  unfold Cexp. simpl. rewrite exp_0. apply complex_eq; simpl; ring.
Qed.

Lemma roots_of_unity_tab (L : nat) :
  roots_of_unity L = tab1 L (unit_root L).
Proof.
  unfold roots_of_unity, tab1. apply map_ext. intros k.
  replace (mkC 0 (2 * PI / INR L) * RtoC (INR k))%C
    with (mkC 0 (2 * PI * INR k / INR L))
    by (apply complex_eq; simpl; unfold Rdiv; ring).
  apply Cexp_imaginary.
Qed.

Lemma ifft_kernel (L m k : nat) :
  Cexp (mkC 0 (2 * PI * INR m * INR k / INR L)) = unit_root L (m * k).
Proof.
  rewrite Cexp_imaginary. unfold unit_root. rewrite mult_INR.
  replace (2 * PI * (INR m * INR k) / INR L) with (2 * PI * INR m * INR k / INR L)
    by (unfold Rdiv; ring).
  reflexivity.
Qed.

Lemma mapM_ok {T U : Type} (f : T -> result U) (g : T -> U) (l : list T) :
  (forall x, In x l -> f x = Ok (g x)) -> mapM f l = Ok (map g l).
Proof.
  induction l as [|x l IH]; intros Hf.
  - reflexivity.
  - simpl. rewrite (Hf x) by (left; reflexivity). simpl.
    rewrite IH by (intros y Hy; apply Hf; right; exact Hy). reflexivity.
Qed.

Lemma mapM_length {T U : Type} (f : T -> result U) (l : list T) (ys : list U) :
  mapM f l = Ok ys -> length ys = length l.
Proof.
  revert ys. induction l as [|x l IH]; intros ys Hm; simpl in Hm.
  - injection Hm as <-. reflexivity.
  - destruct (f x) as [y|]; [|discriminate]. simpl in Hm.
    destruct (mapM f l) as [ys'|]; [|discriminate]. simpl in Hm.
    injection Hm as <-. simpl. rewrite (IH ys' eq_refl). reflexivity.
Qed.

(** The polynomial evaluated by the function of [K_gen_simple]. *)
Lemma gen_simple_value (K : list complex) (L : nat) (z : complex) :
  length K = L ->
  gen_simple K L z = Ok (bigsum L (fun l => (vget K l * Cpow z l)%C)).
Proof.
  intros HK. unfold gen_simple.
  rewrite vbroadcast_same by (rewrite length_map, length_seq; exact HK).
  simpl. rewrite HK. f_equal. unfold bigsum, tab1. f_equal.
  apply map_ext_in. intros l Hl. apply in_seq in Hl. f_equal.
  apply (vget_tab1 L (Cpow z) l). lia.
Qed.

(** Every step of [convFromGen] but the sampling succeeds when [L > 0]. *)
Lemma convFromGen_steps (gen : complex -> result complex) (L : nat)
    (atRoots : list complex) :
  (0 < L)%nat ->
  mapM gen (roots_of_unity L) = Ok atRoots ->
  convFromGen gen L =
    Ok (map (fun j => re (
          RtoC (/ INR L) *
          bigsum L (fun k => vget atRoots k * unit_root L (j * k)))%C)
        (kernel_order L)).
Proof.
  intros HL Hm. unfold convFromGen.
  destruct (Nat.eqb_spec L 0) as [?|_]; [lia|].
  rewrite Hm. simpl. unfold ifft.
  destruct (Nat.eqb_spec L 0) as [?|_]; [lia|]. simpl.
  rewrite tab1_length, Nat.eqb_refl. simpl. f_equal.
  unfold kernel_order. apply map_ext_in. intros j Hj.
  apply in_map_iff in Hj. destruct Hj as [i [<- Hi]]. apply in_seq in Hi.
  assert (Hlt : ((if (i =? 0)%nat then i else L - i) < L)%nat).
  { destruct (Nat.eqb_spec i 0); lia. }
  rewrite vget_tab1 by exact Hlt.
  set (m := if (i =? 0)%nat then i else (L - i)%nat) in *.
  rewrite (bigsum_ext L _ (fun k => (vget atRoots k * unit_root L (m * k))%C)).
  - reflexivity.
  - intros k _. rewrite ifft_kernel. reflexivity.
Qed.

(** The reordered slot [i] picks the coefficient of index [i]. *)
Lemma kernel_order_slot (L l i : nat) :
  (l < L)%nat -> (i < L)%nat ->
  (((l + (if (i =? 0)%nat then i else L - i)) mod L =? 0)%nat) = (l =? i)%nat.
Proof.
  intros Hl Hi.
  destruct (Nat.eqb_spec i 0) as [->|Hi0].
  - rewrite Nat.add_0_r, Nat.mod_small by exact Hl. reflexivity.
  - destruct (Nat.eqb_spec l i) as [->|Hne].
    + replace (i + (L - i))%nat with L by lia.
      rewrite Nat.Div0.mod_same. reflexivity.
    + apply Nat.eqb_neq.
      destruct (Nat.lt_ge_cases l i) as [Hlt|Hge].
      * rewrite Nat.mod_small by lia. lia.
      * replace (l + (L - i))%nat with ((l - i) + 1 * L)%nat by lia.
        rewrite Nat.Div0.mod_add, Nat.mod_small by lia. lia.
Qed.

(** The inverse transform of the samples of a polynomial of degree
    below [L], read in [convFromGen]'s order, is the coefficient list. *)
Lemma inverse_transform_entry (K : list complex) (L i : nat) :
  (0 < L)%nat -> (i < L)%nat ->
  (RtoC (/ INR L) *
   bigsum L (fun k =>
     bigsum L (fun l => vget K l * Cpow (unit_root L k) l) *
     unit_root L ((if (i =? 0)%nat then i else L - i) * k)))%C
  = vget K i.
Proof.
  intros HL Hi. set (m := if (i =? 0)%nat then i else (L - i)%nat).
  rewrite (bigsum_ext L _
    (fun k => bigsum L (fun l => (vget K l * unit_root L (k * (l + m)))%C))).
  2:{ intros k _.
      transitivity (bigsum L (fun l =>
        ((vget K l * Cpow (unit_root L k) l) * unit_root L (m * k))%C)).
      { symmetry. exact (bigsum_scal_r L (unit_root L (m * k))
                           (fun l => (vget K l * Cpow (unit_root L k) l)%C)). }
      apply bigsum_ext. intros l _.
      rewrite unit_root_pow.
      replace (k * (l + m))%nat with (k * l + m * k)%nat by lia.
      rewrite unit_root_add. ring. }
  rewrite bigsum_swap.
  rewrite (bigsum_ext L _
    (fun l => (vget K l * (if (l =? i)%nat then RtoC (INR L) else C0))%C)).
  2:{ intros l Hl.
      transitivity (vget K l * bigsum L (fun k => unit_root L (k * (l + m))))%C.
      { exact (bigsum_scal_l L (vget K l) (fun k => unit_root L (k * (l + m)))). }
      rewrite (unit_root_sum L (l + m) HL).
      unfold m. rewrite (kernel_order_slot L l i Hl Hi). reflexivity. }
  rewrite (bigsum_single L i).
  - rewrite Nat.eqb_refl.
    replace (RtoC (/ INR L) * (vget K i * RtoC (INR L)))%C
      with (vget K i * (RtoC (/ INR L) * RtoC (INR L)))%C by ring.
    replace (RtoC (/ INR L) * RtoC (INR L))%C with C1.
    + ring.
    + apply complex_eq; simpl; [|ring].
      field. apply INR_pos_neq. exact HL.
  - exact Hi.
  - intros l Hl Hne. destruct (Nat.eqb_spec l i); [contradiction|].
    change (@s0 complex C_scalar) with C0. ring.
Qed.

(** C3: sampling the generating function of a real sequence [K] of
    length [L >= 1] at the [L]-th roots of unity, inverse-transforming,
    reordering and keeping the real part gives [K] back. *)
Theorem convFromGen_recovers_kernel (K : list R) (L : nat) :
  length K = L -> (0 < L)%nat ->
  convFromGen (gen_simple (map RtoC K) L) L = Ok K.
Proof.
  intros HK HL.
  assert (HKc : length (map RtoC K) = L) by (rewrite length_map; exact HK).
  rewrite (convFromGen_steps _ L
             (map (fun z => bigsum L (fun l => (vget (map RtoC K) l * Cpow z l)%C))
                  (roots_of_unity L)) HL).
  2:{ apply mapM_ok. intros z _. apply gen_simple_value. exact HKc. }
  f_equal. unfold kernel_order. rewrite map_map.
  transitivity (tab1 L (vget K)); [|rewrite <- HK; apply tab1_vget].
  unfold tab1. apply map_ext_in. intros i Hi. apply in_seq in Hi.
  rewrite (bigsum_ext L _
    (fun k => (bigsum L (fun l => vget (map RtoC K) l * Cpow (unit_root L k) l) *
               unit_root L ((if (i =? 0)%nat then i else L - i) * k))%C)).
  2:{ intros k Hk. f_equal.
      rewrite roots_of_unity_tab. unfold tab1. rewrite map_map.
      change (vget (map (fun x => bigsum L (fun l =>
                (vget (map RtoC K) l * Cpow (unit_root L x) l)%C)) (seq 0 L)) k)
        with (vget (tab1 L (fun x => bigsum L (fun l =>
                (vget (map RtoC K) l * Cpow (unit_root L x) l)%C))) k).
      rewrite vget_tab1 by exact Hk. reflexivity. }
  rewrite (inverse_transform_entry (map RtoC K) L i HL) by lia.
  unfold vget.
  change (@s0 complex C_scalar) with (RtoC 0). rewrite (map_nth RtoC). reflexivity.
Qed.

Lemma convFromGen_recovers_kernel_witness :
  convFromGen (gen_simple (map RtoC [1; 2]) 2) 2 = Ok [1; 2].
Proof.
  apply (convFromGen_recovers_kernel [1; 2] 2).
  - reflexivity.
  - lia.
Defined.

(** C8, as the code has it: [convFromGen] makes no check on the
    imaginary parts.  Whenever the generator can be sampled, the result
    is the list of real parts of the reordered inverse transform. *)
Theorem convFromGen_keeps_real_part (gen : complex -> result complex) (L : nat)
    (atRoots : list complex) :
  (0 < L)%nat ->
  mapM gen (roots_of_unity L) = Ok atRoots ->
  exists out,
    ifft atRoots L = Ok out /\
    length out = L /\
    convFromGen gen L = Ok (map (fun j => re (vget out j)) (kernel_order L)).
Proof.
  intros HL Hm. unfold convFromGen, ifft.
  destruct (Nat.eqb_spec L 0) as [?|_]; [lia|].
  eexists. split; [reflexivity|]. split; [apply tab1_length|].
  rewrite Hm. simpl. rewrite tab1_length, Nat.eqb_refl. reflexivity.
Qed.

Lemma convFromGen_keeps_real_part_witness :
  exists out,
    ifft [Ci] 1 = Ok out /\
    length out = 1%nat /\
    convFromGen (fun _ => Ok Ci) 1 = Ok (map (fun j => re (vget out j)) (kernel_order 1)).
Proof.
  apply (convFromGen_keeps_real_part (fun _ => Ok Ci) 1 [Ci]).
  - lia.
  - reflexivity.
Defined.

(** C8 as stated fails: for the constant generator [i] and [L = 1] the
    inverse transform is [[i]], of imaginary part [1], and [convFromGen]
    returns [[0]] without raising. *)
Lemma convFromGen_no_imaginary_check :
  ifft [Ci] 1 = Ok [Ci] /\
  im Ci = 1 /\
  convFromGen (fun _ => Ok Ci) 1 = Ok [0].
Proof.
  assert (Hout : ifft [Ci] 1 = Ok [Ci]).
  { unfold ifft, tab1, bigsum. simpl. f_equal. f_equal.
    replace (2 * PI * 0 * 0 / 1) with 0 by field.
    rewrite Cexp_imaginary, cos_0, sin_0.
    apply complex_eq; simpl; field. }
  split; [exact Hout|]. split; [reflexivity|].
  unfold convFromGen.
  change (mapM (fun _ : complex => Ok Ci) (roots_of_unity 1)) with (Ok [Ci]).
  cbn [Nat.eqb bind]. rewrite Hout. reflexivity.
Qed.

(** ** Conjugation, promotion and flattening *)

Lemma Cconj_conj (a : complex) : Cconj (Cconj a) = a.
Proof. apply complex_eq; simpl; ring. Qed.

Lemma Cconj_mul (a b : complex) : Cconj (a * b) = (Cconj a * Cconj b)%C.
Proof. apply complex_eq; simpl; ring. Qed.

Lemma Cconj_RtoC (x : R) : Cconj (RtoC x) = RtoC x.
Proof. apply complex_eq; simpl; ring. Qed.

Lemma Cconj_bigsum (n : nat) (f : nat -> complex) :
  Cconj (bigsum n f) = bigsum n (fun i => Cconj (f i)).
Proof.
  induction n as [|n IH].
  - apply complex_eq; simpl; ring.
  - rewrite !bigsum_S, <- IH. scalar_ops. apply complex_eq; simpl; ring.
Qed.

Lemma vget_map_Cconj (v : list complex) (i : nat) :
  (i < length v)%nat -> vget (map Cconj v) i = Cconj (vget v i).
Proof.
  intros Hi. unfold vget.
  rewrite (nth_indep _ _ (Cconj s0)) by (rewrite length_map; exact Hi).
  apply (map_nth Cconj).
Qed.

Lemma mcomplex_shape (m : matrix R) (r c : nat) :
  has_shape m r c -> has_shape (mcomplex m) r c.
Proof.
  intros ((Hl & Hrows) & Hr & Hc). split; [|split; assumption].
  unfold wf, mcomplex. simpl. split.
  - rewrite length_map. exact Hl.
  - apply Forall_forall. intros row Hrow. apply in_map_iff in Hrow.
    destruct Hrow as [r0 [<- Hin]]. rewrite length_map.
    rewrite Forall_forall in Hrows. apply Hrows. exact Hin.
Qed.

Lemma get_mcomplex (m : matrix R) (i j : nat) :
  wf m -> (i < nrows m)%nat -> (j < ncols m)%nat ->
  get (mcomplex m) i j = RtoC (get m i j).
Proof.
  intros [Hl Hr] Hi Hj. unfold get, mcomplex. simpl.
  rewrite (nth_indep _ [] (map RtoC [])) by (rewrite length_map; lia).
  rewrite (map_nth (map RtoC)).
  assert (Hrow : length (nth i (rows m) []) = ncols m).
  { rewrite Forall_forall in Hr. apply Hr. apply nth_In. lia. }
  change (@s0 complex C_scalar) with (RtoC 0).
  apply (map_nth RtoC).
Qed.

Lemma nth_concat_columns {U : Type} (rs : list (list U)) (i : nat) (d : U) :
  Forall (fun r => length r = 1%nat) rs -> (i < length rs)%nat ->
  nth i (concat rs) d = nth 0 (nth i rs []) d.
Proof.
  revert i. induction rs as [|r rs IH]; intros i Hall Hi; [simpl in Hi; lia|].
  inversion Hall as [|r' rs' Hr Hrs]; subst.
  destruct r as [|x [|y r]]; try discriminate.
  destruct i as [|i]; simpl.
  - reflexivity.
  - apply IH; [assumption|]. simpl in Hi. lia.
Qed.

(** The flattening of a column is the column. *)
Lemma vget_ravel_column (B : matrix complex) (N i : nat) :
  has_shape B N 1 -> (i < N)%nat -> vget (ravel B) i = get B i 0.
Proof.
  intros ((Hl & Hrows) & Hr & Hc) Hi. unfold vget, ravel, get.
  rewrite Hc in Hrows. apply nth_concat_columns; [exact Hrows|lia].
Qed.

(** The flattening of a row is the row. *)
Lemma ravel_row (C : matrix complex) (N : nat) :
  has_shape C 1 N ->
  length (ravel C) = N /\ forall j, vget (ravel C) j = get C 0 j.
Proof.
  intros ((Hl & Hrows) & Hr & Hc). unfold ravel, vget, get.
  destruct (rows C) as [|r [|r' rs]]; simpl in Hl; try lia.
  simpl. rewrite app_nil_r. split; [|reflexivity].
  inversion Hrows; subst. congruence.
Qed.

(** Sampling a polynomial of degree below [L]: [convFromGen] returns the
    real parts of its coefficients. *)
Lemma convFromGen_of_polynomial (gen : complex -> result complex)
    (K : list complex) (L : nat) :
  length K = L -> (0 < L)%nat ->
  (forall k, (k < L)%nat ->
     gen (unit_root L k) =
       Ok (bigsum L (fun l => (vget K l * Cpow (unit_root L k) l)%C))) ->
  convFromGen gen L = Ok (map re K).
Proof.
  intros HK HL Hgen.
  rewrite (convFromGen_steps gen L
             (tab1 L (fun k => bigsum L (fun l =>
                (vget K l * Cpow (unit_root L k) l)%C))) HL).
  2:{ rewrite roots_of_unity_tab. unfold tab1.
      rewrite <- (map_map (unit_root L)
                   (fun z => bigsum L (fun l => (vget K l * Cpow z l)%C))).
      apply mapM_ok. intros z Hz. apply in_map_iff in Hz.
      destruct Hz as [k [<- Hk]]. apply in_seq in Hk. apply Hgen. lia. }
  f_equal. unfold kernel_order. rewrite map_map.
  transitivity (map re (tab1 L (vget K))); [|rewrite <- HK, tab1_vget; reflexivity].
  unfold tab1. rewrite map_map. apply map_ext_in. intros i Hi. apply in_seq in Hi.
  f_equal.
  rewrite (bigsum_ext L _
    (fun k => (bigsum L (fun l => vget K l * Cpow (unit_root L k) l) *
               unit_root L ((if (i =? 0)%nat then i else L - i) * k))%C)).
  2:{ intros k Hk. f_equal.
      exact (vget_tab1 L (fun k0 => bigsum L (fun l =>
               (vget K l * Cpow (unit_root L k0) l)%C)) k Hk). }
  apply inverse_transform_entry; [exact HL|lia].
Qed.

(** ** The closed form is the resolvent of the DPLR matrix *)

Lemma Csub_neq_0 (a b : complex) : a <> b -> (a - b)%C <> C0.
Proof.
  intros Hab H. apply Hab.
  replace a with ((a - b) + b)%C by ring. rewrite H. ring.
Qed.

Lemma RtoC_div (x y : R) : y <> 0 -> RtoC (x / y) = (RtoC x / RtoC y)%C.
Proof.
  intros Hy. apply complex_eq; simpl; unfold Cnorm2; simpl; field; exact Hy.
Qed.

Lemma RtoC_neq_0 (x : R) : x <> 0 -> RtoC x <> C0.
Proof. intros Hx H. apply Hx. apply (f_equal re) in H. exact H. Qed.

Section Resolvent.
Variables (Lambda p q b : list complex) (g : complex).

(** A dot product against the Sherman-Morrison solution. *)
Lemma sm_solution_dot (a : list complex) :
  bigsum (length Lambda) (fun i => (vget a i * sm_solution Lambda p q b g i)%C) =
  (cauchy_k Lambda g a b
   - cauchy_k Lambda g a p
     * (cauchy_k Lambda g (map Cconj q) b
        * / (C1 + cauchy_k Lambda g (map Cconj q) p)))%C.
Proof.
  set (kappa := (cauchy_k Lambda g (map Cconj q) b
                 * / (C1 + cauchy_k Lambda g (map Cconj q) p))%C).
  transitivity
    (bigsum (length Lambda) (fun i =>
       ((vget a i * vget b i) / (g - vget Lambda i)
        - ((vget a i * vget p i) / (g - vget Lambda i)) * kappa)%C)).
  { apply bigsum_ext. intros i _. unfold sm_solution. fold kappa.
    unfold Cdiv. ring. }
  transitivity
    (bigsum (length Lambda) (fun i => ((vget a i * vget b i) / (g - vget Lambda i))%C)
     - bigsum (length Lambda) (fun i =>
         (((vget a i * vget p i) / (g - vget Lambda i)) * kappa)%C))%C.
  { exact (bigsum_sub (length Lambda)
             (fun i => ((vget a i * vget b i) / (g - vget Lambda i))%C)
             (fun i => (((vget a i * vget p i) / (g - vget Lambda i)) * kappa)%C)). }
  f_equal.
  exact (bigsum_scal_r (length Lambda) kappa
           (fun i => ((vget a i * vget p i) / (g - vget Lambda i))%C)).
Qed.

(** The closed form is [c] times a dot product with that solution. *)
Lemma woodbury_dot (c : complex) (a : list complex) :
  woodbury Lambda g c a (map Cconj q) b p =
  (c * bigsum (length Lambda) (fun i => (vget a i * sm_solution Lambda p q b g i)%C))%C.
Proof.
  rewrite sm_solution_dot. unfold woodbury. ring.
Qed.

Hypothesis Hpole : forall i, (i < length Lambda)%nat -> g <> vget Lambda i.
Hypothesis Hdenom :
  (C1 + cauchy_k Lambda g (map Cconj q) p)%C <> C0.

(** [w] solves [(g - Lambda_i) w_i + p_i (q* w) = b_i]. *)
Lemma sm_solution_solves (i : nat) :
  (i < length Lambda)%nat ->
  ((g - vget Lambda i) * sm_solution Lambda p q b g i
   + vget p i * bigsum (length Lambda) (fun j =>
       (vget (map Cconj q) j * sm_solution Lambda p q b g j)%C))%C
  = vget b i.
Proof.
  intros Hi. rewrite sm_solution_dot. unfold sm_solution.
  pose proof (Csub_neq_0 _ _ (Hpole i Hi)) as Hd.
  set (k10 := cauchy_k Lambda g (map Cconj q) b) in *.
  set (k11 := cauchy_k Lambda g (map Cconj q) p) in *.
  field. split; assumption.
Qed.

End Resolvent.

(** ** Complex sums, in the notation of complex arithmetic *)

Lemma Cbigsum_add (n : nat) (f g : nat -> complex) :
  bigsum n (fun i => (f i + g i)%C) = (bigsum n f + bigsum n g)%C.
Proof. exact (bigsum_add n f g). Qed.

Lemma Cbigsum_sub (n : nat) (f g : nat -> complex) :
  bigsum n (fun i => (f i - g i)%C) = (bigsum n f - bigsum n g)%C.
Proof. exact (bigsum_sub n f g). Qed.

Lemma Cbigsum_scal_l (n : nat) (c : complex) (f : nat -> complex) :
  bigsum n (fun i => (c * f i)%C) = (c * bigsum n f)%C.
Proof. exact (bigsum_scal_l n c f). Qed.

Lemma Cbigsum_scal_r (n : nat) (c : complex) (f : nat -> complex) :
  bigsum n (fun i => (f i * c)%C) = (bigsum n f * c)%C.
Proof. exact (bigsum_scal_r n c f). Qed.

Lemma Cbigsum_single (n k : nat) (f : nat -> complex) :
  (k < n)%nat -> (forall i, (i < n)%nat -> i <> k -> f i = C0) ->
  bigsum n f = f k.
Proof. exact (bigsum_single n k f). Qed.

(** ** The DPLR matrix *)

Lemma DPLR_matrix_shape (Lambda p q : list complex) (N : nat) :
  length Lambda = N -> has_shape (DPLR_matrix Lambda p q) N N.
Proof.
  intros HL. unfold DPLR_matrix, mzip. split; [apply wf_tab2|].
  simpl. split; exact HL.
Qed.

Lemma get_DPLR_matrix (Lambda p q : list complex) (N i j : nat) :
  length Lambda = N -> length p = N -> length q = N ->
  (i < N)%nat -> (j < N)%nat ->
  get (DPLR_matrix Lambda p q) i j =
    ((if (i =? j)%nat then vget Lambda i else C0)
     - vget p i * vget (map Cconj q) j)%C.
Proof.
  intros HL Hp Hq Hi Hj. unfold DPLR_matrix, mzip.
  rewrite get_tab2 by (simpl; lia). unfold diag, outer.
  rewrite !get_tab2 by (rewrite ?length_map; lia). reflexivity.
Qed.

(** The action of [diag Lambda - p q*] on a vector. *)
Lemma DPLR_matrix_apply (Lambda p q : list complex) (N i : nat) (x : nat -> complex) :
  length Lambda = N -> length p = N -> length q = N -> (i < N)%nat ->
  bigsum N (fun j => (get (DPLR_matrix Lambda p q) i j * x j)%C) =
  (vget Lambda i * x i
   - vget p i * bigsum N (fun j => (vget (map Cconj q) j * x j)%C))%C.
Proof.
  intros HL Hp Hq Hi.
  assert (E : bigsum N (fun j =>
                ((if (i =? j)%nat then vget Lambda i else C0) * x j)%C)
              = (vget Lambda i * x i)%C).
  { rewrite (Cbigsum_single N i).
    - rewrite Nat.eqb_refl. reflexivity.
    - exact Hi.
    - intros j Hj Hne. destruct (Nat.eqb_spec i j); [congruence|]. ring. }
  rewrite <- E, <- Cbigsum_scal_l, <- Cbigsum_sub.
  apply bigsum_ext. intros j Hj.
  rewrite (get_DPLR_matrix Lambda p q N i j) by assumption. ring.
Qed.

(** The entries of [I + h A] applied to a vector. *)
Lemma identity_plus_apply (N i : nat) (h : complex) (a x : nat -> complex) :
  (i < N)%nat ->
  bigsum N (fun j => (((if (i =? j)%nat then C1 else C0) + h * a j) * x j)%C) =
  (x i + h * bigsum N (fun j => (a j * x j)%C))%C.
Proof.
  intros Hi.
  assert (E : bigsum N (fun j => ((if (i =? j)%nat then C1 else C0) * x j)%C)
              = x i).
  { rewrite (Cbigsum_single N i).
    - rewrite Nat.eqb_refl. ring.
    - exact Hi.
    - intros j Hj Hne. destruct (Nat.eqb_spec i j); [congruence|]. ring. }
  rewrite <- E at 1. rewrite <- Cbigsum_scal_l, <- Cbigsum_add.
  apply bigsum_ext. intros j Hj. ring.
Qed.

(** The cancellation behind [c(z)] and [g(z)]. *)
Lemma bilinear_cancel (s z wi bi t : complex) :
  s <> C0 -> (C1 + z)%C <> C0 ->
  t = (((C1 + C1) / s * ((C1 - z) / (C1 + z))) * wi - bi)%C ->
  (((C1 + C1) / (C1 + z) * wi - s / (C1 + C1) * ((C1 + C1) / (C1 + z) * t))
   - z * ((C1 + C1) / (C1 + z) * wi + s / (C1 + C1) * ((C1 + C1) / (C1 + z) * t)))%C
  = (s * bi)%C.
Proof.
  intros Hs Hz ->.
  assert (H2 : (C1 + C1)%C <> C0).
  { intros H. apply (f_equal re) in H. simpl in H. lra. }
  field. repeat split; assumption.
Qed.

Lemma RtoC_two : RtoC 2 = (C1 + C1)%C.
Proof. apply complex_eq; simpl; lra. Qed.

(** ** The fast path against the naive kernel *)

Section FastPath.
Variables (N : nat) (Lambda p q : list complex) (step : R).
Variables (M Bc Cc : matrix complex).
Hypothesis HLam : length Lambda = N.
Hypothesis Hp : length p = N.
Hypothesis Hq : length q = N.
Hypothesis Hstep : step <> 0.
Hypothesis HB : has_shape Bc N 1.
Hypothesis HC : has_shape Cc 1 N.
Hypothesis HCreal : forall j, Cconj (get Cc 0 j) = get Cc 0 j.
Hypothesis HM : is_inverse (bilinear_minus (DPLR_matrix Lambda p q) step) M.

Let A := DPLR_matrix Lambda p q.
Let X := bilinear_minus A step.
Let Y := bilinear_plus A step.
Let Abar := mat_mul M Y.
Let Bbar := mat_mul (mscale M step) Bc.
Let h := RtoC (step / 2).

Lemma fp_A_shape : has_shape A N N.
Proof. apply DPLR_matrix_shape. exact HLam. Qed.

Lemma fp_X_shape : has_shape X N N.
Proof.
  unfold X, bilinear_minus, mzip. split; [apply wf_tab2|].
  simpl. rewrite HLam. split; reflexivity.
Qed.

Lemma fp_Y_shape : has_shape Y N N.
Proof.
  unfold Y, bilinear_plus, mzip. split; [apply wf_tab2|].
  simpl. rewrite HLam. split; reflexivity.
Qed.

Lemma fp_M_shape : has_shape M N N.
Proof.
  destruct HM as (Hwf & Hr & Hc & _). fold A in Hr, Hc. fold X in Hr, Hc.
  destruct fp_X_shape as (_ & HrX & _). rewrite HrX in Hr, Hc.
  split; [exact Hwf|]. split; assumption.
Qed.

Lemma fp_MX : mat_mul M X = eye N.
Proof.
  destruct HM as (_ & _ & _ & Hl & _). fold A in Hl. fold X in Hl.
  destruct fp_X_shape as (_ & HrX & _). rewrite HrX in Hl. exact Hl.
Qed.

Lemma fp_Abar_shape : has_shape Abar N N.
Proof.
  unfold Abar, mat_mul. split; [apply wf_tab2|]. simpl.
  destruct fp_M_shape as (_ & Hr & _). destruct fp_Y_shape as (_ & _ & Hc).
  split; assumption.
Qed.

Lemma fp_get_X (i j : nat) :
  (i < N)%nat -> (j < N)%nat ->
  get X i j = ((if (i =? j)%nat then C1 else C0) - h * get A i j)%C.
Proof.
  intros Hi Hj. destruct fp_A_shape as (HwfA & HrA & HcA).
  unfold X, bilinear_minus.
  rewrite get_mzip by (simpl; fold A; lia).
  rewrite get_eye by (fold A; lia).
  rewrite get_mmap by (try exact HwfA; lia). reflexivity.
Qed.

Lemma fp_get_Y (i j : nat) :
  (i < N)%nat -> (j < N)%nat ->
  get Y i j = ((if (i =? j)%nat then C1 else C0) + h * get A i j)%C.
Proof.
  intros Hi Hj. destruct fp_A_shape as (HwfA & HrA & HcA).
  unfold Y, bilinear_plus.
  rewrite get_mzip by (simpl; fold A; lia).
  rewrite get_eye by (fold A; lia).
  rewrite get_mmap by (try exact HwfA; lia). reflexivity.
Qed.

Variable L : nat.

Let AL := mat_pow Abar L.
Let D := mzip Csub (eye N) AL.
Let Ct := tab1 N (fun i =>
  bigsum N (fun j => (get (conjT D) i j * vget (ravel Cc) j)%C)).
Let Kl := fun l => get (mat_mul (mat_mul Cc (mat_pow Abar l)) Bbar) 0 0.

Lemma fp_pow_shape (l : nat) : has_shape (mat_pow Abar l) N N.
Proof.
  destruct fp_Abar_shape as (_ & HrA & HcA).
  destruct (mat_pow_shape Abar l) as (Hwf & Hr & Hc); [congruence|].
  split; [exact Hwf|]. split; congruence.
Qed.

(** [conj(Ct) = C (I - Abar^L)], for a real [C]. *)
Lemma fp_conj_Ct (i : nat) :
  (i < N)%nat ->
  vget (map Cconj Ct) i = (get Cc 0 i - get (mat_mul Cc AL) 0 i)%C.
Proof.
  intros Hi. destruct HC as (HwfC & HrC & HcC).
  destruct (fp_pow_shape L) as (_ & HrP & HcP). fold AL in HrP, HcP.
  destruct (ravel_row Cc N HC) as [_ Hrow].
  rewrite vget_map_Cconj by (unfold Ct; rewrite tab1_length; exact Hi).
  unfold Ct. rewrite vget_tab1 by exact Hi.
  rewrite Cconj_bigsum.
  rewrite get_mat_mul by lia. rewrite HcC.
  assert (E : bigsum N (fun j =>
                ((if (j =? i)%nat then C1 else C0) * get Cc 0 j)%C) = get Cc 0 i).
  { rewrite (Cbigsum_single N i).
    - rewrite Nat.eqb_refl. ring.
    - exact Hi.
    - intros j Hj Hne. destruct (Nat.eqb_spec j i); [congruence|]. ring. }
  rewrite <- E, <- Cbigsum_sub.
  apply bigsum_ext. intros j Hj.
  unfold conjT. rewrite get_tab2 by (simpl; lia).
  rewrite Cconj_mul, Cconj_conj, Hrow, HCreal.
  unfold D. rewrite get_mzip by (simpl; lia).
  rewrite get_eye by lia. cbn [smul s0 s1 C_scalar]. ring.
Qed.

Section SampledPoint.
Variable z : complex.
Hypothesis Hreg : regular_point Lambda p q step z.

Let g := bilinear_g step z.
Let c := bilinear_c z.
Let w := sm_solution Lambda p q (ravel Bc) g.
Let U := tab2 N 1 (fun i _ => (c * w i)%C).

Lemma fp_U_shape : has_shape U N 1.
Proof. split; [apply wf_tab2|]. split; reflexivity. Qed.

Lemma fp_get_U (i : nat) : (i < N)%nat -> get U i 0 = (c * w i)%C.
Proof. intros Hi. unfold U. rewrite get_tab2 by lia. reflexivity. Qed.

(** [A w = g w - b], entry by entry. *)
Lemma fp_A_w (i : nat) :
  (i < N)%nat ->
  bigsum N (fun j => (get A i j * w j)%C) = (g * w i - vget (ravel Bc) i)%C.
Proof.
  intros Hi. destruct Hreg as (_ & Hpole & Hdenom).
  unfold A. rewrite (DPLR_matrix_apply Lambda p q N i w HLam Hp Hq Hi).
  pose proof (sm_solution_solves Lambda p q (ravel Bc) g Hpole Hdenom i) as E.
  rewrite HLam in E. specialize (E Hi). fold w in E.
  rewrite <- E. ring.
Qed.

(** [A u = c (g w - b)] for [u = c w]. *)
Lemma fp_A_u (i : nat) :
  (i < N)%nat ->
  bigsum N (fun j => (get A i j * (c * w j))%C) =
  (c * (g * w i - vget (ravel Bc) i))%C.
Proof.
  intros Hi. rewrite <- (fp_A_w i Hi), <- Cbigsum_scal_l.
  apply bigsum_ext. intros j _. ring.
Qed.

Lemma fp_XU (i : nat) :
  (i < N)%nat ->
  get (mat_mul X U) i 0 =
  (c * w i - h * (c * (g * w i - vget (ravel Bc) i)))%C.
Proof.
  intros Hi. destruct fp_X_shape as (_ & HrX & HcX).
  rewrite get_mat_mul by (simpl; lia). fold A. rewrite HcX.
  rewrite <- (fp_A_u i Hi).
  transitivity (c * w i + (- h) * bigsum N (fun j => (get A i j * (c * w j))%C))%C;
    [|ring].
  rewrite <- (identity_plus_apply N i (- h)%C (get A i) (fun j => (c * w j)%C) Hi).
  apply bigsum_ext. intros j Hj.
  rewrite (fp_get_X i j Hi Hj), (fp_get_U j Hj). cbn [smul C_scalar]. ring.
Qed.

Lemma fp_YU (i : nat) :
  (i < N)%nat ->
  get (mat_mul Y U) i 0 =
  (c * w i + h * (c * (g * w i - vget (ravel Bc) i)))%C.
Proof.
  intros Hi. destruct fp_Y_shape as (_ & HrY & HcY).
  rewrite get_mat_mul by (simpl; lia). fold A. rewrite HcY.
  rewrite <- (fp_A_u i Hi).
  rewrite <- (identity_plus_apply N i h (get A i) (fun j => (c * w j)%C) Hi).
  apply bigsum_ext. intros j Hj.
  rewrite (fp_get_Y i j Hi Hj), (fp_get_U j Hj). cbn [smul C_scalar]. ring.
Qed.

(** [X u - z Y u = step b]. *)
Lemma fp_bilinear_entry (i : nat) :
  (i < N)%nat ->
  (get (mat_mul X U) i 0 - z * get (mat_mul Y U) i 0)%C =
  (RtoC step * vget (ravel Bc) i)%C.
Proof.
  intros Hi. rewrite (fp_XU i Hi), (fp_YU i Hi).
  destruct Hreg as (Hz & _ & _).
  unfold c, g, h, bilinear_c, bilinear_g.
  rewrite !RtoC_div by (try exact Hstep; lra). rewrite !RtoC_two.
  apply bilinear_cancel.
  - apply RtoC_neq_0. exact Hstep.
  - exact Hz.
  - reflexivity.
Qed.

Lemma fp_bilinear_column :
  mzip Csub (mat_mul X U) (mmap (Cmul z) (mat_mul Y U)) =
  mmap (Cmul (RtoC step)) Bc.
Proof.
  destruct fp_X_shape as (_ & HrX & HcX). destruct HB as (HwfB & HrB & HcB).
  apply mat_ext.
  - apply wf_tab2.
  - apply wf_mmap. exact HwfB.
  - simpl. fold A. rewrite HLam. symmetry. exact HrB.
  - simpl. symmetry. exact HcB.
  - simpl nrows. simpl ncols. fold A. rewrite HLam.
    intros i j Hi Hj. assert (j = 0%nat) as -> by lia.
    rewrite get_mzip by (simpl; lia).
    rewrite get_mmap by (try apply wf_tab2; simpl; lia).
    rewrite (fp_bilinear_entry i Hi).
    rewrite get_mmap by (try exact HwfB; lia).
    rewrite (vget_ravel_column Bc N i HB Hi). reflexivity.
Qed.

(** [Bbar = u - z Abar u]: the vector [u] is [(I - z Abar)^-1 Bbar]. *)
Lemma fp_Bbar :
  Bbar = mzip Csub U (mmap (Cmul z) (mat_mul Abar U)).
Proof.
  destruct fp_X_shape as (HwfX & HrX & HcX). destruct fp_Y_shape as (HwfY & HrY & HcY).
  destruct fp_M_shape as (HwfM & HrM & HcM). destruct HB as (HwfB & HrB & HcB).
  destruct fp_U_shape as (HwfU & HrU & HcU).
  assert (E : Bbar = mat_mul M (mmap (Cmul (RtoC step)) Bc)).
  { exact (mat_mul_scal_swap (RtoC step) M Bc HwfM HwfB
             (eq_trans HcM (eq_sym HrB))). }
  rewrite E, <- fp_bilinear_column.
  change (mzip Csub) with (mzip (@ssub complex C_scalar)).
  rewrite mat_mul_sub_r by (simpl; congruence).
  f_equal.
  - rewrite <- mat_mul_assoc by congruence.
    rewrite fp_MX, <- HrU. apply mat_mul_eye_l. exact HwfU.
  - change (mmap (Cmul z)) with (mmap (@smul complex C_scalar z)).
    rewrite mat_mul_scal_r by (try apply wf_tab2; simpl; congruence).
    unfold Abar. rewrite mat_mul_assoc by congruence. reflexivity.
Qed.

(** A row times [Bbar]. *)
Lemma fp_row_Bbar (R : matrix complex) :
  ncols R = N ->
  mat_mul R Bbar =
  mzip Csub (mat_mul R U) (mmap (Cmul z) (mat_mul (mat_mul R Abar) U)).
Proof.
  intros HcR. destruct fp_Abar_shape as (HwfA & HrA & HcA).
  destruct fp_U_shape as (HwfU & HrU & HcU).
  destruct fp_M_shape as (_ & HrM & _).
  rewrite fp_Bbar.
  change (mzip Csub) with (mzip (@ssub complex C_scalar)).
  rewrite mat_mul_sub_r by (simpl; congruence).
  f_equal.
  change (mmap (Cmul z)) with (mmap (@smul complex C_scalar z)).
  rewrite mat_mul_scal_r by (try apply wf_tab2; simpl; congruence).
  rewrite mat_mul_assoc by congruence. reflexivity.
Qed.

Let T := fun l => get (mat_mul (mat_mul Cc (mat_pow Abar l)) U) 0 0.

(** [K_l = T_l - z T_(l+1)], for [T_l = C Abar^l u]. *)
Lemma fp_kernel_entry (l : nat) : Kl l = (T l - z * T (S l))%C.
Proof.
  destruct HC as (HwfC & HrC & HcC).
  destruct (fp_pow_shape l) as (_ & HrP & HcP).
  destruct fp_Abar_shape as (HwfA & HrA & HcA).
  unfold Kl, T.
  rewrite fp_row_Bbar by (simpl; exact HcP).
  rewrite get_mzip by (simpl; lia).
  rewrite get_mmap by (try apply wf_tab2; simpl; lia).
  rewrite (mat_mul_assoc Cc (mat_pow Abar l) Abar) by congruence.
  rewrite (mat_pow_comm Abar l HwfA) by congruence.
  reflexivity.
Qed.

Lemma fp_telescope (n : nat) :
  bigsum n (fun l => (Kl l * Cpow z l)%C) = (T 0 - T n * Cpow z n)%C.
Proof.
  induction n as [|n IH].
  - rewrite bigsum_0. cbn [s0 C_scalar]. simpl Cpow. ring.
  - rewrite bigsum_S, IH, fp_kernel_entry. cbn [sadd C_scalar]. simpl Cpow. ring.
Qed.

(** [conj(Ct) . u = T_0 - T_L]. *)
Lemma fp_Ct_dot :
  bigsum N (fun i => (vget (map Cconj Ct) i * (c * w i))%C) = (T 0 - T L)%C.
Proof.
  destruct HC as (HwfC & HrC & HcC).
  destruct (fp_pow_shape L) as (_ & HrP & HcP).
  destruct fp_Abar_shape as (HwfA & HrA & HcA).
  unfold T. change (mat_pow Abar 0) with (@eye complex C_scalar (nrows Abar)).
  replace (nrows Abar) with (ncols Cc) by congruence.
  rewrite (mat_mul_eye_r Cc HwfC).
  rewrite !get_mat_mul by (simpl; lia).
  change (ncols (mat_mul Cc (mat_pow Abar L))) with (ncols (mat_pow Abar L)).
  rewrite HcC, HcP, <- Cbigsum_sub. fold AL.
  apply bigsum_ext. intros i Hi.
  rewrite (fp_conj_Ct i Hi), (fp_get_U i Hi). cbn [smul C_scalar]. ring.
Qed.

(** At an [L]-th root of unity the closed form of [K_gen_DPLR] is the
    truncated generating function of the naive kernel. *)
Lemma fp_gen_value :
  Cpow z L = C1 ->
  woodbury Lambda g c (map Cconj Ct) (map Cconj q) (ravel Bc) p =
  bigsum L (fun l => (Kl l * Cpow z l)%C).
Proof.
  intros HzL. rewrite woodbury_dot, HLam, <- Cbigsum_scal_l.
  rewrite fp_telescope, HzL.
  replace (T 0 - T L * C1)%C with (T 0 - T L)%C by ring.
  rewrite <- fp_Ct_dot.
  apply bigsum_ext. intros i _. fold w. ring.
Qed.

End SampledPoint.

(** The kernel of the naive path. *)
Lemma fp_naive_kernel : K_conv Abar Bbar Cc L = Ok (tab1 L Kl).
Proof.
  destruct HC as (HwfC & HrC & HcC). destruct HB as (HwfB & HrB & HcB).
  destruct fp_Abar_shape as (HwfA & HrA & HcA).
  destruct fp_M_shape as (_ & HrM & HcM).
  unfold K_conv, tab1. apply mapM_ok. intros l _.
  destruct (fp_pow_shape l) as (_ & HrP & HcP).
  unfold matrix_power. rewrite HrA, HcA, Nat.eqb_refl. cbn [bind].
  unfold matmul at 1. rewrite HcC, HrP, Nat.eqb_refl. cbn [bind].
  unfold matmul.
  change (ncols (mat_mul Cc (mat_pow Abar l))) with (ncols (mat_pow Abar l)).
  change (nrows Bbar) with (nrows M).
  rewrite HcP, HrM, Nat.eqb_refl. cbn [bind].
  unfold reshape0.
  change (nrows (mat_mul (mat_mul Cc (mat_pow Abar l)) Bbar)) with (nrows Cc).
  change (ncols (mat_mul (mat_mul Cc (mat_pow Abar l)) Bbar)) with (ncols Bc).
  rewrite HrC, HcB. reflexivity.
Qed.

End FastPath.

Lemma get_mcomplex_total (m : matrix R) (i j : nat) :
  get (mcomplex m) i j = RtoC (get m i j).
Proof.
  unfold get, mcomplex. simpl.
  change (@nil complex) with (map RtoC []).
  rewrite (map_nth (map RtoC)).
  change (@s0 complex C_scalar) with (RtoC 0).
  apply (map_nth RtoC).
Qed.

Lemma step_nonzero (L : nat) : (0 < L)%nat -> 1.0 / INR L <> 0.
Proof.
  intros HL. pose proof (INR_pos_neq L HL) as HL'.
  unfold Rdiv. apply Rmult_integral_contrapositive. split; [lra|].
  apply Rinv_neq_0_compat. exact HL'.
Qed.

(** *** The oscillator example *)

Lemma osc_M_inverse :
  is_inverse (bilinear_minus (DPLR_matrix osc_Lambda ex_p ex_q) (1.0 / INR 1)) osc_M.
Proof.
  split; [apply (has_shape_1x1 (mkC (3 / 5) (1 / 5)))|].
  split; [reflexivity|]. split; [reflexivity|].
  split; unfold mat_mul, eye, tab2, bigsum; simpl; repeat f_equal;
    apply complex_eq; simpl; lra.
Qed.

Lemma osc_regular (k : nat) :
  (k < 1)%nat -> regular_point osc_Lambda ex_p ex_q (1.0 / INR 1) (unit_root 1 k).
Proof.
  intros Hk. assert (k = 0%nat) as -> by lia. rewrite unit_root_0.
  assert (Hg : bilinear_g (1.0 / INR 1) C1 = C0) by eval_complex.
  split; [|split].
  - intros H. apply (f_equal re) in H. simpl in H. lra.
  - intros i Hi. simpl in Hi. assert (i = 0%nat) as -> by lia.
    rewrite Hg. intros H. apply (f_equal im) in H. simpl in H. lra.
  - rewrite Hg.
    replace (C1 + cauchy_k osc_Lambda C0 (map Cconj ex_q) ex_p)%C with C1.
    + intros H. apply (f_equal re) in H. simpl in H. lra.
    + unfold cauchy_k, bigsum, ex_p, ex_q, osc_Lambda. simpl.
      unfold Cdiv. cbv [vget nth]. ring.
Qed.

Lemma osc_kernel_entry :
  kernel_entry
    (mat_mul osc_M (bilinear_plus (DPLR_matrix osc_Lambda ex_p ex_q) (1.0 / INR 1)))
    (mat_mul (mscale osc_M (1.0 / INR 1)) (mcomplex osc_B))
    (mcomplex osc_C) 0 = mkC (3 / 5) (1 / 5).
Proof. eval_complex. Qed.

(** The transition matrix bound by [S4LayerInit] has the DPLR form the
    fast path assumes. *)
Lemma S4LayerInit_DPLR (N : nat) (A : matrix complex) (p q Lambda : list complex) :
  S4LayerInit N = Ok (A, p, q, Lambda) -> A = DPLR_matrix Lambda p q.
Proof.
  unfold S4LayerInit. destruct (make_DPLR_HiPPO N) as [[[[hippo Lam] p0] q0] V].
  destruct (matvec (conjT V) (map RtoC p0)) as [p1|]; [|discriminate].
  cbn [bind].
  destruct (matvec (conjT V) (map Cconj (map RtoC q0))) as [q1|]; [|discriminate].
  cbn [bind]. intros H. injection H as <- <- <- <-. reflexivity.
Qed.

(** For an odd length no sampled root of unity is [-1]. *)
Lemma odd_length_avoids_minus_one (L k : nat) :
  Nat.Odd L -> (k < L)%nat -> (C1 + unit_root L k)%C <> C0.
Proof.
  intros Hodd Hk H.
  assert (HL : 0 < INR L) by (apply lt_0_INR; lia).
  assert (Hk0 : 0 <= INR k) by apply pos_INR.
  assert (HkL : INR k < INR L) by (apply lt_INR; exact Hk).
  pose proof PI_RGT_0 as Hpi.
  set (x := 2 * PI * INR k / INR L) in *.
  assert (Hx0 : 0 <= x).
  { unfold x. unfold Rdiv. apply Rmult_le_pos; [nra|].
    apply Rlt_le, Rinv_0_lt_compat. exact HL. }
  assert (Hx2 : x < 2 * PI).
  { unfold x. apply (Rmult_lt_reg_r (INR L)); [exact HL|].
    unfold Rdiv. rewrite Rmult_assoc, Rinv_l by lra. nra. }
  pose proof (f_equal re H) as Hc. pose proof (f_equal im H) as Hs.
  unfold unit_root in Hc, Hs. fold x in Hc, Hs. simpl in Hc, Hs.
  assert (Hsin : sin x = 0) by lra.
  destruct (sin_eq_O_2PI_0 x Hx0 (Rlt_le _ _ Hx2) Hsin) as [E|[E|E]]; try lra.
  - rewrite E, cos_0 in Hc. lra.
  - assert (E2 : 2 * INR k = INR L).
    { unfold x in E. apply (Rmult_eq_reg_l PI); [|lra].
      apply (f_equal (fun t => t * INR L)) in E.
      unfold Rdiv in E. rewrite Rmult_assoc, Rinv_l, Rmult_1_r in E by lra.
      lra. }
    assert (E3 : (2 * k)%nat = L).
    { apply INR_eq. rewrite mult_INR. simpl. lra. }
    destruct Hodd as [m Hm]. lia.
Qed.

(** For an even length the root of index [L/2] is [-1], where [c(z)] and
    [g(z)] divide by zero. *)
Lemma even_length_samples_minus_one (k : nat) :
  (0 < k)%nat -> (C1 + unit_root (2 * k) k)%C = C0.
Proof.
  intros Hk. unfold unit_root.
  assert (Hk' : INR k <> 0) by (apply INR_pos_neq; exact Hk).
  replace (2 * PI * INR k / INR (2 * k)) with PI
    by (rewrite mult_INR; simpl; field; exact Hk').
  rewrite cos_PI, sin_PI. apply complex_eq; simpl; lra.
Qed.

(** * Further properties *)

(** ** The recurrent mode *)

Section RecurrenceFacts.
Context {T : Type} `{ScalarLaws T}.
Add Ring scalar_ring_rec : scalar_ring.

Lemma matvec_ok (m : matrix T) (v : list T) :
  ncols m = length v ->
  matvec m v = Ok (tab1 (nrows m) (fun i =>
                     bigsum (ncols m) (fun j => smul (get m i j) (vget v j)))).
Proof. intros Hc. unfold matvec. rewrite Hc, Nat.eqb_refl. reflexivity. Qed.

Variables (N : nat) (A B C : matrix T).
Hypothesis HA : has_shape A N N.
Hypothesis HB : has_shape B N 1.
Hypothesis HC : has_shape C 1 N.

(** The row vector [C A^l] and the scalar [C A^l B]. *)
Let c (l i : nat) : T := get (mat_mul C (mat_pow A l)) 0 i.
Let k (l : nat) : T := get (mat_mul (mat_mul C (mat_pow A l)) B) 0 0.

Lemma rec_pow_shape (l : nat) : has_shape (mat_pow A l) N N.
Proof.
  destruct HA as (HwfA & HrA & HcA).
  destruct (mat_pow_shape A l) as (Hwf & Hr & Hc); [congruence|].
  split; [exact Hwf|]. split; congruence.
Qed.

Lemma rec_row_0 (j : nat) : (j < N)%nat -> c 0 j = get C 0 j.
Proof.
  intros Hj. destruct HA as (HwfA & HrA & HcA). destruct HC as (HwfC & HrC & HcC).
  unfold c. simpl mat_pow. rewrite HrA, <- HcC, (mat_mul_eye_r C HwfC). reflexivity.
Qed.

Lemma rec_row_S (l j : nat) :
  (j < N)%nat -> c (S l) j = bigsum N (fun i => smul (c l i) (get A i j)).
Proof.
  intros Hj. destruct HA as (HwfA & HrA & HcA). destruct HC as (HwfC & HrC & HcC).
  destruct (rec_pow_shape l) as (HwfP & HrP & HcP).
  unfold c. simpl mat_pow.
  rewrite <- (mat_pow_comm A l HwfA) by congruence.
  rewrite <- mat_mul_assoc by congruence.
  rewrite get_mat_mul by (simpl; lia).
  simpl ncols. rewrite HcP. reflexivity.
Qed.

Lemma rec_kernel (l : nat) : k l = bigsum N (fun i => smul (c l i) (get B i 0)).
Proof.
  destruct HB as (HwfB & HrB & HcB). destruct HC as (HwfC & HrC & HcC).
  destruct (rec_pow_shape l) as (HwfP & HrP & HcP).
  unfold k, c. rewrite get_mat_mul by (simpl; lia).
  simpl ncols. rewrite HcP. reflexivity.
Qed.

(** One step on a state of length [N] and an input [[a]]. *)
Lemma stepSSM_value (x : list T) (a : T) :
  length x = N ->
  exists x1,
    stepSSM A B C x [a] =
      Ok (x1, [bigsum N (fun j => smul (get C 0 j) (vget x1 j))]) /\
    length x1 = N /\
    forall i, (i < N)%nat ->
      vget x1 i = sadd (bigsum N (fun j => smul (get A i j) (vget x j)))
                       (smul (get B i 0) a).
Proof.
  intros Hx. destruct HA as (HwfA & HrA & HcA). destruct HB as (HwfB & HrB & HcB).
  destruct HC as (HwfC & HrC & HcC).
  unfold stepSSM.
  rewrite (matvec_ok A x) by congruence. cbn [bind].
  rewrite (matvec_ok B [a]) by (simpl; congruence). cbn [bind].
  rewrite vbroadcast_same by (rewrite !tab1_length; congruence). cbn [bind].
  rewrite tab1_length, HrA, HcA, HcB, HrB.
  rewrite matvec_ok by (rewrite tab1_length; exact HcC). cbn [bind].
  rewrite HrC, HcC.
  eexists. split; [reflexivity|]. split; [apply tab1_length|].
  intros i Hi. rewrite !vget_tab1 by assumption.
  f_equal. unfold bigsum. simpl. unfold vget. simpl. ring.
Qed.

Lemma rec_row_apply (l : nat) (x x1 : list T) (a : T) :
  (forall i, (i < N)%nat ->
     vget x1 i = sadd (bigsum N (fun j => smul (get A i j) (vget x j)))
                      (smul (get B i 0) a)) ->
  bigsum N (fun i => smul (c l i) (vget x1 i)) =
  sadd (bigsum N (fun m => smul (c (S l) m) (vget x m))) (smul (k l) a).
Proof.
  intros Hx1.
  rewrite (bigsum_ext N _ (fun i =>
    sadd (bigsum N (fun j => smul (smul (c l i) (get A i j)) (vget x j)))
         (smul (smul (c l i) (get B i 0)) a))).
  2:{ intros i Hi. rewrite (Hx1 i Hi).
      rewrite (bigsum_ext N (fun j => smul (smul (c l i) (get A i j)) (vget x j))
                 (fun j => smul (c l i) (smul (get A i j) (vget x j))))
        by (intros; ring).
      rewrite bigsum_scal_l. ring. }
  rewrite bigsum_add, bigsum_swap, bigsum_scal_r, <- rec_kernel. f_equal.
  apply bigsum_ext. intros m Hm. rewrite (rec_row_S l m Hm), <- bigsum_scal_r.
  reflexivity.
Qed.

(** The outputs of the recurrence started in the state [x]. *)
Lemma scan_stepSSM (us : list (list T)) : forall x : list T,
  length x = N -> Forall (fun r => length r = 1%nat) us ->
  scan (stepSSM A B C) x us =
    Ok (map (fun l =>
          [sadd (bigsum N (fun i => smul (c (S l) i) (vget x i)))
                (bigsum (S l) (fun t => smul (k (l - t)) (vget (nth t us []) 0)))])
        (seq 0 (length us))).
Proof.
  induction us as [|r tl IH]; intros x Hx Hall.
  - reflexivity.
  - pose proof (Forall_inv Hall) as Hr. pose proof (Forall_inv_tail Hall) as Htl.
    destruct r as [|a [|b r]]; try discriminate.
    destruct (stepSSM_value x a Hx) as [x1 (Hstep & Hlen & Hx1)].
    cbn [scan]. rewrite Hstep. cbn [bind fst snd].
    rewrite Hlen, Hx, Nat.eqb_refl.
    rewrite (IH x1 Hlen Htl). cbn [bind]. f_equal.
    cbn [length]. rewrite <- cons_seq, <- seq_shift. cbn [map]. rewrite map_map.
    f_equal.
    + f_equal.
      rewrite <- (bigsum_ext N (fun j => smul (c 0 j) (vget x1 j)))
        by (intros j Hj; rewrite (rec_row_0 j Hj); reflexivity).
      rewrite (rec_row_apply 0 x x1 a Hx1). f_equal.
      unfold bigsum. simpl. unfold vget. simpl. ring.
    + apply map_ext. intros l. f_equal.
      rewrite (rec_row_apply (S l) x x1 a Hx1).
      rewrite (bigsum_S_l (S l)). cbn [nth Nat.sub].
      change (vget [a] 0) with a. ring.
Qed.

(** The recurrence started in the zero state, on an input of shape [(L, 1)]. *)
Lemma scanSSM_closed_form (L : nat) (u : matrix T) :
  has_shape u L 1 ->
  scanSSM (stepSSM A B C) u (zeros N) =
    Ok (map (fun l =>
          [bigsum (S l) (fun t =>
             smul (get (mat_mul (mat_mul C (mat_pow A (l - t))) B) 0 0) (get u t 0))])
        (seq 0 L)).
Proof.
  intros ((Hlen & Hrows) & Hr & Hc). unfold scanSSM.
  rewrite Hc, Nat.eqb_refl. rewrite Hc in Hrows.
  rewrite (scan_stepSSM (rows u) (zeros N)); [|apply repeat_length|exact Hrows].
  rewrite Hlen, Hr. f_equal. apply map_ext. intros l. f_equal.
  rewrite (bigsum_zero N).
  - fold (k 0). unfold get, vget.
    transitivity (bigsum (S l) (fun t => smul (k (l - t)) (nth 0 (nth t (rows u) []) s0)));
      [ring|reflexivity].
  - intros i Hi. unfold vget, zeros.
    rewrite nth_repeat. ring.
Qed.

End RecurrenceFacts.

Lemma newaxis_shape {T : Type} (v : list T) : has_shape (newaxis v) (length v) 1.
Proof.
  split; [|split; reflexivity]. unfold wf, newaxis. simpl. split.
  - apply length_map.
  - apply Forall_forall. intros r Hr. apply in_map_iff in Hr.
    destruct Hr as [x [<- _]]. reflexivity.
Qed.

Lemma get_newaxis {T : Type} `{Scalar T} (v : list T) (t : nat) :
  get (newaxis v) t 0 = vget v t.
Proof.
  unfold get, newaxis, vget. simpl. revert t.
  induction v as [|x v IH]; intros [|t]; simpl; try reflexivity. apply IH.
Qed.

Lemma vget_map_RtoC (v : list R) (i : nat) : vget (map RtoC v) i = RtoC (vget v i).
Proof.
  unfold vget. change (@s0 complex C_scalar) with (RtoC 0). apply (map_nth RtoC).
Qed.

(** The naive kernel, entry by entry, for operands of matching shapes. *)
Lemma K_conv_entries (N : nat) (A B C : matrix complex) (L : nat) :
  has_shape A N N -> has_shape B N 1 -> has_shape C 1 N ->
  K_conv A B C L = Ok (tab1 L (kernel_entry A B C)).
Proof.
  intros (HwfA & HrA & HcA) (HwfB & HrB & HcB) (HwfC & HrC & HcC).
  unfold K_conv, tab1. apply mapM_ok. intros l _.
  destruct (mat_pow_shape A l) as (_ & HrP & HcP); [congruence|].
  unfold matrix_power. rewrite HrA, HcA, Nat.eqb_refl. cbn [bind].
  unfold matmul at 1. rewrite HcC, HrP, HrA, Nat.eqb_refl. cbn [bind].
  unfold matmul.
  change (ncols (mat_mul C (mat_pow A l))) with (ncols (mat_pow A l)).
  rewrite HcP, HrA, HrB, Nat.eqb_refl. cbn [bind].
  unfold reshape0.
  change (nrows (mat_mul (mat_mul C (mat_pow A l)) B)) with (nrows C).
  change (ncols (mat_mul (mat_mul C (mat_pow A l)) B)) with (ncols B).
  rewrite HrC, HcB. reflexivity.
Qed.

(** The truncated convolution, entry by entry, whatever the length of
    the kernel. *)
Lemma nonCircularConvolution_entries (u K : list R) :
  u <> [] -> K <> [] ->
  nonCircularConvolution u K =
    Ok (tab1 (length u) (fun l =>
          bigsum (S l) (fun t => vget u t * vget K (l - t)))).
Proof.
  intros Hu HK. unfold nonCircularConvolution, convolve.
  destruct u as [|u0 u]; [contradiction|]. destruct K as [|k0 K]; [contradiction|].
  cbn [length Nat.eqb orb bind].
  rewrite firstn_tab1 by lia. f_equal.
  apply tab1_ext. intros l Hl.
  exact (bigsum_trunc (S (length u)) l
           (fun m => vget (u0 :: u) m * vget (k0 :: K) (l - m)) Hl).
Qed.

(** The discretized system of a float SSM. *)
Lemma discretize_shapes (N : nat) (A B C M : matrix complex) (step : R) :
  has_shape A N N -> has_shape B N 1 -> has_shape C 1 N ->
  is_inverse (bilinear_minus A step) M ->
  has_shape (mat_mul M (bilinear_plus A step)) N N /\
  has_shape (mat_mul (mscale M step) B) N 1.
Proof.
  intros (HwfA & HrA & HcA) (HwfB & HrB & HcB) _ (HwfM & HrM & HcM & _).
  simpl in HrM, HcM. split.
  - split; [apply wf_tab2|]. simpl. split; congruence.
  - split; [apply wf_tab2|]. simpl. split; congruence.
Qed.

Lemma example_both_value (N : nat) (A B C : matrix R) (u : list R) (M : matrix complex) :
  has_shape A N N -> has_shape B N 1 -> has_shape C 1 N ->
  u <> [] ->
  is_inverse (bilinear_minus (mcomplex A) (1.0 / INR (length u))) M ->
  let Abar := mat_mul M (bilinear_plus (mcomplex A) (1.0 / INR (length u))) in
  let Bbar := mat_mul (mscale M (1.0 / INR (length u))) (mcomplex B) in
  let conv := tab1 (length u) (fun l =>
                bigsum (S l) (fun t =>
                  re (kernel_entry Abar Bbar (mcomplex C) (l - t)) * vget u t)) in
  runSSM A B C u = Ok (map (fun y => [y]) conv) /\
  example_both A B C u = Ok (map (fun y => [y]) conv, conv).
Proof.
  intros HA HB HC Hu HM Abar Bbar conv.
  pose proof (mcomplex_shape A N N HA) as HAc.
  pose proof (mcomplex_shape B N 1 HB) as HBc.
  pose proof (mcomplex_shape C 1 N HC) as HCc.
  destruct (discretize_shapes N _ _ _ M _ HAc HBc HCc HM) as [HAbar HBbar].
  fold Abar in HAbar. fold Bbar in HBbar.
  assert (Hd : discretize (mcomplex A) (mcomplex B) (mcomplex C)
                 (1.0 / INR (length u)) = Ok (Abar, Bbar, mcomplex C)).
  { apply (discretize_value N); [exact HAc| |exact HM].
    destruct HBc as (_ & HrB & _). exact HrB. }
  assert (HL : (length u =? 0)%nat = false).
  { destruct u; [contradiction|reflexivity]. }
  assert (Hrec : scanSSM (stepSSM Abar Bbar (mcomplex C)) (newaxis (map RtoC u))
                   (zeros (nrows Abar)) =
                 Ok (map (fun l =>
                       [bigsum (S l) (fun t =>
                          (kernel_entry Abar Bbar (mcomplex C) (l - t)
                           * RtoC (vget u t))%C)])
                     (seq 0 (length u)))).
  { destruct HAbar as (HwfAb & HrAb & HcAb). rewrite HrAb.
    rewrite (scanSSM_closed_form N Abar Bbar (mcomplex C)
               (conj HwfAb (conj HrAb HcAb)) HBbar HCc (length u)).
    - f_equal. apply map_ext. intros l. f_equal.
      apply bigsum_ext. intros t _.
      rewrite get_newaxis, vget_map_RtoC. reflexivity.
    - rewrite <- (length_map RtoC u). apply newaxis_shape. }
  assert (Hmap : map (map re)
            (map (fun l =>
               [bigsum (S l) (fun t =>
                  (kernel_entry Abar Bbar (mcomplex C) (l - t) * RtoC (vget u t))%C)])
               (seq 0 (length u))) = map (fun y => [y]) conv).
  { unfold conv, tab1. rewrite !map_map. apply map_ext. intros l.
    cbn [map]. f_equal. rewrite re_bigsum. apply bigsum_ext. intros t _.
    simpl. ring. }
  split.
  - unfold runSSM. rewrite HL, Hd. cbn [bind]. rewrite Hrec. cbn [bind].
    rewrite Hmap. reflexivity.
  - unfold example_both. rewrite HL, Hd. cbn [bind]. rewrite Hrec. cbn [bind].
    rewrite (K_conv_entries N Abar Bbar (mcomplex C) (length u) HAbar HBbar HCc).
    cbn [bind].
    rewrite nonCircularConvolution_entries.
    + cbn [bind]. rewrite Hmap. f_equal. f_equal.
      apply tab1_ext. intros l Hl. apply bigsum_ext. intros t Ht.
      unfold vget at 2. rewrite (nth_indep _ _ (re C0))
        by (rewrite length_map, tab1_length; lia).
      rewrite (map_nth re).
      change (nth (l - t) (tab1 (length u) (kernel_entry Abar Bbar (mcomplex C))) C0)
        with (vget (tab1 (length u) (kernel_entry Abar Bbar (mcomplex C))) (l - t)).
      rewrite vget_tab1 by lia. apply Rmult_comm.
    + exact Hu.
    + destruct u; [contradiction|]. discriminate.
Qed.

Lemma mass_det_pos (k b m step : R) :
  0 < m -> 0 <= k -> 0 <= b -> 0 <= step -> 0 < mass_det k b m step.
Proof.
  intros Hm Hk Hb Hs. unfold mass_det.
  assert (Hbm : 0 <= b / m) by (apply Rle_mult_inv_pos; assumption).
  assert (Hkm : 0 <= k / m) by (apply Rle_mult_inv_pos; assumption).
  assert (H1 : 0 <= step / 2 * (b / m)) by (apply Rmult_le_pos; lra).
  assert (H2 : 0 <= step / 2 * (step / 2) * (k / m)).
  { apply Rmult_le_pos; [|exact Hkm]. apply Rmult_le_pos; lra. }
  lra.
Qed.

Lemma mass_inverse_ok (k b m step : R) :
  0 < m -> 0 <= k -> 0 <= b -> 0 <= step ->
  is_inverse (bilinear_minus (mcomplex (mass_A k b m)) step) (mass_inverse k b m step).
Proof.
  intros Hm Hk Hb Hs.
  pose proof (mass_det_pos k b m step Hm Hk Hb Hs) as Hd.
  split.
  { split; [reflexivity|]. repeat constructor. }
  split; [reflexivity|]. split; [reflexivity|].
  assert (Hsb : 0 <= step * b) by (apply Rmult_le_pos; assumption).
  assert (Hssk : 0 <= step * step * k).
  { apply Rmult_le_pos; [|exact Hk]. apply Rmult_le_pos; exact Hs. }
  split; unfold mat_mul, eye, tab2, bigsum, mass_inverse, mass_det; simpl;
    repeat f_equal; apply complex_eq; simpl; field; lra.
Qed.

(** The triple returned by [example_mass] for a non-zero mass. *)
Lemma example_mass_value (k b m : R) :
  m <> 0 -> example_mass k b m = Ok (mass_A k b m, mass_B m, mass_C).
Proof.
  intros Hm. unfold example_mass. destruct (Req_dec_T m 0); [contradiction|reflexivity].
Qed.

Lemma mass_shapes (k b m : R) :
  has_shape (mass_A k b m) 2 2 /\ has_shape (mass_B m) 2 1 /\ has_shape mass_C 1 2.
Proof.
  repeat split; repeat constructor.
Qed.


(** X1: started in the zero state on operands of shapes [(N, N)],
    [(N, 1)] and [(1, N)], the scan of [stepSSM] over an input of shape
    [(L, 1)] returns [L] outputs of shape [(1,)], the one of index [l]
    being [sum_{t <= l} (C A^(l-t) B) u[t]]. *)
Theorem scanSSM_unrolls_recurrence {T : Type} `{ScalarLaws T} (N L : nat)
    (A B C u : matrix T) :
  has_shape A N N -> has_shape B N 1 -> has_shape C 1 N -> has_shape u L 1 ->
  scanSSM (stepSSM A B C) u (zeros N) =
    Ok (map (fun l =>
          [bigsum (S l) (fun t =>
             smul (get (mat_mul (mat_mul C (mat_pow A (l - t))) B) 0 0) (get u t 0))])
        (seq 0 L)).
Proof.
  intros HA HB HC Hu. exact (scanSSM_closed_form N A B C HA HB HC L u Hu).
Qed.

Lemma scanSSM_unrolls_recurrence_witness :
  scanSSM (stepSSM (mass_A 1 1 1) (mass_B 1) mass_C) (newaxis [1; 2; 3]) (zeros 2) =
    Ok (map (fun l =>
          [bigsum (S l) (fun t =>
             smul (get (mat_mul (mat_mul mass_C (mat_pow (mass_A 1 1 1) (l - t)))
                          (mass_B 1)) 0 0)
                  (get (newaxis [1; 2; 3]) t 0))])
        (seq 0 3)).
Proof.
  apply (scanSSM_unrolls_recurrence 2 3 (mass_A 1 1 1) (mass_B 1) mass_C
           (newaxis [1; 2; 3])).
  - apply (mass_shapes 1 1 1).
  - apply (mass_shapes 1 1 1).
  - apply (mass_shapes 1 1 1).
  - apply (newaxis_shape [1; 2; 3]).
Defined.

(** X2: for a float SSM of matching shapes, a non-empty input [u] and
    an invertible [I - (step/2) A] at [step = 1/len(u)], the recurrent and
    the convolutional modes agree: [example_both] returns [(rec, conv)]
    with [rec = conv[:, np.newaxis]], [rec] is what [runSSM] returns, and
    [conv[l] = sum_{t <= l} (Cbar Abar^(l-t) Bbar) u[t]]. *)
Theorem example_both_rec_equals_conv (N : nat) (A B C : matrix R) (u : list R)
    (M : matrix complex) :
  has_shape A N N -> has_shape B N 1 -> has_shape C 1 N ->
  u <> [] ->
  is_inverse (bilinear_minus (mcomplex A) (1.0 / INR (length u))) M ->
  exists conv,
    example_both A B C u = Ok (map (fun y => [y]) conv, conv) /\
    runSSM A B C u = Ok (map (fun y => [y]) conv) /\
    length conv = length u /\
    forall l, (l < length u)%nat ->
      vget conv l =
        bigsum (S l) (fun t =>
          re (kernel_entry
                (mat_mul M (bilinear_plus (mcomplex A) (1.0 / INR (length u))))
                (mat_mul (mscale M (1.0 / INR (length u))) (mcomplex B))
                (mcomplex C) (l - t)) * vget u t).
Proof.
  intros HA HB HC Hu HM.
  destruct (example_both_value N A B C u M HA HB HC Hu HM) as [Hrun Hboth].
  eexists. split; [exact Hboth|]. split; [exact Hrun|].
  split; [apply tab1_length|].
  intros l Hl. rewrite vget_tab1 by exact Hl. reflexivity.
Qed.

Lemma ex_u_step : 0 <= 1.0 / INR (length ex_u).
Proof.
  apply Rlt_le, Rdiv_lt_0_compat; [lra|]. apply lt_0_INR. simpl. lia.
Qed.

Lemma example_both_rec_equals_conv_witness :
  exists conv,
    example_both (mass_A 1 1 1) (mass_B 1) mass_C ex_u =
      Ok (map (fun y => [y]) conv, conv) /\
    runSSM (mass_A 1 1 1) (mass_B 1) mass_C ex_u = Ok (map (fun y => [y]) conv) /\
    length conv = length ex_u /\
    forall l, (l < length ex_u)%nat ->
      vget conv l =
        bigsum (S l) (fun t =>
          re (kernel_entry
                (mat_mul (mass_inverse 1 1 1 (1.0 / INR (length ex_u)))
                   (bilinear_plus (mcomplex (mass_A 1 1 1)) (1.0 / INR (length ex_u))))
                (mat_mul (mscale (mass_inverse 1 1 1 (1.0 / INR (length ex_u)))
                            (1.0 / INR (length ex_u)))
                   (mcomplex (mass_B 1)))
                (mcomplex mass_C) (l - t)) * vget ex_u t).
Proof.
  apply (example_both_rec_equals_conv 2 (mass_A 1 1 1) (mass_B 1) mass_C ex_u
           (mass_inverse 1 1 1 (1.0 / INR (length ex_u)))).
  - apply (mass_shapes 1 1 1).
  - apply (mass_shapes 1 1 1).
  - apply (mass_shapes 1 1 1).
  - discriminate.
  - apply mass_inverse_ok; try lra. exact ex_u_step.
Defined.

(** X3: for a positive mass, non-negative spring and friction constants
    and a non-negative step, the system built by [example_mass] has an
    invertible [I - (step/2) A], so that [discretize] returns its bilinear
    transform. *)
Theorem example_mass_discretizes (k b m step : R) :
  0 < m -> 0 <= k -> 0 <= b -> 0 <= step ->
  exists A B C M,
    example_mass k b m = Ok (A, B, C) /\
    has_shape A 2 2 /\ has_shape B 2 1 /\ has_shape C 1 2 /\
    is_inverse (bilinear_minus (mcomplex A) step) M /\
    discretize (mcomplex A) (mcomplex B) (mcomplex C) step =
      Ok (mat_mul M (bilinear_plus (mcomplex A) step),
          mat_mul (mscale M step) (mcomplex B), mcomplex C).
Proof.
  intros Hm Hk Hb Hs.
  destruct (mass_shapes k b m) as (HA & HB & HC).
  pose proof (mass_inverse_ok k b m step Hm Hk Hb Hs) as HM.
  exists (mass_A k b m), (mass_B m), mass_C, (mass_inverse k b m step).
  split; [apply example_mass_value; lra|].
  split; [exact HA|]. split; [exact HB|]. split; [exact HC|].
  split; [exact HM|].
  apply (discretize_value 2); [apply mcomplex_shape; exact HA| |exact HM].
  reflexivity.
Qed.

Lemma example_mass_discretizes_witness :
  exists A B C M,
    example_mass 1 1 1 = Ok (A, B, C) /\
    has_shape A 2 2 /\ has_shape B 2 1 /\ has_shape C 1 2 /\
    is_inverse (bilinear_minus (mcomplex A) (1 / 10)) M /\
    discretize (mcomplex A) (mcomplex B) (mcomplex C) (1 / 10) =
      Ok (mat_mul M (bilinear_plus (mcomplex A) (1 / 10)),
          mat_mul (mscale M (1 / 10)) (mcomplex B), mcomplex C).
Proof.
  apply (example_mass_discretizes 1 1 1 (1 / 10)); lra.
Defined.

(** ** The generating function by inversion *)

Section ProductFacts.
Context {T : Type} `{ScalarLaws T}.
Add Ring scalar_ring_prod : scalar_ring.

Lemma mat_mul_sub_l (a b c : matrix T) :
  nrows a = nrows b -> ncols a = ncols b ->
  mat_mul (mzip ssub a b) c = mzip ssub (mat_mul a c) (mat_mul b c).
Proof.
  intros Hr Hc. unfold mat_mul, mzip. simpl.
  apply tab2_ext. intros i j Hi Hj.
  rewrite !get_tab2 by (try assumption; lia).
  rewrite <- Hc, <- bigsum_sub. apply bigsum_ext. intros k Hk.
  rewrite get_tab2 by (try assumption; lia). ring.
Qed.

End ProductFacts.

Lemma resolvent_minus_shape (N : nat) (A : matrix complex) (z : complex) :
  has_shape A N N -> has_shape (resolvent_minus A z) N N.
Proof.
  intros (_ & HrA & HcA). unfold resolvent_minus, mzip.
  split; [apply wf_tab2|]. simpl. split; exact HrA.
Qed.

(** [(I - A z) W = W - z (A W)]. *)
Lemma resolvent_minus_apply (N : nat) (A W : matrix complex) (z : complex) :
  has_shape A N N -> has_shape W N 1 ->
  mat_mul (resolvent_minus A z) W = mzip Csub W (mmap (Cmul z) (mat_mul A W)).
Proof.
  intros (HwfA & HrA & HcA) (HwfW & HrW & HcW). unfold resolvent_minus.
  change (mzip Csub) with (mzip (@ssub complex C_scalar)).
  rewrite mat_mul_sub_l by (simpl; congruence).
  assert (E1 : mat_mul (eye (nrows A)) W = W).
  { rewrite HrA, <- HrW. apply mat_mul_eye_l. exact HwfW. }
  assert (E2 : mat_mul (mmap (fun a => (a * z)%C) A) W = mmap (Cmul z) (mat_mul A W)).
  { transitivity (mat_mul A (mmap (Cmul z) W)).
    - exact (mat_mul_scal_swap z A W HwfA HwfW (eq_trans HcA (eq_sym HrW))).
    - exact (mat_mul_scal_r z A W HwfW (eq_trans HcA (eq_sym HrW))). }
  rewrite E1, E2. reflexivity.
Qed.

Section Telescope.
Variables (N : nat) (A B C W : matrix complex) (z : complex).
Hypothesis HA : has_shape A N N.
Hypothesis HB : has_shape B N 1.
Hypothesis HC : has_shape C 1 N.
Hypothesis HW : has_shape W N 1.
Hypothesis HBW : B = mzip Csub W (mmap (Cmul z) (mat_mul A W)).

Let Tl := fun l => get (mat_mul (mat_mul C (mat_pow A l)) W) 0 0.

Lemma tel_pow_shape (l : nat) : has_shape (mat_pow A l) N N.
Proof.
  destruct HA as (HwfA & HrA & HcA).
  destruct (mat_pow_shape A l) as (Hwf & Hr & Hc); [congruence|].
  split; [exact Hwf|]. split; congruence.
Qed.

(** [K_l = T_l - z T_(l+1)], for [T_l = C A^l W]. *)
Lemma tel_kernel_entry (l : nat) :
  kernel_entry A B C l = (Tl l - z * Tl (S l))%C.
Proof.
  destruct HA as (HwfA & HrA & HcA). destruct HC as (HwfC & HrC & HcC).
  destruct HW as (HwfW & HrW & HcW).
  destruct (tel_pow_shape l) as (_ & HrP & HcP).
  unfold kernel_entry, Tl. rewrite HBW at 1.
  change (mzip Csub) with (mzip (@ssub complex C_scalar)).
  rewrite mat_mul_sub_r by (simpl; congruence).
  rewrite get_mzip by (simpl; lia).
  change (mmap (Cmul z)) with (mmap (@smul complex C_scalar z)).
  rewrite mat_mul_scal_r by (try apply wf_tab2; simpl; congruence).
  rewrite get_mmap by (try apply wf_tab2; simpl; lia).
  rewrite <- (mat_mul_assoc (mat_mul C (mat_pow A l)) A W) by (simpl; congruence).
  rewrite (mat_mul_assoc C (mat_pow A l) A) by congruence.
  rewrite (mat_pow_comm A l HwfA) by congruence.
  reflexivity.
Qed.

Lemma tel_sum (n : nat) :
  bigsum n (fun l => (kernel_entry A B C l * Cpow z l)%C) = (Tl 0 - Tl n * Cpow z n)%C.
Proof.
  induction n as [|n IH].
  - rewrite bigsum_0. cbn [s0 C_scalar]. simpl Cpow. ring.
  - rewrite bigsum_S, IH, tel_kernel_entry. cbn [sadd C_scalar]. simpl Cpow. ring.
Qed.

(** [C (I - A^L) W = T_0 - T_L]. *)
Lemma tel_ends (L : nat) :
  get (mat_mul (mat_mul C (mzip Csub (eye N) (mat_pow A L))) W) 0 0 = (Tl 0 - Tl L)%C.
Proof.
  destruct HA as (HwfA & HrA & HcA). destruct HC as (HwfC & HrC & HcC).
  destruct HW as (HwfW & HrW & HcW).
  destruct (tel_pow_shape L) as (_ & HrP & HcP).
  change (mzip Csub) with (mzip (@ssub complex C_scalar)).
  rewrite mat_mul_sub_r by (simpl; congruence).
  rewrite mat_mul_sub_l by (simpl; congruence).
  rewrite get_mzip by (simpl; lia).
  unfold Tl. simpl mat_pow. rewrite HrA. reflexivity.
Qed.

End Telescope.

(** The value of the function of [K_gen_inverse] where [I - A z] has the
    inverse [M]. *)
Lemma K_gen_inverse_value (N L : nat) (A B C M : matrix complex) (z : complex) :
  has_shape A N N -> has_shape B N 1 -> has_shape C 1 N ->
  is_inverse (resolvent_minus A z) M ->
  exists gen,
    K_gen_inverse A B C L = Ok gen /\
    gen z = Ok (get (mat_mul (mat_mul C (mzip Csub (eye N) (mat_pow A L)))
                       (mat_mul M B)) 0 0).
Proof.
  intros HA HB HC HM.
  destruct HA as (HwfA & HrA & HcA). destruct HB as (HwfB & HrB & HcB).
  destruct HC as (HwfC & HrC & HcC).
  destruct (mat_pow_shape A L) as (_ & HrP & HcP); [congruence|].
  unfold K_gen_inverse.
  unfold matrix_power. rewrite HrA, HcA, Nat.eqb_refl. cbn [bind].
  rewrite mbroadcast_same by (simpl; congruence). cbn [bind].
  unfold matmul at 1. simpl nrows. rewrite HcC, Nat.eqb_refl. cbn [bind].
  eexists. split; [reflexivity|]. cbv beta.
  rewrite mbroadcast_same by (simpl; congruence). cbn [bind].
  assert (EX : mzip Csub (eye N) (mmap (fun a => (a * z)%C) A) = resolvent_minus A z).
  { unfold resolvent_minus. rewrite HrA. reflexivity. }
  rewrite EX, (inv_inverse _ _ HM). cbn [bind].
  destruct HM as (HwfM & HrM & HcM & _). simpl in HrM, HcM.
  unfold matmul at 1. simpl ncols. rewrite HrM, HrA, Nat.eqb_refl. cbn [bind].
  unfold matmul. simpl ncols. rewrite HcM, HrA, HrB, Nat.eqb_refl. cbn [bind].
  unfold reshape0. simpl nrows. simpl ncols. rewrite HrC, HcB. cbn [Nat.mul Nat.add Nat.eqb].
  f_equal. f_equal. apply mat_mul_assoc; simpl; congruence.
Qed.

(** At a point [z] with [z^L = 1] where [I - A z] has the inverse [M],
    the function of [K_gen_inverse] takes the value of the truncated
    generating function. *)
Lemma K_gen_inverse_root_value (N L : nat) (A B C M : matrix complex) (z : complex)
    (gen : complex -> result complex) :
  has_shape A N N -> has_shape B N 1 -> has_shape C 1 N ->
  Cpow z L = C1 ->
  is_inverse (resolvent_minus A z) M ->
  K_gen_inverse A B C L = Ok gen ->
  gen z = Ok (bigsum L (fun l => (kernel_entry A B C l * Cpow z l)%C)).
Proof.
  intros HA HB HC HzL HM Hgen.
  destruct (K_gen_inverse_value N L A B C M z HA HB HC HM) as [gen' [Hgen' Hval]].
  rewrite Hgen in Hgen'. injection Hgen' as <-.
  rewrite Hval. f_equal.
  pose proof (resolvent_minus_shape N A z HA) as (HwfX & HrX & HcX).
  assert (HMs : has_shape M N N).
  { destruct HM as (HwfM & HrM & HcM & _). split; [exact HwfM|]. split; congruence. }
  assert (HW : has_shape (mat_mul M B) N 1).
  { destruct HMs as (_ & HrM & _). destruct HB as (_ & _ & HcB).
    split; [apply wf_tab2|]. split; assumption. }
  assert (HBW : B = mzip Csub (mat_mul M B) (mmap (Cmul z) (mat_mul A (mat_mul M B)))).
  { rewrite <- (resolvent_minus_apply N A (mat_mul M B) z HA HW).
    destruct HMs as (_ & HrM & HcM). destruct HB as (HwfB & HrB & HcB).
    rewrite <- mat_mul_assoc by congruence.
    destruct HM as (_ & _ & _ & _ & Hright). rewrite Hright, HrX, <- HrB.
    symmetry. apply mat_mul_eye_l. exact HwfB. }
  rewrite (tel_ends N A C (mat_mul M B) HA HC HW L).
  rewrite (tel_sum N A B C (mat_mul M B) z HA HC HW HBW L), HzL. ring.
Qed.

Lemma K_gen_inverse_defined (N L : nat) (A B C : matrix complex) :
  has_shape A N N -> has_shape C 1 N ->
  exists gen, K_gen_inverse A B C L = Ok gen.
Proof.
  intros (HwfA & HrA & HcA) (HwfC & HrC & HcC).
  destruct (mat_pow_shape A L) as (_ & HrP & HcP); [congruence|].
  unfold K_gen_inverse.
  unfold matrix_power. rewrite HrA, HcA, Nat.eqb_refl. cbn [bind].
  rewrite mbroadcast_same by (simpl; congruence). cbn [bind].
  unfold matmul. simpl nrows. rewrite HcC, Nat.eqb_refl. cbn [bind].
  eexists. reflexivity.
Qed.

Lemma K_gen_simple_value (N L : nat) (A B C : matrix complex) (z : complex) :
  has_shape A N N -> has_shape B N 1 -> has_shape C 1 N ->
  exists gen,
    K_gen_simple A B C L = Ok gen /\
    gen z = Ok (bigsum L (fun l => (kernel_entry A B C l * Cpow z l)%C)).
Proof.
  intros HA HB HC. unfold K_gen_simple.
  rewrite (K_conv_entries N A B C L HA HB HC). cbn [bind].
  eexists. split; [reflexivity|].
  rewrite gen_simple_value by apply tab1_length. f_equal.
  apply bigsum_ext. intros l Hl. rewrite vget_tab1 by exact Hl. reflexivity.
Qed.

(** X4: at a point [z] with [z^L = 1] where [I - A z] is invertible, the
    function returned by [K_gen_inverse] and the function returned by
    [K_gen_simple] take the same value, [sum_{l < L} (C A^l B) z^l]. *)
Theorem K_gen_inverse_agrees_at_roots (N L : nat) (A B C M : matrix complex)
    (z : complex) :
  has_shape A N N -> has_shape B N 1 -> has_shape C 1 N ->
  Cpow z L = C1 ->
  is_inverse (resolvent_minus A z) M ->
  exists gi gs,
    K_gen_inverse A B C L = Ok gi /\
    K_gen_simple A B C L = Ok gs /\
    gi z = gs z /\
    gs z = Ok (bigsum L (fun l => (kernel_entry A B C l * Cpow z l)%C)).
Proof.
  intros HA HB HC HzL HM.
  destruct (K_gen_inverse_defined N L A B C HA HC) as [gi Hgi].
  destruct (K_gen_simple_value N L A B C z HA HB HC) as [gs [Hgs Hval]].
  exists gi, gs. split; [exact Hgi|]. split; [exact Hgs|].
  split; [|exact Hval].
  rewrite Hval. exact (K_gen_inverse_root_value N L A B C M z gi HA HB HC HzL HM Hgi).
Qed.

Lemma inverse_1x1 (a : complex) :
  a <> C0 -> is_inverse (Mat 1 1 [[a]]) (Mat 1 1 [[(/ a)%C]]).
Proof.
  intros Ha. split; [apply (has_shape_1x1 (/ a)%C)|].
  split; [reflexivity|]. split; [reflexivity|].
  split; unfold mat_mul, eye, tab2, bigsum, get; simpl; repeat f_equal;
    field; exact Ha.
Qed.

Lemma resolvent_minus_ex_A (z : complex) :
  resolvent_minus ex_A z = Mat 1 1 [[(C1 - RtoC (-2) * z)%C]].
Proof. reflexivity. Qed.

Lemma K_gen_inverse_agrees_at_roots_witness :
  exists gi gs,
    K_gen_inverse ex_A ex_B ex_C 2 = Ok gi /\
    K_gen_simple ex_A ex_B ex_C 2 = Ok gs /\
    gi (RtoC (-1)) = gs (RtoC (-1)) /\
    gs (RtoC (-1)) =
      Ok (bigsum 2 (fun l => (kernel_entry ex_A ex_B ex_C l * Cpow (RtoC (-1)) l)%C)).
Proof.
  apply (K_gen_inverse_agrees_at_roots 1 2 ex_A ex_B ex_C
           (Mat 1 1 [[(/ (C1 - RtoC (-2) * RtoC (-1)))%C]]) (RtoC (-1))).
  - apply has_shape_1x1.
  - apply has_shape_1x1.
  - apply has_shape_1x1.
  - apply complex_eq; simpl; lra.
  - rewrite resolvent_minus_ex_A. apply inverse_1x1.
    intros E. apply (f_equal re) in E. simpl in E. lra.
Defined.

(** X5: when [I - A z] is invertible at every [L]-th root of unity [z],
    sampling the function of [K_gen_inverse] with [convFromGen] returns the
    real parts of the kernel [K_conv(A, B, C, L)]. *)
Theorem K_gen_inverse_recovers_kernel (N L : nat) (A B C : matrix complex) :
  has_shape A N N -> has_shape B N 1 -> has_shape C 1 N -> (0 < L)%nat ->
  (forall k, (k < L)%nat ->
     exists M, is_inverse (resolvent_minus A (unit_root L k)) M) ->
  exists gen K,
    K_gen_inverse A B C L = Ok gen /\
    K_conv A B C L = Ok K /\
    convFromGen gen L = Ok (map re K).
Proof.
  intros HA HB HC HL Hinv.
  destruct (K_gen_inverse_defined N L A B C HA HC) as [gen Hgen].
  exists gen, (tab1 L (kernel_entry A B C)).
  split; [exact Hgen|]. split; [exact (K_conv_entries N A B C L HA HB HC)|].
  apply convFromGen_of_polynomial; [apply tab1_length|exact HL|].
  intros k Hk. destruct (Hinv k Hk) as [M HM].
  rewrite (K_gen_inverse_root_value N L A B C M (unit_root L k) gen HA HB HC).
  - f_equal. apply bigsum_ext. intros l Hl. rewrite vget_tab1 by exact Hl. reflexivity.
  - rewrite unit_root_pow, <- (Nat.add_0_r (k * L)).
    rewrite (unit_root_multiple L k 0 HL). apply unit_root_0.
  - exact HM.
  - exact Hgen.
Qed.

Lemma unit_root_norm (L k : nat) : Cnorm2 (unit_root L k) = 1.
Proof.
  unfold Cnorm2, unit_root. simpl.
  pose proof (sin2_cos2 (2 * PI * INR k / INR L)) as E.
  unfold Rsqr in E. lra.
Qed.

Lemma resolvent_ex_A_invertible (L k : nat) :
  exists M, is_inverse (resolvent_minus ex_A (unit_root L k)) M.
Proof.
  rewrite resolvent_minus_ex_A. eexists. apply inverse_1x1.
  intros E. pose proof (unit_root_norm L k) as Hn.
  destruct (unit_root L k) as [x y].
  pose proof (f_equal re E) as Er. pose proof (f_equal im E) as Ei.
  unfold Cnorm2 in Hn. simpl in Hn, Er, Ei. nra.
Qed.

Lemma K_gen_inverse_recovers_kernel_witness :
  exists gen K,
    K_gen_inverse ex_A ex_B ex_C 4 = Ok gen /\
    K_conv ex_A ex_B ex_C 4 = Ok K /\
    convFromGen gen 4 = Ok (map re K).
Proof.
  apply (K_gen_inverse_recovers_kernel 1 4 ex_A ex_B ex_C).
  - apply has_shape_1x1.
  - apply has_shape_1x1.
  - apply has_shape_1x1.
  - lia.
  - intros k _. apply resolvent_ex_A_invertible.
Defined.

(** X6: for operands of matching shapes and [L >= 1], sampling the
    function of [K_gen_simple] with [convFromGen] returns the real parts
    of the [L] entries of [K_conv(A, B, C, L)]. *)
Theorem K_gen_simple_recovers_kernel (N L : nat) (A B C : matrix complex) :
  has_shape A N N -> has_shape B N 1 -> has_shape C 1 N -> (0 < L)%nat ->
  exists gen K,
    K_gen_simple A B C L = Ok gen /\
    K_conv A B C L = Ok K /\
    length K = L /\
    convFromGen gen L = Ok (map re K).
Proof.
  intros HA HB HC HL.
  pose proof (K_conv_entries N A B C L HA HB HC) as HK.
  exists (gen_simple (tab1 L (kernel_entry A B C)) L), (tab1 L (kernel_entry A B C)).
  split; [unfold K_gen_simple; rewrite HK; reflexivity|].
  split; [exact HK|]. split; [apply tab1_length|].
  apply convFromGen_of_polynomial; [apply tab1_length|exact HL|].
  intros k _. apply gen_simple_value. apply tab1_length.
Qed.

Lemma K_gen_simple_recovers_kernel_witness :
  exists gen K,
    K_gen_simple ex_A ex_B ex_C 4 = Ok gen /\
    K_conv ex_A ex_B ex_C 4 = Ok K /\
    length K = 4%nat /\
    convFromGen gen 4 = Ok (map re K).
Proof.
  apply (K_gen_simple_recovers_kernel 1 4 ex_A ex_B ex_C).
  - apply has_shape_1x1.
  - apply has_shape_1x1.
  - apply has_shape_1x1.
  - lia.
Defined.

(** ** Float systems have float kernels *)

Lemma real_entries_mcomplex (m : matrix R) : real_entries (mcomplex m).
Proof. intros i j _ _. rewrite get_mcomplex_total. reflexivity. Qed.

Lemma real_entries_mat_mul (a b : matrix complex) :
  ncols a = nrows b -> real_entries a -> real_entries b ->
  real_entries (mat_mul a b).
Proof.
  intros Hab Ha Hb i j Hi Hj. simpl in Hi, Hj.
  rewrite get_mat_mul by assumption. rewrite im_bigsum.
  refine (bigsum_zero (T := R) _ _ _). intros k Hk. simpl.
  rewrite (Ha i k Hi Hk), (Hb k j) by (try assumption; lia).
  change (@s0 R R_scalar) with 0. ring.
Qed.

Lemma real_entries_eye (n : nat) : real_entries (eye n).
Proof.
  intros i j Hi Hj. simpl in Hi, Hj. rewrite get_eye by assumption.
  destruct (i =? j)%nat; reflexivity.
Qed.

Lemma real_entries_mat_pow (a : matrix complex) (l : nat) :
  nrows a = ncols a -> real_entries a -> real_entries (mat_pow a l).
Proof.
  intros Hsq Ha. induction l as [|l IH].
  - apply real_entries_eye.
  - simpl. apply real_entries_mat_mul; [|exact Ha|exact IH].
    destruct (mat_pow_shape a l Hsq) as (_ & Hr & _). congruence.
Qed.

Lemma real_entries_bilinear (A : matrix complex) (step : R) :
  wf A -> nrows A = ncols A -> real_entries A ->
  real_entries (bilinear_minus A step) /\ real_entries (bilinear_plus A step).
Proof.
  intros HwfA Hsq HA.
  split; intros i j Hi Hj; simpl in Hi, Hj; unfold bilinear_minus, bilinear_plus;
    (rewrite get_mzip by (simpl; assumption));
    (rewrite get_eye by assumption);
    (rewrite get_mmap by (try exact HwfA; lia));
    simpl; rewrite (HA i j) by lia;
    destruct (i =? j)%nat; simpl; ring.
Qed.

Lemma mat_mul_conj (a b : matrix complex) :
  wf a -> wf b -> ncols a = nrows b ->
  mat_mul (mmap Cconj a) (mmap Cconj b) = mmap Cconj (mat_mul a b).
Proof.
  intros Ha Hb Hab. unfold mat_mul at 2. rewrite mmap_tab2.
  unfold mat_mul. simpl. apply tab2_ext. intros i j Hi Hj.
  rewrite Cconj_bigsum. apply bigsum_ext. intros k Hk.
  rewrite !get_mmap by (try assumption; lia).
  symmetry. apply Cconj_mul.
Qed.

Lemma mmap_conj_eye (n : nat) : mmap Cconj (eye n) = eye n.
Proof.
  unfold eye. rewrite mmap_tab2. apply tab2_ext. intros i j _ _.
  destruct (i =? j)%nat; apply complex_eq; simpl; ring.
Qed.

Lemma mmap_conj_real (m : matrix complex) :
  wf m -> real_entries m -> mmap Cconj m = m.
Proof.
  intros Hwf Hre. apply mat_ext; try reflexivity.
  - apply wf_mmap. exact Hwf.
  - exact Hwf.
  - simpl. intros i j Hi Hj. rewrite get_mmap by assumption.
    apply complex_eq; simpl; [reflexivity|]. rewrite (Hre i j Hi Hj). ring.
Qed.

(** The inverse of a matrix of real entries has real entries. *)
Lemma real_entries_inverse (x m : matrix complex) :
  wf x -> real_entries x -> is_inverse x m -> real_entries m.
Proof.
  intros Hwfx Hx Hm.
  assert (Hc : is_inverse x (mmap Cconj m)).
  { destruct Hm as (Hwf & Hr & Hc & Hl & Hrr).
    assert (Hcx : ncols x = nrows x).
    { apply (f_equal ncols) in Hl. simpl in Hl. exact Hl. }
    split; [apply wf_mmap; exact Hwf|]. split; [exact Hr|]. split; [exact Hc|].
    split.
    - rewrite <- (mmap_conj_real x Hwfx Hx) at 1.
      rewrite mat_mul_conj by (try assumption; congruence).
      rewrite Hl. apply mmap_conj_eye.
    - rewrite <- (mmap_conj_real x Hwfx Hx) at 1.
      rewrite mat_mul_conj by (try assumption; congruence).
      rewrite Hrr. apply mmap_conj_eye. }
  pose proof (is_inverse_unique x _ _ Hm Hc) as E.
  intros i j Hi Hj.
  assert (Eg : get m i j = Cconj (get m i j)).
  { rewrite E at 1. destruct Hm as (Hwf & _). apply get_mmap; assumption. }
  apply (f_equal im) in Eg. simpl in Eg. lra.
Qed.

Lemma real_entries_mscale (m : matrix complex) (s : R) :
  wf m -> real_entries m -> real_entries (mscale m s).
Proof.
  intros Hwf Hm i j Hi Hj. simpl in Hi, Hj. unfold mscale.
  rewrite get_mmap by assumption. simpl. rewrite (Hm i j Hi Hj). ring.
Qed.

Lemma map_RtoC_re (v : list complex) :
  Forall (fun z => im z = 0) v -> map RtoC (map re v) = v.
Proof.
  induction v as [|z v IH]; intros Hall; [reflexivity|].
  inversion Hall as [|z' v' Hz Hv]; subst. simpl. rewrite (IH Hv). f_equal.
  apply complex_eq; simpl; [reflexivity|]. symmetry. exact Hz.
Qed.

(** A kernel entry of a system of real entries is real. *)
Lemma real_kernel_entry (N : nat) (A B C : matrix complex) (l : nat) :
  has_shape A N N -> has_shape B N 1 -> has_shape C 1 N ->
  real_entries A -> real_entries B -> real_entries C ->
  im (kernel_entry A B C l) = 0.
Proof.
  intros (HwfA & HrA & HcA) (HwfB & HrB & HcB) (HwfC & HrC & HcC) HAr HBr HCr.
  destruct (mat_pow_shape A l) as (_ & HrP & HcP); [congruence|].
  unfold kernel_entry.
  apply real_entries_mat_mul; [simpl; congruence| |exact HBr|simpl; lia|simpl; lia].
  apply real_entries_mat_mul; [congruence|exact HCr|].
  apply real_entries_mat_pow; [congruence|exact HAr].
Qed.

(** The discretization of a float system has real entries. *)
Lemma real_discretized (N : nat) (A B : matrix R) (M : matrix complex) (step : R) :
  has_shape A N N -> has_shape B N 1 ->
  is_inverse (bilinear_minus (mcomplex A) step) M ->
  real_entries (mat_mul M (bilinear_plus (mcomplex A) step)) /\
  real_entries (mat_mul (mscale M step) (mcomplex B)).
Proof.
  intros HA HB HM.
  pose proof (mcomplex_shape A N N HA) as (HwfA & HrA & HcA).
  pose proof (mcomplex_shape B N 1 HB) as (HwfB & HrB & HcB).
  destruct (real_entries_bilinear (mcomplex A) step HwfA
              (eq_trans HrA (eq_sym HcA)) (real_entries_mcomplex A)) as [HX HY].
  simpl in HrA, HcA, HrB, HcB.
  assert (HwfX : wf (bilinear_minus (mcomplex A) step)) by apply wf_tab2.
  pose proof (real_entries_inverse _ _ HwfX HX HM) as HMr.
  destruct HM as (HwfM & HrM & HcM & _). simpl in HrM, HcM.
  split.
  - apply real_entries_mat_mul; [simpl; congruence|exact HMr|exact HY].
  - apply real_entries_mat_mul; [simpl; congruence| |apply real_entries_mcomplex].
    apply real_entries_mscale; assumption.
Qed.

Lemma real_kernel_list (L : nat) (f : nat -> complex) :
  (forall l, im (f l) = 0) -> map RtoC (map re (tab1 L f)) = tab1 L f.
Proof.
  intros Hf. apply map_RtoC_re. apply Forall_forall. intros z Hz.
  unfold tab1 in Hz. apply in_map_iff in Hz. destruct Hz as [l [<- _]]. apply Hf.
Qed.

(** X7: for a float system [(A, B, C)] of matching shapes with an
    invertible [I - (step/2) A] at [step = 1/l_max], the kernel computed by
    [NaiveSSMLayer.setup] has no imaginary part: it is an array of [l_max]
    floats. *)
Theorem NaiveSSMLayer_setup_float_kernel (N L : nat) (A B C : matrix R)
    (M : matrix complex) :
  has_shape A N N -> has_shape B N 1 -> has_shape C 1 N -> (0 < L)%nat ->
  is_inverse (bilinear_minus (mcomplex A) (1.0 / INR L)) M ->
  exists K : list R,
    NaiveSSMLayer_setup (mcomplex A) L B C = Ok (map RtoC K) /\ length K = L.
Proof.
  intros HA HB HC HL HM.
  pose proof (mcomplex_shape A N N HA) as HAc.
  pose proof (mcomplex_shape B N 1 HB) as HBc.
  pose proof (mcomplex_shape C 1 N HC) as HCc.
  destruct (discretize_shapes N _ _ _ M _ HAc HBc HCc HM) as [HAbar HBbar].
  destruct (real_discretized N A B M _ HA HB HM) as [HAr HBr].
  set (Abar := mat_mul M (bilinear_plus (mcomplex A) (1.0 / INR L))) in *.
  set (Bbar := mat_mul (mscale M (1.0 / INR L)) (mcomplex B)) in *.
  exists (map re (tab1 L (kernel_entry Abar Bbar (mcomplex C)))).
  split; [|rewrite length_map; apply tab1_length].
  unfold NaiveSSMLayer_setup.
  destruct (Nat.eqb_spec L 0) as [?|_]; [lia|].
  rewrite (discretize_value N (mcomplex A) (mcomplex B) (mcomplex C) M);
    [|exact HAc|destruct HBc as (_ & HrB & _); exact HrB|exact HM].
  cbn [bind]. fold Abar. fold Bbar.
  rewrite (K_conv_entries N Abar Bbar (mcomplex C) L HAbar HBbar HCc).
  f_equal. symmetry. apply real_kernel_list. intros l.
  apply (real_kernel_entry N); try assumption. apply real_entries_mcomplex.
Qed.

Lemma NaiveSSMLayer_setup_float_kernel_witness :
  exists K : list R,
    NaiveSSMLayer_setup (mcomplex (mass_A 1 1 1)) 2 (mass_B 1) mass_C = Ok (map RtoC K) /\
    length K = 2%nat.
Proof.
  apply (NaiveSSMLayer_setup_float_kernel 2 2 (mass_A 1 1 1) (mass_B 1) mass_C
           (mass_inverse 1 1 1 (1.0 / INR 2))).
  - apply (mass_shapes 1 1 1).
  - apply (mass_shapes 1 1 1).
  - apply (mass_shapes 1 1 1).
  - lia.
  - apply mass_inverse_ok; simpl; lra.
Defined.

(** X8: for a float system of matching shapes and [L >= 1], the kernel
    [K_conv] is an array of floats, and sampling [K_gen_simple] with
    [convFromGen] returns exactly that kernel. *)
Theorem K_gen_simple_float_round_trip (N L : nat) (A B C : matrix R) :
  has_shape A N N -> has_shape B N 1 -> has_shape C 1 N -> (0 < L)%nat ->
  exists (K : list R) gen,
    K_conv (mcomplex A) (mcomplex B) (mcomplex C) L = Ok (map RtoC K) /\
    K_gen_simple (mcomplex A) (mcomplex B) (mcomplex C) L = Ok gen /\
    convFromGen gen L = Ok K.
Proof.
  intros HA HB HC HL.
  pose proof (mcomplex_shape A N N HA) as HAc.
  pose proof (mcomplex_shape B N 1 HB) as HBc.
  pose proof (mcomplex_shape C 1 N HC) as HCc.
  pose proof (K_conv_entries N _ _ _ L HAc HBc HCc) as HK.
  set (Kc := tab1 L (kernel_entry (mcomplex A) (mcomplex B) (mcomplex C))) in *.
  assert (HKr : map RtoC (map re Kc) = Kc).
  { apply real_kernel_list. intros l.
    apply (real_kernel_entry N); try assumption; apply real_entries_mcomplex. }
  exists (map re Kc), (gen_simple Kc L).
  split; [rewrite HKr; exact HK|].
  split; [unfold K_gen_simple; rewrite HK; reflexivity|].
  apply convFromGen_of_polynomial; [apply tab1_length|exact HL|].
  intros k _. apply gen_simple_value. apply tab1_length.
Qed.

Lemma K_gen_simple_float_round_trip_witness :
  exists (K : list R) gen,
    K_conv (mcomplex (mass_A 1 1 1)) (mcomplex (mass_B 1)) (mcomplex mass_C) 16 =
      Ok (map RtoC K) /\
    K_gen_simple (mcomplex (mass_A 1 1 1)) (mcomplex (mass_B 1)) (mcomplex mass_C) 16 =
      Ok gen /\
    convFromGen gen 16 = Ok K.
Proof.
  apply (K_gen_simple_float_round_trip 2 16 (mass_A 1 1 1) (mass_B 1) mass_C).
  - apply (mass_shapes 1 1 1).
  - apply (mass_shapes 1 1 1).
  - apply (mass_shapes 1 1 1).
  - lia.
Defined.

(** ** Stability under the bilinear transform *)

Lemma column_scaled_ext (N : nat) (U V : matrix complex) (c : complex) :
  has_shape U N 1 -> has_shape V N 1 ->
  (forall i, (i < N)%nat -> get U i 0 = (c * get V i 0)%C) ->
  U = mmap (Cmul c) V.
Proof.
  intros (HwfU & HrU & HcU) (HwfV & HrV & HcV) Hent.
  apply mat_ext; [exact HwfU|apply wf_mmap; exact HwfV|simpl; congruence|simpl; congruence|].
  rewrite HrU, HcU. intros i j Hi Hj. assert (j = 0%nat) as -> by lia.
  rewrite get_mmap by (try exact HwfV; lia). apply Hent. exact Hi.
Qed.

(** [(I + h A) V = (1 + h lam) V] and [(I - h A) V = (1 - h lam) V] for an
    eigenvector [V]. *)
Lemma bilinear_on_eigenvector (N : nat) (A V : matrix complex) (step : R) (lam : complex) :
  has_shape A N N -> has_shape V N 1 ->
  mat_mul A V = mmap (Cmul lam) V ->
  mat_mul (bilinear_plus A step) V = mmap (Cmul (C1 + RtoC (step / 2) * lam)%C) V /\
  mat_mul (bilinear_minus A step) V = mmap (Cmul (C1 - RtoC (step / 2) * lam)%C) V.
Proof.
  intros (HwfA & HrA & HcA) (HwfV & HrV & HcV) Heig.
  assert (HAV : forall i, (i < N)%nat ->
            bigsum N (fun j => (get A i j * get V j 0)%C) = (lam * get V i 0)%C).
  { intros i Hi. pose proof (f_equal (fun m => get m i 0) Heig) as E. cbv beta in E.
    rewrite get_mat_mul, get_mmap in E by (try exact HwfV; lia).
    rewrite HcA in E. exact E. }
  split; apply (column_scaled_ext N);
    try (split; [apply wf_tab2|split; [simpl; congruence|simpl; congruence]]);
    try (split; [exact HwfV|split; assumption]);
    intros i Hi; rewrite get_mat_mul by (simpl; lia); simpl ncols; rewrite HrA.
  - rewrite (bigsum_ext N _ (fun j =>
      (((if (i =? j)%nat then C1 else C0) + RtoC (step / 2) * get A i j) * get V j 0)%C)).
    + rewrite (identity_plus_apply N i (RtoC (step / 2)) (get A i) (fun j => get V j 0) Hi).
      rewrite (HAV i Hi). ring.
    + intros j Hj. unfold bilinear_plus.
      rewrite get_mzip by (simpl; lia). rewrite get_eye by lia.
      rewrite get_mmap by (try exact HwfA; lia). reflexivity.
  - rewrite (bigsum_ext N _ (fun j =>
      (((if (i =? j)%nat then C1 else C0) + (- RtoC (step / 2)) * get A i j) * get V j 0)%C)).
    + rewrite (identity_plus_apply N i (- RtoC (step / 2))%C (get A i) (fun j => get V j 0) Hi).
      rewrite (HAV i Hi). ring.
    + intros j Hj. unfold bilinear_minus.
      rewrite get_mzip by (simpl; lia). rewrite get_eye by lia.
      rewrite get_mmap by (try exact HwfA; lia). cbn [smul s0 s1 C_scalar]. ring.
Qed.

Lemma Cnorm2_div (a b : complex) :
  b <> C0 -> Cnorm2 (a / b)%C = Cnorm2 a / Cnorm2 b.
Proof.
  intros Hb. pose proof (Cnorm2_pos b Hb) as Hn.
  unfold Cdiv, Cinv, Cmul. unfold Cnorm2 in *. simpl. field. lra.
Qed.

(** A stable eigenvalue lands strictly inside the unit disc. *)
Lemma bilinear_eigenvalue_stable (step : R) (lam : complex) :
  0 < step -> re lam < 0 ->
  (C1 - RtoC (step / 2) * lam)%C <> C0 /\ Cnorm2 (bilinear_eigenvalue step lam) < 1.
Proof.
  intros Hs Hl.
  assert (Hd : (C1 - RtoC (step / 2) * lam)%C <> C0).
  { intros E. apply (f_equal re) in E. simpl in E. nra. }
  split; [exact Hd|].
  unfold bilinear_eigenvalue. rewrite Cnorm2_div by exact Hd.
  pose proof (Cnorm2_pos _ Hd) as Hpos.
  apply (Rmult_lt_reg_r (Cnorm2 (C1 - RtoC (step / 2) * lam)%C)); [exact Hpos|].
  unfold Rdiv. rewrite Rmult_assoc, Rinv_l, Rmult_1_r, Rmult_1_l by lra.
  unfold Cnorm2. simpl. nra.
Qed.

Lemma discretize_eigenvector (N : nat) (A M V : matrix complex) (step : R) (lam : complex) :
  has_shape A N N -> has_shape V N 1 ->
  is_inverse (bilinear_minus A step) M ->
  mat_mul A V = mmap (Cmul lam) V ->
  (C1 - RtoC (step / 2) * lam)%C <> C0 ->
  mat_mul (mat_mul M (bilinear_plus A step)) V =
    mmap (Cmul (bilinear_eigenvalue step lam)) V.
Proof.
  intros HA HV HM Heig Hd.
  destruct (bilinear_on_eigenvector N A V step lam HA HV Heig) as [HY HX].
  destruct HA as (HwfA & HrA & HcA). destruct HV as (HwfV & HrV & HcV).
  destruct HM as (HwfM & HrM & HcM & Hleft & _). simpl in HrM, HcM, Hleft.
  set (a := (C1 + RtoC (step / 2) * lam)%C) in *.
  set (d := (C1 - RtoC (step / 2) * lam)%C) in *.
  assert (HMV : has_shape (mat_mul M V) N 1).
  { split; [apply wf_tab2|]. simpl. split; congruence. }
  (* V = d (M V) *)
  assert (E1 : V = mmap (Cmul d) (mat_mul M V)).
  { transitivity (mat_mul (mat_mul M (bilinear_minus A step)) V).
    - rewrite Hleft, HrA, <- HrV. symmetry. apply mat_mul_eye_l. exact HwfV.
    - rewrite mat_mul_assoc by (simpl; congruence). rewrite HX.
      exact (mat_mul_scal_r d M V HwfV (eq_trans HcM (eq_trans HrA (eq_sym HrV)))). }
  assert (E2 : mat_mul (mat_mul M (bilinear_plus A step)) V
               = mmap (Cmul a) (mat_mul M V)).
  { rewrite mat_mul_assoc by (simpl; congruence). rewrite HY.
    exact (mat_mul_scal_r a M V HwfV (eq_trans HcM (eq_trans HrA (eq_sym HrV)))). }
  rewrite E2. apply (column_scaled_ext N).
  - split; [apply wf_mmap; apply wf_tab2|]. simpl. split; congruence.
  - split; [exact HwfV|]. split; assumption.
  - intros i Hi. rewrite get_mmap by (try apply wf_tab2; simpl; lia).
    pose proof (f_equal (fun m => get m i 0) E1) as Ei. cbv beta in Ei.
    rewrite get_mmap in Ei by (try apply wf_tab2; simpl; lia).
    rewrite Ei. unfold bilinear_eigenvalue. fold a. fold d. field. exact Hd.
Qed.

(** X9: when [A V = lam V] for a column [V], a positive step and an
    eigenvalue of negative real part, the matrix [Abar] returned by
    [discretize] has [V] as an eigenvector for
    [mu = (1 + (step/2) lam) / (1 - (step/2) lam)], and [|mu| < 1]: the
    bilinear transform turns a stable mode into a stable mode. *)
Theorem discretize_keeps_stability (N : nat) (A B C M V : matrix complex)
    (step : R) (lam : complex) :
  has_shape A N N -> has_shape B N 1 -> has_shape C 1 N -> has_shape V N 1 ->
  is_inverse (bilinear_minus A step) M ->
  mat_mul A V = mmap (Cmul lam) V ->
  0 < step -> re lam < 0 ->
  exists Abar Bbar,
    discretize A B C step = Ok (Abar, Bbar, C) /\
    mat_mul Abar V = mmap (Cmul (bilinear_eigenvalue step lam)) V /\
    Cnorm2 (bilinear_eigenvalue step lam) < 1.
Proof.
  intros HA HB HC HV HM Heig Hs Hl.
  destruct (bilinear_eigenvalue_stable step lam Hs Hl) as [Hd Hmu].
  exists (mat_mul M (bilinear_plus A step)), (mat_mul (mscale M step) B).
  split.
  - apply (discretize_value N); [exact HA| |exact HM].
    destruct HB as (_ & HrB & _). exact HrB.
  - split; [|exact Hmu].
    exact (discretize_eigenvector N A M V step lam HA HV HM Heig Hd).
Qed.

Lemma discretize_keeps_stability_witness :
  exists Abar Bbar,
    discretize ex_A ex_B ex_C 1 = Ok (Abar, Bbar, ex_C) /\
    mat_mul Abar ex_Bcol = mmap (Cmul (bilinear_eigenvalue 1 (RtoC (-2)))) ex_Bcol /\
    Cnorm2 (bilinear_eigenvalue 1 (RtoC (-2))) < 1.
Proof.
  apply (discretize_keeps_stability 1 ex_A ex_B ex_C ex_M ex_Bcol 1 (RtoC (-2))).
  - apply has_shape_1x1.
  - apply has_shape_1x1.
  - apply has_shape_1x1.
  - apply has_shape_1x1.
  - exact ex_M_inverse.
  - unfold mat_mul, mmap, tab2, bigsum, ex_A, ex_Bcol, get. simpl.
    do 3 f_equal. apply complex_eq; simpl; ring.
  - lra.
  - simpl. lra.
Defined.

(** ** The kernel, the convolution and the layer *)

(** X10: for operands of matching shapes [K_conv] returns [L] entries,
    the one of index [l] being [C A^l B], and the kernel of a shorter
    length is a prefix of it. *)
Theorem K_conv_prefix (N L L' : nat) (A B C : matrix complex) :
  has_shape A N N -> has_shape B N 1 -> has_shape C 1 N -> (L' <= L)%nat ->
  exists K,
    K_conv A B C L = Ok K /\
    length K = L /\
    (forall l, (l < L)%nat -> vget K l = kernel_entry A B C l) /\
    K_conv A B C L' = Ok (firstn L' K).
Proof.
  intros HA HB HC HL.
  exists (tab1 L (kernel_entry A B C)).
  split; [exact (K_conv_entries N A B C L HA HB HC)|].
  split; [apply tab1_length|].
  split; [intros l Hl; rewrite vget_tab1 by exact Hl; reflexivity|].
  rewrite firstn_tab1 by exact HL.
  exact (K_conv_entries N A B C L' HA HB HC).
Qed.

Lemma K_conv_prefix_witness :
  exists K,
    K_conv ex_A ex_B ex_C 5 = Ok K /\
    length K = 5%nat /\
    (forall l, (l < 5)%nat -> vget K l = kernel_entry ex_A ex_B ex_C l) /\
    K_conv ex_A ex_B ex_C 3 = Ok (firstn 3 K).
Proof.
  apply (K_conv_prefix 1 5 3 ex_A ex_B ex_C).
  - apply has_shape_1x1.
  - apply has_shape_1x1.
  - apply has_shape_1x1.
  - lia.
Defined.

Lemma vget_firstn (n : nat) (v : list R) (i : nat) :
  (i < n)%nat -> vget (firstn n v) i = vget v i.
Proof.
  intros Hi. unfold vget. rewrite nth_firstn.
  destruct (Nat.ltb_spec i n); [reflexivity|lia].
Qed.

(** X11: on a non-empty input [u] and a non-empty kernel [K] of any
    length, [nonCircularConvolution] returns [len(u)] entries,
    [y[l] = sum_{t <= l} u[t] K[l-t]] with [K] read as zero past its end,
    and the entries of [K] past index [len(u) - 1] play no part. *)
Theorem nonCircularConvolution_truncates (u K : list R) :
  u <> [] -> K <> [] ->
  exists y,
    nonCircularConvolution u K = Ok y /\
    length y = length u /\
    (forall l, (l < length u)%nat ->
       vget y l = bigsum (S l) (fun t => vget u t * vget K (l - t))) /\
    nonCircularConvolution u (firstn (length u) K) = Ok y.
Proof.
  intros Hu HK.
  eexists. split; [exact (nonCircularConvolution_entries u K Hu HK)|].
  split; [apply tab1_length|].
  split; [intros l Hl; rewrite vget_tab1 by exact Hl; reflexivity|].
  rewrite nonCircularConvolution_entries.
  - apply f_equal. apply tab1_ext. intros l Hl. apply bigsum_ext. intros t Ht.
    rewrite vget_firstn by lia. reflexivity.
  - exact Hu.
  - destruct u; [contradiction|]. destruct K; [contradiction|]. discriminate.
Qed.

Lemma nonCircularConvolution_truncates_witness :
  exists y,
    nonCircularConvolution [1; 2] [3; 4; 5] = Ok y /\
    length y = length [1; 2] /\
    (forall l, (l < length [1; 2])%nat ->
       vget y l = bigsum (S l) (fun t => vget [1; 2] t * vget [3; 4; 5] (l - t))) /\
    nonCircularConvolution [1; 2] (firstn (length [1; 2]) [3; 4; 5]) = Ok y.
Proof.
  apply (nonCircularConvolution_truncates [1; 2] [3; 4; 5]); discriminate.
Defined.

(** The output of the layer, for a kernel of any length. *)
Lemma S4Layer_call_value (K u : list R) (d : R) :
  u <> [] -> K <> [] ->
  S4Layer_call K [d] u =
    Ok (tab1 (length u) (fun l =>
          bigsum (S l) (fun t => vget u t * vget K (l - t)) + d * vget u l)).
Proof.
  intros Hu HK. unfold S4Layer_call.
  rewrite (nonCircularConvolution_entries u K Hu HK). cbn [bind].
  assert (HL : (0 < length u)%nat) by (destruct u; [contradiction|simpl; lia]).
  unfold vbroadcast at 1. simpl length.
  assert (Hb : bdim 1 (length u) = Ok (length u)).
  { unfold bdim. destruct (Nat.eqb_spec 1 (length u)) as [<-|_]; reflexivity. }
  rewrite Hb. cbn [bind].
  unfold vbroadcast. rewrite !tab1_length, bdim_same. cbn [bind]. apply f_equal.
  apply tab1_ext. intros l Hl.
  rewrite !bidx_lt by assumption.
  rewrite !vget_tab1 by assumption.
  rewrite (bidx_lt (length u) l Hl). reflexivity.
Qed.

(** X12: the layer is causal.  For two inputs of one length that agree on
    their first [n] entries, the outputs agree on their first [n] entries. *)
Theorem S4Layer_call_causal (K u u' : list R) (d : R) (n : nat) :
  K <> [] -> u <> [] -> length u = length u' -> (n <= length u)%nat ->
  firstn n u = firstn n u' ->
  exists y y',
    S4Layer_call K [d] u = Ok y /\
    S4Layer_call K [d] u' = Ok y' /\
    firstn n y = firstn n y'.
Proof.
  intros HK Hu Hlen Hn Hpre.
  assert (Hu' : u' <> []).
  { destruct u; [contradiction|]. destruct u'; [discriminate|]. discriminate. }
  eexists. eexists.
  split; [exact (S4Layer_call_value K u d Hu HK)|].
  split; [exact (S4Layer_call_value K u' d Hu' HK)|].
  rewrite !firstn_tab1 by lia.
  assert (Hv : forall t, (t < n)%nat -> vget u t = vget u' t).
  { intros t Ht. rewrite <- (vget_firstn n u t Ht), Hpre. apply vget_firstn. exact Ht. }
  apply tab1_ext. intros l Hl. rewrite (Hv l Hl). f_equal.
  apply bigsum_ext. intros t Ht. rewrite (Hv t) by lia. reflexivity.
Qed.

Lemma S4Layer_call_causal_witness :
  exists y y',
    S4Layer_call [1; 2; 3] [5] [1; 2; 3] = Ok y /\
    S4Layer_call [1; 2; 3] [5] [1; 2; 7] = Ok y' /\
    firstn 2 y = firstn 2 y'.
Proof.
  apply (S4Layer_call_causal [1; 2; 3] [1; 2; 3] [1; 2; 7] 5 2).
  - discriminate.
  - discriminate.
  - reflexivity.
  - simpl. lia.
  - reflexivity.
Defined.

(** X13: the layer is linear in its input.  The output on
    [a * u + b * v] is [a] times the output on [u] plus [b] times the
    output on [v]. *)
Theorem S4Layer_call_linear (K u v : list R) (d a b : R) :
  K <> [] -> u <> [] -> length u = length v ->
  exists yu yv,
    S4Layer_call K [d] u = Ok yu /\
    S4Layer_call K [d] v = Ok yv /\
    S4Layer_call K [d] (tab1 (length u) (fun i => a * vget u i + b * vget v i)) =
      Ok (tab1 (length u) (fun l => a * vget yu l + b * vget yv l)).
Proof.
  intros HK Hu Hlen.
  assert (Hv : v <> []).
  { destruct u; [contradiction|]. destruct v; [discriminate|]. discriminate. }
  assert (HL : (0 < length u)%nat) by (destruct u; [contradiction|simpl; lia]).
  eexists. eexists.
  split; [exact (S4Layer_call_value K u d Hu HK)|].
  split; [exact (S4Layer_call_value K v d Hv HK)|].
  rewrite S4Layer_call_value.
  - rewrite tab1_length. apply f_equal. apply tab1_ext. intros l Hl.
    rewrite !vget_tab1 by (try assumption; lia).
    rewrite (bigsum_ext (S l) _ (fun t =>
      a * (vget u t * vget K (l - t)) + b * (vget v t * vget K (l - t)))).
    + pose proof (bigsum_add (S l) (fun t => a * (vget u t * vget K (l - t)))
                    (fun t => b * (vget v t * vget K (l - t)))) as Eadd.
      pose proof (bigsum_scal_l (S l) a (fun t => vget u t * vget K (l - t))) as Ea.
      pose proof (bigsum_scal_l (S l) b (fun t => vget v t * vget K (l - t))) as Eb.
      scalar_ops. rewrite Eadd, Ea, Eb. ring.
    + intros t Ht. rewrite vget_tab1 by lia. ring.
  - intros E. apply (f_equal (@length R)) in E. rewrite tab1_length in E.
    simpl in E. lia.
  - exact HK.
Qed.

Lemma S4Layer_call_linear_witness :
  exists yu yv,
    S4Layer_call [1; 2] [5] [3; 4] = Ok yu /\
    S4Layer_call [1; 2] [5] [6; 7] = Ok yv /\
    S4Layer_call [1; 2] [5]
      (tab1 (length [3; 4]) (fun i => 2 * vget [3; 4] i + 3 * vget [6; 7] i)) =
      Ok (tab1 (length [3; 4]) (fun l => 2 * vget yu l + 3 * vget yv l)).
Proof.
  apply (S4Layer_call_linear [1; 2] [3; 4] [6; 7] 5 2 3).
  - discriminate.
  - discriminate.
  - reflexivity.
Defined.

Lemma tab1_S_l {T : Type} `{ScalarLaws T} (n : nat) (f : nat -> T) :
  tab1 (S n) f = f 0%nat :: tab1 n (fun i => f (S i)).
Proof.
  unfold tab1. simpl. rewrite <- seq_shift, map_map. reflexivity.
Qed.

(** X14: the layer is time-invariant.  Delaying a non-empty input by one
    step (a zero in front, the last entry dropped) delays the output of
    [__call__] by one step. *)
Theorem S4Layer_call_time_invariant (K u : list R) (d : R) :
  K <> [] -> u <> [] ->
  exists y,
    S4Layer_call K [d] u = Ok y /\
    S4Layer_call K [d] (0 :: firstn (length u - 1) u) =
      Ok (0 :: firstn (length u - 1) y).
Proof.
  intros HK Hu.
  eexists. split; [exact (S4Layer_call_value K u d Hu HK)|].
  rewrite S4Layer_call_value; [|discriminate|exact HK].
  assert (HL : (0 < length u)%nat) by (destruct u; [contradiction|simpl; lia]).
  assert (Hlen : length (0 :: firstn (length u - 1) u) = S (length u - 1)).
  { cbn [length]. rewrite firstn_length_le by lia. reflexivity. }
  rewrite Hlen, firstn_tab1 by lia. apply f_equal.
  rewrite tab1_S_l. f_equal.
  - unfold bigsum. simpl. unfold vget. simpl. ring.
  - apply tab1_ext. intros l Hl.
    rewrite (bigsum_S_l (S l)).
    change (vget (0 :: firstn (length u - 1) u) 0) with 0.
    change (vget (0 :: firstn (length u - 1) u) (S l))
      with (vget (firstn (length u - 1) u) l).
    rewrite (vget_firstn (length u - 1) u l Hl).
    rewrite (bigsum_ext (S l)
               (fun i => vget (0 :: firstn (length u - 1) u) (S i) * vget K (S l - S i))
               (fun t => vget u t * vget K (l - t))).
    + scalar_ops. ring.
    + intros t Ht.
      change (vget (0 :: firstn (length u - 1) u) (S t))
        with (vget (firstn (length u - 1) u) t).
      rewrite vget_firstn by lia. reflexivity.
Qed.

Lemma S4Layer_call_time_invariant_witness :
  exists y,
    S4Layer_call [1; 2; 3] [5] [4; 6; 8] = Ok y /\
    S4Layer_call [1; 2; 3] [5] (0 :: firstn (length [4; 6; 8] - 1) [4; 6; 8]) =
      Ok (0 :: firstn (length [4; 6; 8] - 1) y).
Proof.
  apply (S4Layer_call_time_invariant [1; 2; 3] [4; 6; 8] 5); discriminate.
Defined.

(** X15: the index array [order] of [convFromGen] has [L] entries, all
    below [L], and is its own inverse: [order[order[i]] = i]. *)
Theorem kernel_order_involution (L i : nat) :
  (i < L)%nat ->
  length (kernel_order L) = L /\
  (nth i (kernel_order L) 0 < L)%nat /\
  nth (nth i (kernel_order L) 0%nat) (kernel_order L) 0%nat = i.
Proof.
  intros Hi. unfold kernel_order.
  split; [rewrite length_map, length_seq; reflexivity|].
  rewrite (nth_map_seq _ 0 L i 0%nat Hi). cbn [Nat.add].
  destruct (Nat.eqb_spec i 0) as [->|Hne].
  - split; [exact Hi|]. rewrite (nth_map_seq _ 0 L 0 0%nat Hi). reflexivity.
  - split; [lia|].
    rewrite (nth_map_seq _ 0 L (L - i) 0%nat) by lia. cbn [Nat.add].
    destruct (Nat.eqb_spec (L - i) 0); lia.
Qed.

Lemma kernel_order_involution_witness :
  length (kernel_order 4) = 4%nat /\
  (nth 1 (kernel_order 4) 0 < 4)%nat /\
  nth (nth 1 (kernel_order 4) 0%nat) (kernel_order 4) 0%nat = 1%nat.
Proof.
  apply (kernel_order_involution 4 1). lia.
Defined.

(** X16: the matrix [S] that [make_DPLR_HiPPO] hands to [eig_cpu] is
    skew-symmetric, and the returned [hippo] is [S] minus the rank-one
    term [0.5 * pq] and half the identity. *)
Theorem make_DPLR_HiPPO_normal_plus_low_rank (N : nat) :
  has_shape (DPLR_S N) N N /\
  (forall i j, (i < N)%nat -> (j < N)%nat ->
     get (DPLR_S N) i j = - get (DPLR_S N) j i) /\
  (forall i j, (i < N)%nat -> (j < N)%nat ->
     get (DPLR_hippo_of (make_DPLR_HiPPO N)) i j =
       get (DPLR_S N) i j
       - (0.5 * get (DPLR_pq N) i j + 0.5 * (if (i =? j)%nat then 1 else 0))).
Proof.
  split; [apply DPLR_S_shape|]. split; [exact (DPLR_S_skew N)|].
  intros i j Hi Hj.
  assert (Hh : DPLR_hippo_of (make_DPLR_HiPPO N) = DPLR_hippo N).
  { unfold make_DPLR_HiPPO. destruct (eig_cpu (DPLR_S N)). reflexivity. }
  rewrite Hh, get_DPLR_S, get_DPLR_pq by assumption. lra.
Qed.

(** ** Edge cases of the discretizer and of the initialisers *)

(** A lower-triangular matrix with a zero on its diagonal, below non-zero
    diagonal entries, has no right inverse. *)
Lemma lower_triangular_singular (N i0 : nat) (X : matrix complex) :
  has_shape X N N -> (i0 < N)%nat ->
  (forall i j, (i < N)%nat -> (j < N)%nat -> (i < j)%nat -> get X i j = C0) ->
  get X i0 i0 = C0 ->
  (forall i, (i < i0)%nat -> get X i i <> C0) ->
  forall M, ~ is_inverse X M.
Proof.
  intros (HwfX & HrX & HcX) Hi0 Hupper Hzero Hdiag M (HwfM & HrM & HcM & _ & Hright).
  rewrite HrX in HrM, HcM, Hright.
  assert (Hent : forall i j, (i < N)%nat -> (j < N)%nat ->
            bigsum N (fun k => (get X i k * get M k j)%C) =
            if (i =? j)%nat then C1 else C0).
  { intros i j Hi Hj. pose proof (f_equal (fun m => get m i j) Hright) as E.
    cbv beta in E. rewrite get_mat_mul, get_eye in E by lia.
    rewrite HcX in E. exact E. }
  assert (Hrows : forall i, (i < i0)%nat ->
            forall j, (i < j)%nat -> (j < N)%nat -> get M i j = C0).
  { induction i as [i IH] using lt_wf_ind. intros Hi j Hij Hj.
    pose proof (Hent i j ltac:(lia) Hj) as E.
    destruct (Nat.eqb_spec i j) as [?|_]; [lia|].
    rewrite (Cbigsum_single N i) in E.
    - apply Cmul_integral in E. destruct E as [E|E]; [|exact E].
      exfalso. exact (Hdiag i Hi E).
    - lia.
    - intros k Hk Hne. destruct (Nat.lt_ge_cases k i) as [Hlt|Hge].
      + rewrite (IH k Hlt ltac:(lia) j ltac:(lia) Hj). ring.
      + rewrite (Hupper i k) by lia. ring. }
  pose proof (Hent i0 i0 Hi0 Hi0) as E. rewrite Nat.eqb_refl in E.
  rewrite (bigsum_zero N) in E.
  - apply (f_equal re) in E. simpl in E. lra.
  - intros k Hk. change (@s0 complex C_scalar) with C0.
    destruct (Nat.lt_trichotomy k i0) as [Hlt|[->|Hgt]].
    + rewrite (Hrows k Hlt i0 Hlt Hi0). ring.
    + rewrite Hzero. ring.
    + rewrite (Hupper i0 k) by lia. ring.
Qed.

Lemma get_bilinear_minus_HiPPO (N i j : nat) (step : R) :
  (i < N)%nat -> (j < N)%nat ->
  get (bilinear_minus (mcomplex (make_HiPPO N)) step) i j =
    RtoC ((if (i =? j)%nat then 1 else 0) - step / 2 * get (make_HiPPO N) i j).
Proof.
  intros Hi Hj. destruct (make_HiPPO_shape N) as (Hwf & Hr & Hc).
  pose proof (mcomplex_shape _ N N (conj Hwf (conj Hr Hc))) as (Hwfc & Hrc & Hcc).
  unfold bilinear_minus.
  rewrite get_mzip by (simpl; lia). rewrite get_eye by (simpl; lia).
  rewrite get_mmap by (try exact Hwfc; lia).
  rewrite get_mcomplex_total.
  destruct (i =? j)%nat; apply complex_eq; simpl; ring.
Qed.

(** A lower-triangular array of entries with a non-zero diagonal has a
    two-sided inverse, by forward substitution. *)
Lemma lower_triangular_inverse_entries (N : nat) (x : nat -> nat -> complex) :
  (forall i j, (i < N)%nat -> (j < N)%nat -> (i < j)%nat -> x i j = C0) ->
  (forall i, (i < N)%nat -> x i i <> C0) ->
  exists m : nat -> nat -> complex,
    (forall i j, (i < N)%nat -> (j < N)%nat ->
       bigsum N (fun k => (x i k * m k j)%C) = if (i =? j)%nat then C1 else C0) /\
    (forall i j, (i < N)%nat -> (j < N)%nat ->
       bigsum N (fun k => (m i k * x k j)%C) = if (i =? j)%nat then C1 else C0).
Proof.
  induction N as [|N IH]; intros Hup Hdiag.
  - exists (fun _ _ => C0). split; intros; lia.
  - destruct IH as [m [Hright Hleft]].
    { intros i j Hi Hj Hij. apply Hup; lia. }
    { intros i Hi. apply Hdiag. lia. }
    pose proof (Hdiag N ltac:(lia)) as Hd.
    set (m' := fun i j =>
      if (i =? N)%nat
      then if (j =? N)%nat then (/ x N N)%C
           else (- (/ x N N * bigsum N (fun k => (x N k * m k j)%C)))%C
      else if (j =? N)%nat then C0 else m i j).
    assert (Hm_lt : forall i j, (i < N)%nat -> (j < N)%nat -> m' i j = m i j).
    { intros i j Hi Hj. unfold m'.
      destruct (Nat.eqb_spec i N); [lia|]. destruct (Nat.eqb_spec j N); [lia|].
      reflexivity. }
    assert (Hm_col : forall i, (i < N)%nat -> m' i N = C0).
    { intros i Hi. unfold m'. destruct (Nat.eqb_spec i N); [lia|].
      rewrite Nat.eqb_refl. reflexivity. }
    assert (Hm_NN : m' N N = (/ x N N)%C).
    { unfold m'. rewrite Nat.eqb_refl. reflexivity. }
    assert (Hm_row : forall j, (j < N)%nat ->
              m' N j = (- (/ x N N * bigsum N (fun k => (x N k * m k j)%C)))%C).
    { intros j Hj. unfold m'. rewrite Nat.eqb_refl.
      destruct (Nat.eqb_spec j N); [lia|]. reflexivity. }
    exists m'. split; intros i j Hi Hj; rewrite bigsum_S; cbn [sadd C_scalar].
    + (* x m' *)
      destruct (Nat.eq_dec i N) as [->|Hi']; destruct (Nat.eq_dec j N) as [->|Hj'].
      * rewrite Nat.eqb_refl, Hm_NN.
        rewrite (bigsum_zero N) by (intros k Hk; rewrite (Hm_col k Hk);
          change (@s0 complex C_scalar) with C0; ring).
        change (@s0 complex C_scalar) with C0. field. exact Hd.
      * destruct (Nat.eqb_spec N j); [lia|].
        rewrite (Hm_row j) by lia.
        rewrite (bigsum_ext N _ (fun k => (x N k * m k j)%C))
          by (intros k Hk; rewrite Hm_lt by lia; reflexivity).
        field. exact Hd.
      * destruct (Nat.eqb_spec i N); [lia|].
        rewrite (Hup i N) by lia.
        rewrite (bigsum_zero N) by (intros k Hk; rewrite (Hm_col k Hk);
          change (@s0 complex C_scalar) with C0; ring).
        change (@s0 complex C_scalar) with C0. ring.
      * rewrite (Hup i N) by lia.
        rewrite (bigsum_ext N _ (fun k => (x i k * m k j)%C))
          by (intros k Hk; rewrite Hm_lt by lia; reflexivity).
        rewrite (Hright i j) by lia. ring.
    + (* m' x *)
      destruct (Nat.eq_dec i N) as [->|Hi']; destruct (Nat.eq_dec j N) as [->|Hj'].
      * rewrite Nat.eqb_refl, Hm_NN.
        rewrite (bigsum_zero N) by (intros k Hk; rewrite (Hup k N) by lia;
          change (@s0 complex C_scalar) with C0; ring).
        change (@s0 complex C_scalar) with C0. field. exact Hd.
      * destruct (Nat.eqb_spec N j); [lia|]. rewrite Hm_NN.
        assert (E : bigsum N (fun k => (m' N k * x k j)%C) = (- (/ x N N * x N j))%C).
        { transitivity
            (- / x N N *
             bigsum N (fun k => bigsum N (fun l => (x N l * m l k * x k j)%C)))%C.
          - rewrite <- Cbigsum_scal_l. apply bigsum_ext. intros k Hk.
            rewrite (Hm_row k Hk).
            rewrite (Cbigsum_scal_r N (x k j) (fun l => (x N l * m l k)%C)). ring.
          - rewrite bigsum_swap.
            rewrite (bigsum_ext N _ (fun l =>
              (x N l * (if (l =? j)%nat then C1 else C0))%C)).
            2:{ intros l Hl. rewrite <- (Hleft l j) by lia.
                rewrite <- Cbigsum_scal_l. apply bigsum_ext. intros k _. ring. }
            rewrite (Cbigsum_single N j);
              [|lia|intros l Hl Hne; destruct (Nat.eqb_spec l j); [contradiction|ring]].
            rewrite Nat.eqb_refl. ring. }
        rewrite E. field. exact Hd.
      * destruct (Nat.eqb_spec i N); [lia|]. rewrite (Hm_col i) by lia.
        rewrite (bigsum_zero N) by (intros k Hk; rewrite (Hup k N) by lia;
          change (@s0 complex C_scalar) with C0; ring).
        change (@s0 complex C_scalar) with C0. ring.
      * rewrite (Hm_col i) by lia.
        rewrite (bigsum_ext N _ (fun k => (m i k * x k j)%C))
          by (intros k Hk; rewrite Hm_lt by lia; reflexivity).
        rewrite (Hleft i j) by lia. ring.
Qed.

(** A lower-triangular matrix with a non-zero diagonal has an inverse. *)
Lemma lower_triangular_invertible (N : nat) (X : matrix complex) :
  has_shape X N N ->
  (forall i j, (i < N)%nat -> (j < N)%nat -> (i < j)%nat -> get X i j = C0) ->
  (forall i, (i < N)%nat -> get X i i <> C0) ->
  exists M, is_inverse X M.
Proof.
  intros (HwfX & HrX & HcX) Hup Hdiag.
  destruct (lower_triangular_inverse_entries N (get X) Hup Hdiag) as [m [Hright Hleft]].
  exists (tab2 N N m).
  split; [apply wf_tab2|]. split; [simpl; congruence|]. split; [simpl; congruence|].
  rewrite HrX. unfold mat_mul, eye. simpl nrows. simpl ncols. rewrite HrX, HcX.
  split; apply tab2_ext; intros i j Hi Hj.
  - transitivity (bigsum N (fun k => (m i k * get X k j)%C));
      [|exact (Hleft i j Hi Hj)].
    apply bigsum_ext. intros k Hk. rewrite get_tab2 by assumption. reflexivity.
  - transitivity (bigsum N (fun k => (get X i k * m k j)%C));
      [|exact (Hright i j Hi Hj)].
    apply bigsum_ext. intros k Hk. rewrite get_tab2 by assumption. reflexivity.
Qed.

(** X17: for the transition matrix of [NaiveSSMInit(N)] and a length
    [l_max >= 1], the matrix [I - (step/2) A] that [NaiveSSMLayer.setup]
    has [discretize] invert at [step = 1/l_max] is invertible exactly when
    [N + 1 < 2 * l_max]; for a shorter length its diagonal entry of index
    [2 * l_max - 2] is zero. *)
Theorem NaiveSSMInit_invertible_iff (N L : nat) :
  (1 <= L)%nat ->
  (exists M,
     is_inverse (bilinear_minus (mcomplex (NaiveSSMInit N)) (1.0 / INR L)) M) <->
  (N + 1 < 2 * L)%nat.
Proof.
  intros HL. unfold NaiveSSMInit.
  assert (HLr : 1 <= INR L) by (apply (le_INR 1); exact HL).
  assert (E10 : 1.0 = 1) by lra.
  assert (Hshape : has_shape (bilinear_minus (mcomplex (make_HiPPO N)) (1.0 / INR L)) N N).
  { split; [apply wf_tab2|]. simpl. split; reflexivity. }
  assert (Hup : forall i j, (i < N)%nat -> (j < N)%nat -> (i < j)%nat ->
            get (bilinear_minus (mcomplex (make_HiPPO N)) (1.0 / INR L)) i j = C0).
  { intros i j Hi Hj Hij. rewrite get_bilinear_minus_HiPPO by assumption.
    rewrite get_make_HiPPO by assumption.
    destruct (Nat.eqb_spec i j); [lia|]. destruct (Nat.ltb_spec j i); [lia|].
    apply complex_eq; simpl; ring. }
  assert (Hdiag : forall i, (i < N)%nat -> (1 + i + 1 <> 2 * L)%nat ->
            get (bilinear_minus (mcomplex (make_HiPPO N)) (1.0 / INR L)) i i <> C0).
  { intros i Hi Hne. rewrite get_bilinear_minus_HiPPO, get_make_HiPPO by lia.
    rewrite Nat.eqb_refl, Nat.ltb_irrefl.
    intros E. apply (f_equal re) in E. cbn [re RtoC C0] in E. rewrite E10 in E.
    apply Hne. apply INR_eq. rewrite (mult_INR 2 L). simpl (INR 2).
    apply (Rmult_eq_reg_l (1 / INR L / 2)).
    - transitivity 1; [lra|]. field. lra.
    - apply Rmult_integral_contrapositive. split; [|lra].
      unfold Rdiv. apply Rmult_integral_contrapositive. split; [lra|].
      apply Rinv_neq_0_compat. lra. }
  split.
  - intros [M HM]. destruct (Nat.lt_ge_cases (N + 1) (2 * L)) as [Hlt|Hge]; [exact Hlt|].
    exfalso.
    apply (lower_triangular_singular N (2 * L - 2) _ Hshape ltac:(lia) Hup) with (M := M);
      [| |exact HM].
    + rewrite get_bilinear_minus_HiPPO, get_make_HiPPO by lia.
      rewrite Nat.eqb_refl, Nat.ltb_irrefl.
      replace (1 + (2 * L - 2) + 1)%nat with (2 * L)%nat by lia.
      rewrite mult_INR. simpl INR. rewrite E10.
      apply complex_eq; simpl; [|reflexivity]. field. lra.
    + intros i Hi. apply Hdiag; lia.
  - intros Hlt. apply (lower_triangular_invertible N _ Hshape Hup).
    intros i Hi. apply Hdiag; lia.
Qed.

Lemma NaiveSSMInit_invertible_iff_witness :
  (exists M,
     is_inverse (bilinear_minus (mcomplex (NaiveSSMInit 3)) (1.0 / INR 2)) M) <->
  (3 + 1 < 2 * 2)%nat.
Proof.
  apply (NaiveSSMInit_invertible_iff 3 2). lia.
Defined.

(** X18: [discretize] does not check that [A] is square.  A column [A]
    of shape [(N, 1)] is broadcast against the identity, and a triple of
    arrays of shapes [(N, N)], [(N, 1)] and the shape of [C] is returned. *)
Theorem discretize_broadcasts_column (N : nat) (A B C : matrix complex) (step : R) :
  has_shape A N 1 -> has_shape B N 1 ->
  exists Abar Bbar,
    discretize A B C step = Ok (Abar, Bbar, C) /\
    has_shape Abar N N /\ has_shape Bbar N 1.
Proof.
  intros (HwfA & HrA & HcA) (HwfB & HrB & HcB).
  unfold discretize, mbroadcast. cbn [nrows ncols eye tab2 mmap].
  rewrite HrA, HcA, bdim_same. cbn [bind].
  assert (Hb : bdim N 1 = Ok N).
  { unfold bdim. destruct (Nat.eqb_spec N 1) as [->|_]; reflexivity. }
  rewrite Hb. cbn [bind].
  match goal with |- context [inv ?X] =>
    destruct (inv_square X eq_refl) as [BL [Hinv (HwfBL & HrBL & HcBL & _)]]
  end.
  rewrite Hinv. cbn [bind]. simpl in HrBL, HcBL.
  unfold matmul. simpl nrows. simpl ncols.
  rewrite HcBL, HrB, !Nat.eqb_refl. cbn [bind].
  eexists. eexists. split; [reflexivity|].
  split; (split; [apply wf_tab2|]); simpl; split; congruence.
Qed.

Lemma discretize_broadcasts_column_witness :
  exists Abar Bbar,
    discretize ex_B_tall ex_B_tall ex_C 1 = Ok (Abar, Bbar, ex_C) /\
    has_shape Abar 2 2 /\ has_shape Bbar 2 1.
Proof.
  apply (discretize_broadcasts_column 2 ex_B_tall ex_B_tall ex_C 1).
  - split; [|split; reflexivity]. split; [reflexivity|]. repeat constructor.
  - split; [|split; reflexivity]. split; [reflexivity|]. repeat constructor.
Defined.

(** X19: an [A] of shape [(N, M)] with [M] neither [N] nor [1] makes
    [discretize] raise: the broadcast against the identity fails, except
    for a single row ([N = 1]), which the inversion rejects. *)
Theorem discretize_rejects_non_square (N Mc : nat) (A B C : matrix complex) (step : R) :
  has_shape A N Mc -> Mc <> N -> Mc <> 1%nat ->
  discretize A B C step =
    Raise (if (N =? 1)%nat then ValueError else ShapeError).
Proof.
  intros (HwfA & HrA & HcA) Hne Hm.
  unfold discretize, mbroadcast. cbn [nrows ncols eye tab2 mmap].
  rewrite HrA, HcA, bdim_same. cbn [bind].
  destruct (Nat.eqb_spec N 1) as [->|Hn].
  - assert (Hb : bdim 1 Mc = Ok Mc).
    { unfold bdim. destruct (Nat.eqb_spec 1 Mc); [lia|]. reflexivity. }
    rewrite Hb. cbn [bind]. unfold inv. simpl nrows. simpl ncols.
    destruct (Nat.eqb_spec 1 Mc); [lia|]. reflexivity.
  - assert (Hb : bdim N Mc = Raise ShapeError).
    { unfold bdim. destruct (Nat.eqb_spec N Mc); [lia|].
      destruct (Nat.eqb_spec N 1); [lia|]. destruct (Nat.eqb_spec Mc 1); [lia|].
      reflexivity. }
    rewrite Hb. reflexivity.
Qed.

Lemma discretize_rejects_non_square_witness :
  discretize ex_A_wide ex_B_tall ex_C 1 =
    Raise (if (2 =? 1)%nat then ValueError else ShapeError).
Proof.
  apply (discretize_rejects_non_square 2 3 ex_A_wide ex_B_tall ex_C 1).
  - split; [|split; reflexivity]. split; [reflexivity|]. repeat constructor.
  - discriminate.
  - discriminate.
Defined.

(** X20: given that [eig_cpu] returned an eigendecomposition of the
    matrix [S] it was handed, [S4LayerInit(N)] binds a transition matrix
    [A = diag(Lambda) - p q*] of shape [(N, N)], vectors [p], [q] and
    [Lambda] of length [N], and every entry of [Lambda] has the real part
    [-1/2]. *)
Theorem S4LayerInit_returns_DPLR (N : nat) :
  eig_result (DPLR_S N) (eig_cpu (DPLR_S N)) ->
  exists A p q Lambda,
    S4LayerInit N = Ok (A, p, q, Lambda) /\
    A = DPLR_matrix Lambda p q /\
    has_shape A N N /\
    length p = N /\ length q = N /\ length Lambda = N /\
    Forall (fun l => re l = -0.5) Lambda.
Proof.
  intros Heig. unfold S4LayerInit, make_DPLR_HiPPO.
  destruct (eig_cpu (DPLR_S N)) as [w V].
  destruct (DPLR_S_shape N) as (_ & HrS & HcS).
  destruct Heig as (Hlen & HwfV & HrV & HcV & Hpairs).
  cbn [fst snd] in Hlen, HwfV, HrV, HcV, Hpairs.
  rewrite HrS in Hlen, HrV, HcV, Hpairs.
  assert (Hp : length (map RtoC (map (Rmult 0.5) (DPLR_p N))) = N).
  { rewrite !length_map. apply DPLR_p_length. }
  assert (Hq : length (map Cconj (map RtoC (DPLR_p N))) = N).
  { rewrite !length_map. apply DPLR_p_length. }
  unfold matvec. simpl ncols. rewrite Hp, Hq, HrV, Nat.eqb_refl. cbn [bind].
  simpl nrows. rewrite HcV.
  assert (HLam : length (map (fun d => (d - RtoC 0.5)%C) w) = N).
  { rewrite length_map. exact Hlen. }
  eexists. eexists. eexists. eexists.
  split; [reflexivity|]. split; [reflexivity|].
  split; [apply DPLR_matrix_shape; exact HLam|].
  split; [apply tab1_length|]. split; [apply tab1_length|]. split; [exact HLam|].
  apply Forall_forall. intros x Hx. apply in_map_iff in Hx.
  destruct Hx as [d [<- Hd]].
  destruct (In_nth w d C0 Hd) as [i [Hi Hnth]].
  rewrite Hlen in Hi.
  pose proof (skew_eigenvalue_imaginary (DPLR_S N) N (vget w i) (column V i)
                HrS HcS (DPLR_S_skew N) (Hpairs i Hi)) as Hre.
  unfold vget in Hre. change (@s0 complex C_scalar) with C0 in Hre.
  rewrite Hnth in Hre. simpl. lra.
Qed.

Lemma S4LayerInit_returns_DPLR_witness :
  exists A p q Lambda,
    S4LayerInit 2 = Ok (A, p, q, Lambda) /\
    A = DPLR_matrix Lambda p q /\
    has_shape A 2 2 /\
    length p = 2%nat /\ length q = 2%nat /\ length Lambda = 2%nat /\
    Forall (fun l => re l = -0.5) Lambda.
Proof.
  apply (S4LayerInit_returns_DPLR 2).
  unfold eig_cpu. apply epsilon_spec.
  exists (ex_eig_w, ex_eig_V). exact ex_eig_result.
Defined.

Lemma bilinear_zero_step (N : nat) (A : matrix complex) :
  has_shape A N N ->
  bilinear_minus A 0 = eye N /\ bilinear_plus A 0 = eye N.
Proof.
  intros (HwfA & HrA & HcA).
  split; (apply mat_ext; [apply wf_tab2|apply wf_tab2|simpl; congruence|simpl; congruence|]);
    simpl nrows; simpl ncols; rewrite HrA; intros i j Hi Hj;
    unfold bilinear_minus, bilinear_plus;
    (rewrite get_mzip by (simpl; lia)); rewrite HrA;
    (rewrite get_mmap by (try exact HwfA; lia));
    apply complex_eq; simpl; lra.
Qed.

(** X21: with a zero step, [discretize] returns the identity for [Abar]
    and the zero column for [Bbar], whatever [A] and [B] are. *)
Theorem discretize_zero_step (N : nat) (A B C : matrix complex) :
  has_shape A N N -> has_shape B N 1 ->
  discretize A B C 0 = Ok (eye N, tab2 N 1 (fun _ _ => C0), C).
Proof.
  intros HA HB. destruct (bilinear_zero_step N A HA) as [HX HY].
  assert (HM : is_inverse (bilinear_minus A 0) (eye N)).
  { rewrite HX. split; [apply wf_tab2|]. split; [reflexivity|]. split; [reflexivity|].
    simpl nrows. split; apply (mat_mul_eye_l (eye N)); apply wf_tab2. }
  destruct HB as (HwfB & HrB & HcB).
  rewrite (discretize_value N A B C (eye N) 0 HA HrB HM).
  rewrite HY. f_equal. f_equal. f_equal.
  - apply (mat_mul_eye_l (eye N)). apply wf_tab2.
  - unfold mat_mul. simpl nrows. rewrite HcB.
    apply tab2_ext. intros i j Hi Hj.
    refine (bigsum_zero (T := complex) _ _ _). intros k Hk. unfold mscale.
    rewrite get_mmap by (try apply wf_tab2; simpl in *; lia).
    cbn [smul s0 C_scalar]. apply complex_eq; simpl; ring.
Qed.

Lemma discretize_zero_step_witness :
  discretize ex_A ex_B ex_C 0 = Ok (eye 1, tab2 1 1 (fun _ _ => C0), ex_C).
Proof.
  apply (discretize_zero_step 1 ex_A ex_B ex_C); apply has_shape_1x1.
Defined.

Lemma cauchy_k_zeros (Lambda a : list complex) (g : complex) (n : nat) :
  cauchy_k Lambda g a (zeros n) = C0.
Proof.
  unfold cauchy_k. refine (bigsum_zero (T := complex) _ _ _). intros i _. unfold Cdiv.
  assert (E : vget (zeros n) i = C0).
  { unfold vget, zeros. rewrite nth_repeat. reflexivity. }
  rewrite E. change (@s0 complex C_scalar) with C0. ring.
Qed.

(** X22: without a low-rank part ([p = 0]), at an argument [z] where
    the closed form divides by no zero ([1 + z <> 0] and
    [g(z) <> Lambda_i]), the generating function of [K_gen_DPLR] is the
    single Cauchy dot product
    [c(z) sum_i conj(Ct_i) B_i / (g(z) - Lambda_i)]. *)
Theorem K_gen_DPLR_diagonal (N : nat) (Lambda q : list complex) (B : matrix complex)
    (Ct : list complex) (step : R) (z : complex) :
  length Lambda = N -> length q = N -> has_shape B N 1 -> length Ct = N ->
  step <> 0 ->
  (C1 + z)%C <> C0 ->
  (forall i, (i < N)%nat -> bilinear_g step z <> vget Lambda i) ->
  K_gen_DPLR Lambda (zeros N) q B Ct step z =
    Ok (bilinear_c z *
        cauchy_k Lambda (bilinear_g step z) (map Cconj Ct) (ravel B))%C.
Proof.
  intros HL Hq HB HCt Hstep _ _. subst N.
  rewrite K_gen_DPLR_value; try assumption; [|apply repeat_length].
  f_equal. unfold woodbury. rewrite !cauchy_k_zeros. ring.
Qed.

Lemma samp_pole_free (i : nat) :
  (i < 2)%nat -> bilinear_g 2 C0 <> vget samp_Lambda i.
Proof.
  intros Hi. rewrite ex_bilinear_g.
  assert (Hi' : i = 0%nat \/ i = 1%nat) by lia. destruct Hi' as [-> | ->].
  - intros H. apply (f_equal im) in H. simpl in H. lra.
  - intros H. apply (f_equal re) in H. simpl in H. lra.
Qed.

Lemma K_gen_DPLR_diagonal_witness :
  K_gen_DPLR samp_Lambda (zeros 2) samp_q (mcomplex samp_B) [Ci; C1] 2 C0 =
    Ok (bilinear_c C0 *
        cauchy_k samp_Lambda (bilinear_g 2 C0) (map Cconj [Ci; C1])
          (ravel (mcomplex samp_B)))%C.
Proof.
  apply (K_gen_DPLR_diagonal 2 samp_Lambda samp_q (mcomplex samp_B) [Ci; C1] 2 C0).
  - reflexivity.
  - reflexivity.
  - split; [|split; reflexivity]. split; [reflexivity|]. repeat constructor.
  - reflexivity.
  - lra.
  - exact ex_one_plus_z.
  - exact samp_pole_free.
Defined.

Lemma unit_root_injective (L j k : nat) :
  (j < L)%nat -> (k < L)%nat -> unit_root L j = unit_root L k -> j = k.
Proof.
  assert (Hlt : forall a b, (a < b)%nat -> (b < L)%nat ->
            unit_root L a <> unit_root L b).
  { intros a b Hab Hb E.
    replace b with (a + (b - a))%nat in E by lia.
    rewrite unit_root_add in E.
    assert (Hz : (unit_root L a * (unit_root L (b - a) - C1))%C = C0).
    { replace (unit_root L a * (unit_root L (b - a) - C1))%C
        with (unit_root L a * unit_root L (b - a) - unit_root L a)%C by ring.
      rewrite <- E. ring. }
    apply Cmul_integral in Hz. destruct Hz as [Hz|Hz].
    - pose proof (unit_root_norm L a) as Hn. rewrite Hz in Hn.
      unfold Cnorm2 in Hn. simpl in Hn. lra.
    - apply (unit_root_neq_1 L (b - a)); [lia|].
      replace (unit_root L (b - a)) with ((unit_root L (b - a) - C1) + C1)%C by ring.
      rewrite Hz. ring. }
  intros Hj Hk E. destruct (Nat.lt_trichotomy j k) as [H|[H|H]].
  - exfalso. exact (Hlt j k H Hk E).
  - exact H.
  - exfalso. exact (Hlt k j H Hj (eq_sym E)).
Qed.

(** X23: for [L >= 1] the sample points of [convFromGen] are [L]
    pairwise distinct [L]-th roots of unity, the first of them [1]. *)
Theorem roots_of_unity_are_the_roots (L : nat) :
  (0 < L)%nat ->
  length (roots_of_unity L) = L /\
  nth 0 (roots_of_unity L) C0 = C1 /\
  Forall (fun z => Cpow z L = C1) (roots_of_unity L) /\
  NoDup (roots_of_unity L).
Proof.
  intros HL. rewrite roots_of_unity_tab. unfold tab1.
  split; [rewrite length_map, length_seq; reflexivity|].
  split; [rewrite (nth_map_seq _ 0 L 0 C0 HL); apply unit_root_0|].
  split.
  - apply Forall_forall. intros z Hz. apply in_map_iff in Hz.
    destruct Hz as [k [<- _]].
    rewrite unit_root_pow, <- (Nat.add_0_r (k * L)).
    rewrite (unit_root_multiple L k 0 HL). apply unit_root_0.
  - apply NoDup_map_NoDup_ForallPairs; [|apply seq_NoDup].
    intros j k Hj Hk E. apply in_seq in Hj. apply in_seq in Hk.
    apply (unit_root_injective L); [lia|lia|exact E].
Qed.

Lemma roots_of_unity_are_the_roots_witness :
  length (roots_of_unity 4) = 4%nat /\
  nth 0 (roots_of_unity 4) C0 = C1 /\
  Forall (fun z => Cpow z 4 = C1) (roots_of_unity 4) /\
  NoDup (roots_of_unity 4).
Proof.
  apply (roots_of_unity_are_the_roots 4). lia.
Defined.

(** ** The unitary similarity behind [S4LayerInit] *)

Lemma make_DPLR_HiPPO_unfold (N : nat) :
  make_DPLR_HiPPO N = make_DPLR_HiPPO_of N (eig_cpu (DPLR_S N)).
Proof. reflexivity. Qed.

Lemma S4LayerInit_unfold (N : nat) :
  S4LayerInit N = S4LayerInit_of (make_DPLR_HiPPO N).
Proof. reflexivity. Qed.

Lemma get_conjT (V : matrix complex) (i k : nat) :
  (i < ncols V)%nat -> (k < nrows V)%nat -> get (conjT V) i k = Cconj (get V k i).
Proof. intros Hi Hk. unfold conjT. rewrite get_tab2 by assumption. reflexivity. Qed.

Section Similarity.
Variables (N : nat) (w : list complex) (V : matrix complex).
Hypothesis Heig : eig_result (DPLR_S N) (w, V).
Hypothesis Hunit : mat_mul (conjT V) V = eye N.

Let P (k : nat) : complex := RtoC (vget (DPLR_p N) k).

Lemma sim_shape : length w = N /\ has_shape V N N.
Proof.
  destruct (DPLR_S_shape N) as (_ & HrS & _).
  destruct Heig as (Hlen & HwfV & HrV & HcV & _). cbn [fst snd] in *.
  split; [congruence|]. split; [exact HwfV|]. split; congruence.
Qed.

(** [sum_l S_kl V_lj = w_j V_kj]. *)
Lemma sim_eigen (k j : nat) :
  (k < N)%nat -> (j < N)%nat ->
  bigsum N (fun l => (RtoC (get (DPLR_S N) k l) * get V l j)%C) =
  (vget w j * get V k j)%C.
Proof.
  intros Hk Hj. destruct (DPLR_S_shape N) as (_ & HrS & HcS).
  destruct sim_shape as (_ & _ & HrV & _).
  destruct Heig as (_ & _ & _ & _ & Hpairs). cbn [fst snd] in Hpairs.
  rewrite HrS in Hpairs. destruct (Hpairs j Hj) as (_ & _ & Heq).
  rewrite HrS, HcS in Heq. specialize (Heq k Hk).
  unfold column in Heq. rewrite HrV in Heq.
  rewrite vget_tab1 in Heq by exact Hk. rewrite <- Heq.
  apply bigsum_ext. intros l Hl. rewrite vget_tab1 by exact Hl. reflexivity.
Qed.

(** [sum_k conj(V_ki) V_kj = [i = j]]. *)
Lemma sim_unitary (i j : nat) :
  (i < N)%nat -> (j < N)%nat ->
  bigsum N (fun k => (Cconj (get V k i) * get V k j)%C) =
  if (i =? j)%nat then C1 else C0.
Proof.
  intros Hi Hj. destruct sim_shape as (_ & _ & HrV & HcV).
  pose proof (f_equal (fun m => get m i j) Hunit) as E. cbv beta in E.
  rewrite get_mat_mul, get_eye in E by (simpl; lia).
  simpl ncols in E. rewrite HrV in E. cbn [s0 s1 C_scalar] in E. rewrite <- E.
  apply bigsum_ext. intros k Hk. rewrite get_conjT by lia. reflexivity.
Qed.

Lemma sim_hippo_entry (k l : nat) :
  (k < N)%nat -> (l < N)%nat ->
  RtoC (get (DPLR_hippo N) k l) =
  (RtoC (get (DPLR_S N) k l)
   - (RtoC 0.5 * (P k * P l) + RtoC 0.5 * (if (k =? l)%nat then C1 else C0)))%C.
Proof.
  intros Hk Hl. rewrite get_DPLR_S by assumption. unfold P.
  destruct (k =? l)%nat; apply complex_eq; simpl; lra.
Qed.

(** The entries of [V* hippo V]. *)
Lemma sim_conjugated_entry (i j : nat) :
  (i < N)%nat -> (j < N)%nat ->
  get (mat_mul (mat_mul (conjT V) (mcomplex (DPLR_hippo N))) V) i j =
  ((if (i =? j)%nat then vget w i - RtoC 0.5 else C0)
   - (RtoC 0.5 * bigsum N (fun k => (Cconj (get V k i) * P k)%C))
     * bigsum N (fun l => (P l * get V l j)%C))%C.
Proof.
  intros Hi Hj. destruct sim_shape as (_ & HwfV & HrV & HcV).
  destruct (DPLR_hippo_shape N) as (_ & HrH & HcH).
  assert (Hc1 : ncols (mat_mul (conjT V) (mcomplex (DPLR_hippo N))) = N) by exact HcH.
  assert (Hr1 : nrows (mat_mul (conjT V) (mcomplex (DPLR_hippo N))) = N) by exact HcV.
  rewrite get_mat_mul by lia. rewrite Hc1.
  rewrite (bigsum_ext N _ (fun l =>
    bigsum N (fun k =>
      (Cconj (get V k i) * (RtoC (get (DPLR_S N) k l) * get V l j)
       - RtoC 0.5 * ((Cconj (get V k i) * P k) * (P l * get V l j))
       - RtoC 0.5 * ((if (k =? l)%nat then C1 else C0)
                     * (Cconj (get V k i) * get V l j)))%C))).
  2:{ intros l Hl.
      assert (Hc2 : ncols (conjT V) = N) by exact HrV.
      assert (Hr2 : nrows (conjT V) = N) by exact HcV.
      assert (Hc3 : ncols (mcomplex (DPLR_hippo N)) = N) by exact HcH.
      rewrite get_mat_mul by lia. rewrite Hc2.
      transitivity (bigsum N (fun k =>
        ((get (conjT V) i k * get (mcomplex (DPLR_hippo N)) k l) * get V l j)%C)).
      { symmetry. exact (bigsum_scal_r N (get V l j)
          (fun k => (get (conjT V) i k * get (mcomplex (DPLR_hippo N)) k l)%C)). }
      apply bigsum_ext. intros k Hk.
      rewrite get_conjT by lia. rewrite get_mcomplex_total.
      rewrite (sim_hippo_entry k l Hk Hl). ring. }
  rewrite bigsum_swap.
  rewrite (bigsum_ext N _ (fun k =>
    (Cconj (get V k i) * (vget w j * get V k j)
     - RtoC 0.5 * ((Cconj (get V k i) * P k) * bigsum N (fun l => (P l * get V l j)%C))
     - RtoC 0.5 * (Cconj (get V k i) * get V k j))%C)).
  2:{ intros k Hk.
      rewrite Cbigsum_sub, Cbigsum_sub.
      f_equal; [f_equal|].
      - rewrite Cbigsum_scal_l. rewrite (sim_eigen k j Hk Hj). reflexivity.
      - rewrite Cbigsum_scal_l, Cbigsum_scal_l. reflexivity.
      - rewrite Cbigsum_scal_l. f_equal.
        rewrite (Cbigsum_single N k).
        + rewrite Nat.eqb_refl. ring.
        + exact Hk.
        + intros l Hl Hne. destruct (Nat.eqb_spec k l); [congruence|]. ring. }
  rewrite Cbigsum_sub, Cbigsum_sub.
  rewrite (bigsum_ext N (fun k => (Cconj (get V k i) * (vget w j * get V k j))%C)
             (fun k => (vget w j * (Cconj (get V k i) * get V k j))%C))
    by (intros; ring).
  rewrite !Cbigsum_scal_l, Cbigsum_scal_r, (sim_unitary i j Hi Hj).
  destruct (Nat.eqb_spec i j) as [->|_]; ring.
Qed.

End Similarity.

Lemma vget_map_total {U W : Type} `{Scalar U} `{Scalar W} (f : U -> W) (v : list U)
    (i : nat) :
  (i < length v)%nat -> vget (map f v) i = f (vget v i).
Proof.
  intros Hi. unfold vget.
  rewrite (nth_indep _ _ (f s0)) by (rewrite length_map; exact Hi).
  apply (map_nth f).
Qed.

(** The value computed by the body of [S4LayerInit] from a unitary
    eigendecomposition of [S]. *)
Lemma S4LayerInit_of_similar (N : nat) (w : list complex) (V : matrix complex) :
  eig_result (DPLR_S N) (w, V) ->
  mat_mul (conjT V) V = eye N ->
  exists A p q Lambda,
    S4LayerInit_of (make_DPLR_HiPPO_of N (w, V)) = Ok (A, p, q, Lambda) /\
    A = mat_mul (mat_mul (conjT V) (mcomplex (DPLR_hippo N))) V.
Proof.
  intros Heig Hunit.
  destruct (sim_shape N w V Heig) as (Hlen & HwfV & HrV & HcV).
  unfold S4LayerInit_of, make_DPLR_HiPPO_of.
  assert (Hp : length (map RtoC (map (Rmult 0.5) (DPLR_p N))) = N).
  { rewrite !length_map. apply DPLR_p_length. }
  assert (Hq : length (map Cconj (map RtoC (DPLR_p N))) = N).
  { rewrite !length_map. apply DPLR_p_length. }
  assert (Hc2 : ncols (conjT V) = N) by exact HrV.
  assert (Hr2 : nrows (conjT V) = N) by exact HcV.
  unfold matvec. rewrite Hc2, Hp, Hq, Nat.eqb_refl, Hr2. cbn [bind].
  eexists. eexists. eexists. eexists. split; [reflexivity|].
  set (Lam := map (fun d => (d - RtoC 0.5)%C) w).
  set (p' := tab1 N (fun i => bigsum N (fun j =>
                smul (get (conjT V) i j)
                     (vget (map RtoC (map (Rmult 0.5) (DPLR_p N))) j)))).
  set (q' := tab1 N (fun i => bigsum N (fun j =>
                smul (get (conjT V) i j)
                     (vget (map Cconj (map RtoC (DPLR_p N))) j)))).
  assert (HLam : length Lam = N) by (unfold Lam; rewrite length_map; exact Hlen).
  assert (Hp' : length p' = N) by apply tab1_length.
  assert (Hq' : length q' = N) by apply tab1_length.
  apply mat_ext.
  - apply wf_tab2.
  - apply wf_tab2.
  - simpl. congruence.
  - simpl. congruence.
  - destruct (DPLR_matrix_shape Lam p' q' N HLam) as (_ & HrA & HcA).
    rewrite HrA, HcA. intros i j Hi Hj.
    rewrite (get_DPLR_matrix Lam p' q' N i j HLam Hp' Hq' Hi Hj).
    rewrite (sim_conjugated_entry N w V Heig Hunit i j Hi Hj).
    assert (E1 : vget Lam i = (vget w i - RtoC 0.5)%C).
    { unfold Lam. apply (vget_map_total (fun d => (d - RtoC 0.5)%C)). lia. }
    assert (E2 : vget p' i =
              (RtoC 0.5 * bigsum N (fun k =>
                 (Cconj (get V k i) * RtoC (vget (DPLR_p N) k))%C))%C).
    { unfold p'. rewrite vget_tab1 by exact Hi.
      rewrite <- Cbigsum_scal_l. apply bigsum_ext. intros k Hk.
      rewrite get_conjT by lia.
      rewrite (vget_map_total RtoC) by (rewrite length_map, DPLR_p_length; exact Hk).
      rewrite (vget_map_total (Rmult 0.5)) by (rewrite DPLR_p_length; exact Hk).
      cbn [smul C_scalar]. apply complex_eq; simpl; ring. }
    assert (E3 : vget (map Cconj q') j =
              bigsum N (fun l => (RtoC (vget (DPLR_p N) l) * get V l j)%C)).
    { rewrite vget_map_Cconj by (rewrite Hq'; exact Hj).
      unfold q'. rewrite vget_tab1 by exact Hj. rewrite Cconj_bigsum.
      apply bigsum_ext. intros l Hl.
      rewrite get_conjT by lia.
      rewrite (vget_map_total Cconj) by (rewrite length_map, DPLR_p_length; exact Hl).
      rewrite (vget_map_total RtoC) by (rewrite DPLR_p_length; exact Hl).
      cbn [smul C_scalar]. rewrite Cconj_mul, !Cconj_conj. ring. }
    rewrite E1, E2, E3.
    destruct (i =? j)%nat; reflexivity.
Qed.

(** X24: when the pair [(w, V)] handed back by [eig_cpu] is an
    eigendecomposition of [S] with [V* V = I], the transition matrix that
    [S4LayerInit] builds from it is [V* hippo V]: it is unitarily similar
    to the [hippo] matrix of [make_DPLR_HiPPO]. *)
Theorem S4LayerInit_unitary_similarity (N : nat) (w : list complex) (V : matrix complex) :
  eig_result (DPLR_S N) (w, V) ->
  mat_mul (conjT V) V = eye N ->
  exists A p q Lambda,
    S4LayerInit_of (make_DPLR_HiPPO_of N (w, V)) = Ok (A, p, q, Lambda) /\
    A = mat_mul (mat_mul (conjT V) (mcomplex (DPLR_hippo N))) V /\
    (eig_cpu (DPLR_S N) = (w, V) -> S4LayerInit N = Ok (A, p, q, Lambda)).
Proof.
  intros Heig Hunit.
  destruct (S4LayerInit_of_similar N w V Heig Hunit) as (A & p & q & Lam & Hval & HA).
  exists A, p, q, Lam. split; [exact Hval|]. split; [exact HA|].
  intros Hcpu. rewrite S4LayerInit_unfold, make_DPLR_HiPPO_unfold, Hcpu. exact Hval.
Qed.

Lemma inv_sqrt2_sq : / sqrt 2 * / sqrt 2 = / 2.
Proof.
  rewrite <- Rinv_mult, sqrt_sqrt by lra. reflexivity.
Qed.

Lemma ex_unitary_eig_result : eig_result (DPLR_S 2) (ex_eig_w, ex_unitary_V).
Proof.
  destruct (DPLR_S_shape 2) as (_ & HrS & HcS).
  pose proof (DPLR_S_skew 2 0 0 ltac:(lia) ltac:(lia)) as H00.
  pose proof (DPLR_S_skew 2 1 1 ltac:(lia) ltac:(lia)) as H11.
  pose proof (DPLR_S_skew 2 1 0 ltac:(lia) ltac:(lia)) as H10.
  assert (Hr : / sqrt 2 <> 0).
  { apply Rinv_neq_0_compat. pose proof (sqrt_lt_R0 2). lra. }
  unfold eig_result, eigenpair. cbn [fst snd]. rewrite HrS, HcS.
  unfold ex_eig_w. remember (get (DPLR_S 2)) as g eqn:Hg.
  assert (G00 : g 0%nat 0%nat = 0) by lra.
  assert (G11 : g 1%nat 1%nat = 0) by lra.
  remember (/ sqrt 2) as r eqn:Er.
  split; [reflexivity|]. split.
  { split; [reflexivity|]. repeat constructor. }
  split; [reflexivity|]. split; [reflexivity|].
  intros i Hi. split; [reflexivity|]. split.
  - exists 0%nat. split; [lia|].
    destruct i as [|[|i]]; try lia;
      intros H; apply (f_equal re) in H;
      unfold ex_unitary_V in H; rewrite <- Er in H; simpl in H; lra.
  - intros k Hk.
    destruct i as [|[|i]]; try lia; destruct k as [|[|k]]; try lia;
      apply complex_eq;
      cbv [bigsum vsum vget nth map seq fold_right column tab1 get rows nrows
           ex_unitary_V Cadd Csub Cmul Copp RtoC C0 C1 Ci re im
           s0 s1 sadd smul ssub sopp C_scalar R_scalar];
      rewrite <- ?Er, ?G00, ?G11, ?H10; ring.
Qed.

Lemma ex_unitary_V_unitary : mat_mul (conjT ex_unitary_V) ex_unitary_V = eye 2.
Proof.
  pose proof inv_sqrt2_sq as Hsq.
  unfold mat_mul, conjT, eye, tab2, bigsum, ex_unitary_V. simpl.
  repeat f_equal; apply complex_eq; simpl; nra.
Qed.

Lemma S4LayerInit_unitary_similarity_witness :
  exists A p q Lambda,
    S4LayerInit_of (make_DPLR_HiPPO_of 2 (ex_eig_w, ex_unitary_V)) = Ok (A, p, q, Lambda) /\
    A = mat_mul (mat_mul (conjT ex_unitary_V) (mcomplex (DPLR_hippo 2))) ex_unitary_V /\
    (eig_cpu (DPLR_S 2) = (ex_eig_w, ex_unitary_V) -> S4LayerInit 2 = Ok (A, p, q, Lambda)).
Proof.
  apply (S4LayerInit_unitary_similarity 2 ex_eig_w ex_unitary_V).
  - exact ex_unitary_eig_result.
  - exact ex_unitary_V_unitary.
Defined.

(** * The fast path at the computed sample points *)

(** [convFromGen] is [convFromGen_at] on the roots of unity. *)
Lemma convFromGen_at_roots (gen : complex -> result complex) (L : nat) :
  convFromGen gen L =
    if (L =? 0)%nat then Raise ZeroDivisionError
    else convFromGen_at (roots_of_unity L) gen L.
Proof. reflexivity. Qed.

(** ** The modulus of a complex number *)

Lemma Cnorm2_nonneg (a : complex) : 0 <= Cnorm2 a.
Proof. unfold Cnorm2. nra. Qed.

Lemma Cabs_nonneg (a : complex) : 0 <= Cabs a.
Proof. apply sqrt_pos. Qed.

Lemma Cabs_sqr (a : complex) : Cabs a * Cabs a = Cnorm2 a.
Proof. apply sqrt_sqrt, Cnorm2_nonneg. Qed.

Lemma Cabs_C0 : Cabs C0 = 0.
Proof.
  unfold Cabs. replace (Cnorm2 C0) with 0 by (unfold Cnorm2; simpl; ring).
  apply sqrt_0.
Qed.

Lemma Cabs_le (a : complex) (x : R) : 0 <= x -> Cnorm2 a <= x * x -> Cabs a <= x.
Proof.
  intros Hx H. unfold Cabs. rewrite <- (sqrt_square x Hx).
  apply sqrt_le_1_alt. exact H.
Qed.

Lemma Cabs_mul (a b : complex) : Cabs (a * b)%C = Cabs a * Cabs b.
Proof.
  unfold Cabs. rewrite <- sqrt_mult by apply Cnorm2_nonneg.
  f_equal. unfold Cnorm2. simpl. ring.
Qed.

Lemma Cabs_add (a b : complex) : Cabs (a + b)%C <= Cabs a + Cabs b.
Proof.
  pose proof (Cabs_nonneg a) as Ha. pose proof (Cabs_nonneg b) as Hb.
  pose proof (Cabs_sqr a) as Sa. pose proof (Cabs_sqr b) as Sb.
  apply Cabs_le; [lra|].
  unfold Cnorm2 in *. simpl.
  assert (Hcs : re a * re b + im a * im b <= Cabs a * Cabs b).
  { destruct (Rle_dec (re a * re b + im a * im b) 0) as [Hn|Hp].
    - apply Rle_trans with 0; [exact Hn|]. apply Rmult_le_pos; assumption.
    - apply Rnot_le_lt in Hp.
      apply Rsqr_incr_0_var; [|apply Rmult_le_pos; assumption].
      unfold Rsqr.
      replace (Cabs a * Cabs b * (Cabs a * Cabs b))
        with ((Cabs a * Cabs a) * (Cabs b * Cabs b)) by ring.
      rewrite Sa, Sb.
      pose proof (Rle_0_sqr (re a * im b - im a * re b)) as Hsq.
      unfold Rsqr in Hsq. nra. }
  nra.
Qed.

Lemma Cabs_re (a : complex) : Rabs (re a) <= Cabs a.
Proof.
  unfold Cabs. rewrite <- sqrt_Rsqr_abs.
  apply sqrt_le_1_alt. unfold Rsqr, Cnorm2. nra.
Qed.

Lemma Cabs_RtoC (x : R) : 0 <= x -> Cabs (RtoC x) = x.
Proof.
  intros Hx. unfold Cabs, Cnorm2. simpl.
  replace (x * x + 0 * 0) with (x * x) by ring. apply sqrt_square. exact Hx.
Qed.

Lemma Cabs_unit_root (L k : nat) : Cabs (unit_root L k) = 1.
Proof. unfold Cabs. rewrite unit_root_norm. apply sqrt_1. Qed.

(** The modulus of a sum of [n] terms, each of modulus at most [e]. *)
Lemma Cabs_bigsum (n : nat) (f : nat -> complex) (e : R) :
  (forall k, (k < n)%nat -> Cabs (f k) <= e) ->
  Cabs (bigsum n f) <= INR n * e.
Proof.
  intros Hf. induction n as [|n IH].
  - rewrite bigsum_0. cbn [s0 C_scalar]. rewrite Cabs_C0. simpl. lra.
  - rewrite bigsum_S. cbn [sadd C_scalar].
    apply Rle_trans with (Cabs (bigsum n f) + Cabs (f n)); [apply Cabs_add|].
    rewrite S_INR.
    assert (H1 : Cabs (bigsum n f) <= INR n * e) by (apply IH; intros k Hk; apply Hf; lia).
    assert (H2 : Cabs (f n) <= e) by (apply Hf; lia).
    lra.
Qed.

(** ** Sampling at the computed points *)

Lemma mapM_index (gen : complex -> result complex) (r : list complex) (s : nat -> complex) :
  (forall k, (k < length r)%nat -> gen (vget r k) = Ok (s k)) ->
  mapM gen r = Ok (tab1 (length r) s).
Proof.
  revert s. induction r as [|x r IH]; intros s Hs.
  - reflexivity.
  - pose proof (Hs 0%nat ltac:(simpl; lia)) as H0. change (vget (x :: r) 0) with x in H0.
    simpl mapM. rewrite H0. cbn [bind].
    rewrite (IH (fun k => s (S k))).
    + cbn [bind]. f_equal. simpl length. unfold tab1. simpl. f_equal.
      rewrite <- seq_shift, map_map. reflexivity.
    + intros k Hk. apply (Hs (S k)). simpl. lia.
Qed.

(** Every step of [convFromGen] after the sampling, on [L] samples. *)
Lemma convFromGen_at_steps (gen : complex -> result complex) (L : nat)
    (r : list complex) (s : nat -> complex) :
  (0 < L)%nat -> length r = L ->
  (forall k, (k < L)%nat -> gen (vget r k) = Ok (s k)) ->
  convFromGen_at r gen L =
    Ok (tab1 L (fun i =>
          re (RtoC (/ INR L) *
              bigsum L (fun k =>
                s k * unit_root L ((if (i =? 0)%nat then i else L - i) * k)))%C)).
Proof.
  intros HL Hr Hs. unfold convFromGen_at.
  rewrite (mapM_index gen r s) by (rewrite Hr; exact Hs). rewrite Hr. cbn [bind].
  unfold ifft. destruct (Nat.eqb_spec L 0) as [?|_]; [lia|]. cbn [bind].
  rewrite tab1_length, Nat.eqb_refl. cbn [bind]. f_equal.
  unfold kernel_order, tab1. rewrite map_map.
  apply map_ext_in. intros i Hi. apply in_seq in Hi.
  assert (Hlt : ((if (i =? 0)%nat then i else L - i) < L)%nat).
  { destruct (Nat.eqb_spec i 0); lia. }
  fold (tab1 L (fun m => (RtoC (/ INR L) *
          bigsum L (fun k =>
            (vget (map s (seq 0 L)) k *
             Cexp (mkC 0 (2 * PI * INR m * INR k / INR L)))%C))%C)).
  rewrite vget_tab1 by exact Hlt.
  do 2 f_equal. apply bigsum_ext. intros k Hk.
  rewrite ifft_kernel. f_equal.
  exact (vget_tab1 L s k Hk).
Qed.

(** Samples within [eps] of the values of a polynomial of degree below
    [L] at the roots of unity give its coefficients within [eps]. *)
Lemma convFromGen_at_close (gen : complex -> result complex) (L : nat)
    (r K : list complex) (s : nat -> complex) (eps : R) :
  (0 < L)%nat -> length r = L -> length K = L ->
  (forall k, (k < L)%nat -> gen (vget r k) = Ok (s k)) ->
  (forall k, (k < L)%nat ->
     Cabs (s k - bigsum L (fun l => vget K l * Cpow (unit_root L k) l))%C <= eps) ->
  exists Kf,
    convFromGen_at r gen L = Ok Kf /\ length Kf = L /\
    forall l, (l < L)%nat -> Rabs (vget Kf l - re (vget K l)) <= eps.
Proof.
  intros HL Hr HK Hs Heps.
  eexists. split; [exact (convFromGen_at_steps gen L r s HL Hr Hs)|].
  split; [apply tab1_length|].
  intros i Hi. rewrite vget_tab1 by exact Hi.
  set (m := if (i =? 0)%nat then i else (L - i)%nat).
  rewrite <- (inverse_transform_entry K L i HL Hi). fold m.
  set (P := fun k => bigsum L (fun l => (vget K l * Cpow (unit_root L k) l)%C)).
  assert (HLr : 0 < INR L) by (apply lt_0_INR; exact HL).
  assert (E : re (RtoC (/ INR L) * bigsum L (fun k => s k * unit_root L (m * k)))%C -
              re (RtoC (/ INR L) * bigsum L (fun k => P k * unit_root L (m * k)))%C =
              re (RtoC (/ INR L) *
                  bigsum L (fun k => (s k - P k) * unit_root L (m * k)))%C).
  { rewrite (bigsum_ext L (fun k => ((s k - P k) * unit_root L (m * k))%C)
               (fun k => (s k * unit_root L (m * k) - P k * unit_root L (m * k))%C))
      by (intros k _; ring).
    rewrite Cbigsum_sub. simpl. ring. }
  unfold P in E. rewrite E. fold P.
  apply Rle_trans with (Cabs (RtoC (/ INR L) *
           bigsum L (fun k => (s k - P k) * unit_root L (m * k)))%C);
    [apply Cabs_re|].
  rewrite Cabs_mul, Cabs_RtoC by (apply Rlt_le, Rinv_0_lt_compat; exact HLr).
  apply Rle_trans with (/ INR L * (INR L * eps)).
  - apply Rmult_le_compat_l; [apply Rlt_le, Rinv_0_lt_compat; exact HLr|].
    apply Cabs_bigsum. intros k Hk.
    rewrite Cabs_mul, Cabs_unit_root, Rmult_1_r. exact (Heps k Hk).
  - rewrite <- Rmult_assoc, Rinv_l by lra. lra.
Qed.

(** ** The closed form is the generating function by inversion *)

Section FastPathSampled.
Variables (N : nat) (Lambda p q : list complex) (step : R).
Variables (M Bc Cc : matrix complex).
Hypothesis HLam : length Lambda = N.
Hypothesis Hp : length p = N.
Hypothesis Hq : length q = N.
Hypothesis Hstep : step <> 0.
Hypothesis HB : has_shape Bc N 1.
Hypothesis HC : has_shape Cc 1 N.
Hypothesis HCreal : forall j, Cconj (get Cc 0 j) = get Cc 0 j.
Hypothesis HM : is_inverse (bilinear_minus (DPLR_matrix Lambda p q) step) M.

Let Abar := mat_mul M (bilinear_plus (DPLR_matrix Lambda p q) step).
Let Bbar := mat_mul (mscale M step) Bc.

Variable L : nat.
Let Ct := tab1 N (fun i =>
  bigsum N (fun j =>
    (get (conjT (mzip Csub (eye N) (mat_pow Abar L))) i j * vget (ravel Cc) j)%C)).

Section AtPoint.
Variables (z : complex) (Rz : matrix complex).
Hypothesis Hreg : regular_point Lambda p q step z.
Hypothesis HR : is_inverse (resolvent_minus Abar z) Rz.

Let U := tab2 N 1 (fun i _ =>
  (bilinear_c z * sm_solution Lambda p q (ravel Bc) (bilinear_g step z) i)%C).

(** The column [c w] of the closed form is [(I - z Abar)^-1 Bbar]. *)
Lemma fps_U : U = mat_mul Rz Bbar.
Proof.
  assert (HA : has_shape Abar N N) by exact (fp_Abar_shape N Lambda p q step M HLam HM).
  assert (HU : has_shape U N 1) by (split; [apply wf_tab2|split; reflexivity]).
  assert (E : Bbar = mat_mul (resolvent_minus Abar z) U).
  { rewrite (resolvent_minus_apply N Abar U z HA HU).
    exact (fp_Bbar N Lambda p q step M Bc HLam Hp Hq Hstep HB HM z Hreg). }
  destruct HR as (HwfR & HrR & HcR & Hl & _).
  destruct (resolvent_minus_shape N Abar z HA) as (_ & HrX & HcX).
  destruct HU as (HwfU & HrU & HcU).
  rewrite E, <- mat_mul_assoc by congruence.
  rewrite Hl, HrX, <- HrU. symmetry. apply mat_mul_eye_l. exact HwfU.
Qed.

(** At a regular point the closed form of [K_gen_DPLR] is the generating
    function [C (I - Abar^L) (I - z Abar)^-1 Bbar]. *)
Lemma fps_sample :
  woodbury Lambda (bilinear_g step z) (bilinear_c z)
    (map Cconj Ct) (map Cconj q) (ravel Bc) p =
  gen_inverse_value Abar Bbar Cc Rz L.
Proof.
  assert (HA : has_shape Abar N N) by exact (fp_Abar_shape N Lambda p q step M HLam HM).
  assert (HU : has_shape U N 1) by (split; [apply wf_tab2|split; reflexivity]).
  unfold gen_inverse_value. rewrite <- fps_U.
  destruct HA as (HwfA & HrA & HcA).
  rewrite HrA.
  rewrite (tel_ends N Abar Cc U (conj HwfA (conj HrA HcA)) HC HU L).
  rewrite woodbury_dot, HLam, <- Cbigsum_scal_l.
  transitivity (bigsum N (fun i =>
    (vget (map Cconj Ct) i *
     (bilinear_c z * sm_solution Lambda p q (ravel Bc) (bilinear_g step z) i))%C)).
  - apply bigsum_ext. intros i _. ring.
  - exact (fp_Ct_dot N Lambda p q step M Bc Cc HLam Hp Hq HC HCreal HM L z).
Qed.

End AtPoint.

(** The fast path on computed sample points. *)
Lemma fps_fast_kernel (r : list complex) (Rz : nat -> matrix complex) (eps : R) :
  (0 < L)%nat -> length r = L ->
  (forall k, (k < L)%nat -> regular_point Lambda p q step (vget r k)) ->
  (forall k, (k < L)%nat -> is_inverse (resolvent_minus Abar (vget r k)) (Rz k)) ->
  (forall k, (k < L)%nat ->
     sampling_error Abar Bbar Cc (Rz k) L (unit_root L k) <= eps) ->
  exists Kf,
    (P <- matrix_power Abar L ;;
     D' <- mbroadcast Csub (eye N) P ;;
     Ct' <- matvec (conjT D') (ravel Cc) ;;
     convFromGen_at r (K_gen_DPLR Lambda p q Bc Ct' step) L) = Ok Kf /\
    length Kf = L /\
    forall l, (l < L)%nat ->
      Rabs (vget Kf l - re (kernel_entry Abar Bbar Cc l)) <= eps.
Proof.
  intros HL Hr Hregular HRz Herr.
  assert (HA : has_shape Abar N N) by exact (fp_Abar_shape N Lambda p q step M HLam HM).
  destruct HA as (HwfA & HrA & HcA).
  destruct (mat_pow_shape Abar L) as (_ & HrP & HcP); [congruence|].
  destruct (ravel_row Cc N HC) as [HlenC _].
  unfold matrix_power. rewrite HrA, HcA, Nat.eqb_refl. cbn [bind].
  rewrite mbroadcast_same by (simpl; congruence). cbn [bind].
  unfold matvec. change (ncols (conjT (mzip Csub (eye N) (mat_pow Abar L)))) with N.
  rewrite HlenC, Nat.eqb_refl. cbn [bind].
  change (nrows (conjT (mzip Csub (eye N) (mat_pow Abar L)))) with N.
  change (tab1 N (fun i => bigsum N (fun j =>
            smul (get (conjT (mzip Csub (eye N) (mat_pow Abar L))) i j)
                 (vget (ravel Cc) j)))) with Ct.
  destruct (convFromGen_at_close (K_gen_DPLR Lambda p q Bc Ct step) L r
              (tab1 L (kernel_entry Abar Bbar Cc))
              (fun k => gen_inverse_value Abar Bbar Cc (Rz k) L) eps HL Hr
              (tab1_length L _)) as [Kf (HKf & Hlen & Hclose)].
  - intros k Hk.
    rewrite K_gen_DPLR_value;
      try congruence; try (rewrite HLam; assumption);
      try (unfold Ct; rewrite tab1_length; congruence).
    f_equal. apply fps_sample; [apply Hregular|apply HRz]; exact Hk.
  - intros k Hk.
    rewrite (bigsum_ext L _ (fun l => (kernel_entry Abar Bbar Cc l * Cpow (unit_root L k) l)%C)).
    + exact (Herr k Hk).
    + intros l Hl. rewrite vget_tab1 by exact Hl. reflexivity.
  - exists Kf. split; [exact HKf|]. split; [exact Hlen|].
    intros l Hl. specialize (Hclose l Hl).
    rewrite vget_tab1 in Hclose by exact Hl. exact Hclose.
Qed.

End FastPathSampled.

(** At a sample point that is a root of unity the generating function is
    the truncated one: the sampling error is zero. *)
Lemma sampling_error_at_root (N L : nat) (A B C Rz : matrix complex) (z : complex) :
  has_shape A N N -> has_shape B N 1 -> has_shape C 1 N ->
  Cpow z L = C1 ->
  is_inverse (resolvent_minus A z) Rz ->
  sampling_error A B C Rz L z = 0.
Proof.
  intros HA HB HC Hz HR.
  destruct (K_gen_inverse_value N L A B C Rz z HA HB HC HR) as [gen [Hgen Hval]].
  rewrite (K_gen_inverse_root_value N L A B C Rz z gen HA HB HC Hz HR Hgen) in Hval.
  injection Hval as Hval.
  unfold sampling_error, gen_inverse_value.
  destruct HA as (_ & HrA & _). rewrite HrA, <- Hval.
  replace (_ - _)%C with C0 by ring. apply Cabs_C0.
Qed.

Lemma Cabs_RtoC_abs (x : R) : Cabs (RtoC x) = Rabs x.
Proof.
  unfold Cabs, Cnorm2. simpl. replace (x * x + 0 * 0) with (Rsqr x) by (unfold Rsqr; ring).
  apply sqrt_Rsqr_abs.
Qed.

(** Two reals within [1e-4] are within the tolerances of [np.isclose]. *)
Lemma isclose_of_abs (x y : R) :
  Rabs (x - y) <= 1e-4 -> isclose (RtoC x) (RtoC y).
Proof.
  intros H. unfold isclose.
  replace (RtoC x - RtoC y)%C with (RtoC (x - y)) by (apply complex_eq; simpl; ring).
  rewrite Cabs_RtoC_abs. pose proof (Cabs_nonneg (RtoC y)). lra.
Qed.

(** Both layers' kernels, for a DPLR transition matrix and the sample
    points [r]. *)
Lemma layer_kernels_sampled (N L : nat) (Lambda p q : list complex) (B C : matrix R)
    (M : matrix complex) (r : list complex) (Rz : nat -> matrix complex) (eps : R) :
  (0 < L)%nat ->
  length Lambda = N -> length p = N -> length q = N ->
  has_shape B N 1 -> has_shape C 1 N ->
  is_inverse (bilinear_minus (DPLR_matrix Lambda p q) (1.0 / INR L)) M ->
  let Abar := mat_mul M (bilinear_plus (DPLR_matrix Lambda p q) (1.0 / INR L)) in
  let Bbar := mat_mul (mscale M (1.0 / INR L)) (mcomplex B) in
  length r = L ->
  (forall k, (k < L)%nat -> regular_point Lambda p q (1.0 / INR L) (vget r k)) ->
  (forall k, (k < L)%nat -> is_inverse (resolvent_minus Abar (vget r k)) (Rz k)) ->
  (forall k, (k < L)%nat ->
     sampling_error Abar Bbar (mcomplex C) (Rz k) L (unit_root L k) <= eps) ->
  NaiveSSMLayer_setup (DPLR_matrix Lambda p q) L B C =
    Ok (tab1 L (kernel_entry Abar Bbar (mcomplex C))) /\
  exists Kf,
    S4Layer_setup r (DPLR_matrix Lambda p q) p q Lambda N L B C = Ok Kf /\
    length Kf = L /\
    forall l, (l < L)%nat ->
      Rabs (vget Kf l - re (kernel_entry Abar Bbar (mcomplex C) l)) <= eps.
Proof.
  intros HL HLam Hp Hq HB HC HM Abar Bbar Hr Hreg HRz Herr.
  pose proof (mcomplex_shape B N 1 HB) as HBc.
  pose proof (mcomplex_shape C 1 N HC) as HCc.
  assert (HCreal : forall j, Cconj (get (mcomplex C) 0 j) = get (mcomplex C) 0 j).
  { intros j. rewrite get_mcomplex_total. apply Cconj_RtoC. }
  assert (Hd : discretize (DPLR_matrix Lambda p q) (mcomplex B) (mcomplex C)
                 (1.0 / INR L) = Ok (Abar, Bbar, mcomplex C)).
  { apply (discretize_value N).
    - apply DPLR_matrix_shape. exact HLam.
    - destruct HBc as (_ & HrB & _). exact HrB.
    - exact HM. }
  unfold NaiveSSMLayer_setup, S4Layer_setup.
  destruct (Nat.eqb_spec L 0) as [?|_]; [lia|].
  rewrite Hd. cbn [bind]. split.
  - exact (fp_naive_kernel N Lambda p q (1.0 / INR L) M (mcomplex B) (mcomplex C)
             HLam HBc HCc HM L).
  - exact (fps_fast_kernel N Lambda p q (1.0 / INR L) M (mcomplex B) (mcomplex C)
             HLam Hp Hq (step_nonzero L HL) HBc HCc HCreal HM L r Rz eps
             HL Hr Hreg HRz Herr).
Qed.


(** *** A two-state system with a low-rank part, at [l_max = 2] *)

Lemma one_dot_zero : 1.0 = 1.
Proof. lra. Qed.

(** Evaluation of a closed complex expression over the two-state sample. *)
Ltac eval_sample :=
  rewrite ?one_dot_zero;
  apply complex_eq;
  cbv [woodbury cauchy_k bilinear_g bilinear_c kernel_entry gen_inverse_value
       resolvent_minus inv2x2
       mat_mul mat_pow mscale mmap mcomplex mzip tab2 tab1 eye get
       bilinear_minus bilinear_plus DPLR_matrix diag outer
       bigsum vsum vget nth map seq length fold_right
       ravel concat rows nrows ncols app Nat.eqb Nat.sub Nat.add Cpow
       samp_Lambda samp_p samp_q samp_B samp_C samp_M samp_Abar samp_Bbar
       samp_r samp_Rz
       Cadd Csub Cmul Cdiv Cinv Copp Cconj Cnorm2 RtoC C0 C1 Ci re im INR
       s0 s1 sadd smul ssub sopp C_scalar R_scalar];
  (lra || (field; lra)).

Lemma has_shape_2x2 {T : Type} (a b c d : T) :
  has_shape (Mat 2 2 [[a; b]; [c; d]]) 2 2.
Proof.
  split; [|split; reflexivity]. split; [reflexivity|]. repeat constructor.
Qed.

(** The adjugate formula inverts a two-by-two matrix of non-zero
    determinant. *)
Lemma inverse_2x2 (a b c d : complex) :
  (a * d - b * c)%C <> C0 ->
  is_inverse (Mat 2 2 [[a; b]; [c; d]]) (inv2x2 (Mat 2 2 [[a; b]; [c; d]])).
Proof.
  intros Hdet. unfold inv2x2.
  change (get (Mat 2 2 [[a; b]; [c; d]]) 0 0) with a.
  change (get (Mat 2 2 [[a; b]; [c; d]]) 0 1) with b.
  change (get (Mat 2 2 [[a; b]; [c; d]]) 1 0) with c.
  change (get (Mat 2 2 [[a; b]; [c; d]]) 1 1) with d.
  split; [apply has_shape_2x2|].
  split; [reflexivity|]. split; [reflexivity|].
  split; unfold mat_mul, eye, tab2, bigsum, get; simpl; repeat f_equal;
    field; exact Hdet.
Qed.

Lemma unit_root_2_1 : unit_root 2 1 = RtoC (-1).
Proof.
  pose proof (even_length_samples_minus_one 1 ltac:(lia)) as E.
  change (2 * 1)%nat with 2%nat in E.
  destruct (unit_root 2 1) as [x y].
  pose proof (f_equal re E) as Hx. pose proof (f_equal im E) as Hy.
  simpl in Hx, Hy. apply complex_eq; simpl; lra.
Qed.

Lemma samp_M_inverse :
  is_inverse (bilinear_minus (DPLR_matrix samp_Lambda samp_p samp_q) (1.0 / INR 2)) samp_M.
Proof.
  split; [apply has_shape_2x2|].
  split; [reflexivity|]. split; [reflexivity|].
  split; unfold mat_mul, eye, tab2, bigsum; simpl; repeat f_equal;
    apply complex_eq; simpl; lra.
Qed.

Lemma samp_Abar_value :
  mat_mul samp_M (bilinear_plus (DPLR_matrix samp_Lambda samp_p samp_q) (1.0 / INR 2))
  = samp_Abar.
Proof.
  unfold mat_mul, tab2, samp_Abar. simpl. repeat f_equal; eval_sample.
Qed.

Lemma samp_Bbar_value :
  mat_mul (mscale samp_M (1.0 / INR 2)) (mcomplex samp_B) = samp_Bbar.
Proof.
  unfold mat_mul, tab2, samp_Bbar. simpl. repeat f_equal; eval_sample.
Qed.

Lemma samp_regular (k : nat) :
  (k < 2)%nat ->
  regular_point samp_Lambda samp_p samp_q (1.0 / INR 2) (vget samp_r k).
Proof.
  intros Hk.
  assert (Hk' : k = 0%nat \/ k = 1%nat) by lia. destruct Hk' as [-> | ->].
  - change (vget samp_r 0) with C1.
    assert (Hg : bilinear_g (1.0 / INR 2) C1 = C0) by eval_sample.
    split; [|split].
    + intros H. apply (f_equal re) in H. simpl in H. lra.
    + intros i Hi. simpl in Hi. rewrite Hg.
      assert (Hi' : i = 0%nat \/ i = 1%nat) by lia. destruct Hi' as [-> | ->];
        intros H; apply (f_equal re) in H; simpl in H; lra.
    + rewrite Hg.
      assert (E : (C1 + cauchy_k samp_Lambda C0 (map Cconj samp_q) samp_p)%C
                  = mkC (11 / 8) (1 / 8)) by eval_sample.
      rewrite E. intros H. apply (f_equal re) in H. simpl in H. lra.
  - change (vget samp_r 1) with (mkC (-1) (- (1 / 10000000))).
    assert (Hg : bilinear_g (1.0 / INR 2) (mkC (-1) (- (1 / 10000000)))
                 = mkC (-4) 80000000) by eval_sample.
    split; [|split].
    + intros H. apply (f_equal im) in H. simpl in H. lra.
    + intros i Hi. simpl in Hi. rewrite Hg.
      assert (Hi' : i = 0%nat \/ i = 1%nat) by lia. destruct Hi' as [-> | ->];
        intros H; apply (f_equal im) in H; simpl in H; lra.
    + rewrite Hg.
      assert (E : (C1 + cauchy_k samp_Lambda (mkC (-4) 80000000)
                           (map Cconj samp_q) samp_p)%C
                  = mkC (40959998976000078399999520000027
                         / 40959998976000089599999360000040)
                        (- (383999992000000479999999
                            / 40959998976000089599999360000040)))
        by eval_sample.
      rewrite E. intros H. apply (f_equal re) in H. simpl in H. lra.
Qed.

Lemma samp_resolvent (k : nat) :
  (k < 2)%nat ->
  is_inverse
    (resolvent_minus
       (mat_mul samp_M
          (bilinear_plus (DPLR_matrix samp_Lambda samp_p samp_q) (1.0 / INR 2)))
       (vget samp_r k)) (samp_Rz k).
Proof.
  intros Hk. rewrite samp_Abar_value. unfold samp_Rz.
  assert (Hk' : k = 0%nat \/ k = 1%nat) by lia. destruct Hk' as [-> | ->].
  - apply (inverse_2x2 _ _ _ _).
    match goal with |- ?d <> C0 =>
      replace d with (mkC (1892 / 4793) (- (1048 / 4793))) by (symmetry; eval_sample) end.
    intros H. apply (f_equal re) in H. simpl in H. lra.
  - apply (inverse_2x2 _ _ _ _).
    match goal with |- ?d <> C0 =>
      replace d with (mkC (174079996055999899 / 95860000000000000)
                          (41600011039999923 / 119825000000000000))
        by (symmetry; eval_sample) end.
    intros H. apply (f_equal re) in H. simpl in H. lra.
Qed.

Lemma samp_error (k : nat) :
  (k < 2)%nat ->
  sampling_error
    (mat_mul samp_M
       (bilinear_plus (DPLR_matrix samp_Lambda samp_p samp_q) (1.0 / INR 2)))
    (mat_mul (mscale samp_M (1.0 / INR 2)) (mcomplex samp_B))
    (mcomplex samp_C) (samp_Rz k) 2 (unit_root 2 k) <= 1e-4.
Proof.
  intros Hk. rewrite samp_Abar_value, samp_Bbar_value. unfold sampling_error.
  assert (Hk' : k = 0%nat \/ k = 1%nat) by lia. destruct Hk' as [-> | ->].
  - rewrite unit_root_0.
    match goal with |- Cabs ?d <= _ => replace d with C0 by (symmetry; eval_sample) end.
    rewrite Cabs_C0. lra.
  - rewrite unit_root_2_1.
    match goal with |- Cabs ?d <= _ =>
      replace d with
        (mkC (4525456322847086634971684440744
              / 3763871486063217001910801881271197017977)
             (- (41207643585790297784037355196776
                 / 3763871486063217001910801881271197017977)))
        by (symmetry; eval_sample) end.
    apply Cabs_le; [lra|]. unfold Cnorm2. simpl. lra.
Qed.


(** *** The oscillator, at [l_max = 1] *)

Lemma osc_Abar :
  mat_mul osc_M (bilinear_plus (DPLR_matrix osc_Lambda ex_p ex_q) (1.0 / INR 1))
  = Mat 1 1 [[mkC (1 / 5) (2 / 5)]].
Proof.
  unfold mat_mul, tab2. simpl. repeat f_equal. rewrite one_dot_zero. eval_complex.
Qed.

Lemma osc_resolvent :
  is_inverse
    (resolvent_minus
       (mat_mul osc_M (bilinear_plus (DPLR_matrix osc_Lambda ex_p ex_q) (1.0 / INR 1)))
       C1) osc_Rz.
Proof.
  rewrite osc_Abar.
  split; [apply (has_shape_1x1 (mkC 1 (1 / 2)))|].
  split; [reflexivity|]. split; [reflexivity|].
  split; unfold mat_mul, eye, tab2, bigsum; simpl; repeat f_equal;
    apply complex_eq; simpl; lra.
Qed.

